(** * shrpx_ssl: SNI certificate lookup tree, hostname matcher and
      session-ticket key callback of the nghttpx TLS layer.

    The development embeds [src/shrpx_ssl.cc] shallowly.  C strings are
    lists of characters (the bytes before the terminating NUL), pointers
    into a string are offsets, the [int] indices of the tree are integers,
    and the in-place updates of the tree are written as functional
    updates of the node they touch. *)

From Stdlib Require Import String Ascii List ZArith Bool Lia Arith Relations.
From Stdlib Require Strings.Byte.
Import ListNotations.

(** ** Characters and C strings *)

Definition cstring := list ascii.

Definition NUL : ascii := zero.
Definition STAR : ascii := "*"%char.
Definition DOT : ascii := "."%char.

(** [s "..."] writes a C string literal. *)
Definition s (x : string) : cstring := list_ascii_of_string x.

(** The C string held by a buffer: the bytes before the first NUL. *)
Fixpoint c_str (buf : list ascii) : cstring :=
  match buf with
  | [] => []
  | c :: buf' => if Ascii.eqb c NUL then [] else c :: c_str buf'
  end.

(** [strchr s c] for [c <> NUL]: offset of the first occurrence. *)
Fixpoint strchr (str : cstring) (c : ascii) : option nat :=
  match str with
  | [] => None
  | x :: str' =>
      if Ascii.eqb x c then Some O
      else match strchr str' c with
           | Some k => Some (S k)
           | None => None
           end
  end.

Definition is_null {A} (p : option A) : bool :=
  match p with None => true | Some _ => false end.

(** ** util.h *)

Module util.

(** Modelled from the spec: [util::lowcase] (util.h is not part of the
    sources at hand).  ASCII case folding: the letters A to Z go to a to z,
    every other byte is left alone. *)
Definition lowcase (c : ascii) : ascii :=
  let n := nat_of_ascii c in
  if (65 <=? n)%nat && (n <=? 90)%nat then ascii_of_nat (n + 32) else c.

(** Modelled from the spec: the comparison [CaseCmp] of util.h, equality
    of two characters up to ASCII case. *)
Definition CaseCmp (a b : ascii) : bool :=
  Ascii.eqb (lowcase a) (lowcase b).

(** Modelled from the spec: [util::strieq] on two C strings,
    case-insensitive equality of two C strings. *)
Fixpoint strieq (a b : cstring) : bool :=
  match a, b with
  | [], [] => true
  | x :: a', y :: b' => CaseCmp x y && strieq a' b'
  | _, _ => false
  end.

(** Modelled from the spec: [util::istartsWith(const char *a, const char *b)],
    [a] begins with [b] up to ASCII case. *)
Fixpoint istartsWith (a b : cstring) : bool :=
  match b with
  | [] => true
  | y :: b' =>
      match a with
      | [] => false
      | x :: a' => CaseCmp x y && istartsWith a' b'
      end
  end.

(** [std::equal(first2, last2, first1, CaseCmp())] over ranges of equal
    length. *)
Fixpoint equal_CaseCmp (r2 r1 : list ascii) : bool :=
  match r2, r1 with
  | [], _ => true
  | y :: r2', x :: r1' => CaseCmp y x && equal_CaseCmp r2' r1'
  | _ :: _, [] => false
  end.

(** Modelled from the spec: the iterator form
    [util::istartsWith(first1, last1, first2, last2)]: the range
    [r1 = [first1, last1)] starts with [r2 = [first2, last2)]. *)
Definition istartsWith_range (r1 r2 : list ascii) : bool :=
  if (length r1 <? length r2)%nat then false
  else equal_CaseCmp r2 r1.

(** Modelled from the spec: [util::iendsWith(first1, last1, first2, last2)]:
    the range [r1] ends with [r2]. *)
Definition iendsWith_range (r1 r2 : list ascii) : bool :=
  if (length r1 <? length r2)%nat then false
  else equal_CaseCmp r2 (skipn (length r1 - length r2) r1).

End util.

(** ** The hostname matcher *)

(** [tls_hostname_match(pattern, hostname)], RFC 6125 6.4.3.  The pointers
    [ptWildcard], [ptLeftLabelEnd] and [hnLeftLabelEnd] are offsets into
    their strings. *)
Definition tls_hostname_match (pattern hostname : cstring) : bool :=
  match strchr pattern STAR with
  | None => util.strieq pattern hostname
  | Some ptWildcard =>
      let ptLeftLabelEnd := strchr pattern DOT in
      let wildcardEnabled :=
        match ptLeftLabelEnd with
        | None => false
        | Some l =>
            if is_null (strchr (skipn (l + 1) pattern) DOT)
               || (l <? ptWildcard)%nat
               || util.istartsWith pattern (s "xn--")
            then false else true
        end in
      if negb wildcardEnabled then util.strieq pattern hostname
      else
        match ptLeftLabelEnd, strchr hostname DOT with
        | Some ptl, Some hnl =>
            if negb (util.strieq (skipn ptl pattern) (skipn hnl hostname))
            then false
            else if (hnl <? ptl)%nat then false
            else
              util.istartsWith_range (firstn hnl hostname)
                                     (firstn ptWildcard pattern)
              && util.iendsWith_range (firstn hnl hostname)
                   (skipn (ptWildcard + 1) (firstn ptl pattern))
        | _, _ => false
        end
  end.

(** ** The certificate lookup tree *)

Local Open Scope Z_scope.

(** An [SSL_CTX] is an opaque handle; a pointer [SSL_CTX *] is an
    [option], the null pointer being [None]. *)
Definition SSL_CTX := nat.

Unset Elimination Schemes.
(** Modelled from the spec: [struct CertNode] of shrpx_ssl.h (the header is
    not part of the sources at hand).  [str] points to a hostname buffer
    owned by the tree; the buffers are never written after their creation,
    so the node holds the buffer's content.  The characters of the node
    are [str[last + 1 .. first]], read from [first] down. *)
Inductive CertNode : Type := mkCertNode {
  ssl_ctx : option SSL_CTX;
  str : list ascii;
  first : Z;
  last : Z;
  wildcard_certs : list (list ascii * option SSL_CTX);
  next : list CertNode
}.
Set Elimination Schemes.

(** Modelled from the spec: [struct CertLookupTree] of shrpx_ssl.h. *)
Record CertLookupTree : Type := mkCertLookupTree {
  root : CertNode;
  hosts : list (list ascii)
}.

(** [buf[i]] for an [int] index.  A hostname buffer of length [len] holds
    a NUL at index [len]; a read outside the buffer, which C leaves
    undefined, yields NUL here. *)
Definition char_at (buf : list ascii) (i : Z) : ascii :=
  if i <? 0 then NUL else nth (Z.to_nat i) buf NUL.

(** The first character of a node, [cn->str[cn->first]]. *)
Definition first_char (cn : CertNode) : ascii := char_at (str cn) (first cn).

(** [cert_lookup_tree_new]: the root has a null [str] and
    [first = last = 0]. *)
Definition cert_lookup_tree_new : CertLookupTree :=
  {| root := {| ssl_ctx := None; str := []; first := 0; last := 0;
                wildcard_certs := []; next := [] |};
     hosts := [] |}.

(** The search loop over [node->next]: the index of the first child whose
    first character is [c], or [next.size()] when there is none. *)
Fixpoint find_next (nodes : list CertNode) (c : ascii) : nat :=
  match nodes with
  | [] => O
  | cn :: rest =>
      if Ascii.eqb (first_char cn) c then O else S (find_next rest c)
  end.

(** In-place update of [node->next[i]]. *)
Fixpoint set_next (nodes : list CertNode) (i : nat) (cn : CertNode)
  : list CertNode :=
  match nodes, i with
  | [], _ => []
  | _ :: rest, O => cn :: rest
  | x :: rest, S i' => x :: set_next rest i' cn
  end.

(** [for (j = offset; j >= 0 && hostname[j] != '*'; --j);] The loop runs
    at most [offset + 1] times, which is the fuel it is given. *)
Fixpoint scan_wildcard (fuel : nat) (hostname : list ascii) (j : Z) : Z :=
  match fuel with
  | O => j
  | S fuel' =>
      if (j >=? 0) && negb (Ascii.eqb (char_at hostname j) STAR)
      then scan_wildcard fuel' hostname (j - 1)
      else j
  end.

(** [for (i = first, j = offset;
         i > last && j >= 0 && str[i] == conv(hostname[j]); --i, --j);]
    with [conv] the identity in insertion and [util::lowcase] in lookup.
    Returns the final [(i, j)]. *)
Fixpoint walk (conv : ascii -> ascii) (fuel : nat)
         (nstr hostname : list ascii) (nlast i j : Z) : Z * Z :=
  match fuel with
  | O => (i, j)
  | S fuel' =>
      if (i >? nlast) && (j >=? 0)
         && Ascii.eqb (char_at nstr i) (conv (char_at hostname j))
      then walk conv fuel' nstr hostname nlast (i - 1) (j - 1)
      else (i, j)
  end.

Definition loop_fuel (offset : Z) : nat := Z.to_nat (offset + 1).

Definition with_ssl_ctx (cn : CertNode) (ctx : option SSL_CTX) : CertNode :=
  {| ssl_ctx := ctx; str := str cn; first := first cn; last := last cn;
     wildcard_certs := wildcard_certs cn; next := next cn |}.

Definition with_next (cn : CertNode) (nodes : list CertNode) : CertNode :=
  {| ssl_ctx := ssl_ctx cn; str := str cn; first := first cn; last := last cn;
     wildcard_certs := wildcard_certs cn; next := nodes |}.

Definition push_wildcard (cn : CertNode) (hostname : list ascii)
           (ctx : option SSL_CTX) : CertNode :=
  {| ssl_ctx := ssl_ctx cn; str := str cn; first := first cn; last := last cn;
     wildcard_certs := wildcard_certs cn ++ [(hostname, ctx)];
     next := next cn |}.

(** What one activation of the recursive insertion does: it either
    finishes with the updated node, or it calls itself on the child
    [next[i]], which it may have split just before, at offset [j]. *)
Inductive add_step : Type :=
| Done (node' : CertNode)
| Recurse (i : nat) (cn : CertNode) (j : Z).

(** The body of the recursive [cert_lookup_tree_add_cert(lt, node, ssl_ctx,
    hostname, len, offset)], up to its recursive call.  The C function
    updates the nodes in place; here the updated node is returned. *)
Definition cert_lookup_tree_add_cert_body (node : CertNode)
           (ctx : option SSL_CTX) (hostname : list ascii) (offset : Z)
  : add_step :=
  let c := char_at hostname offset in
  let i := find_next (next node) c in
  match nth_error (next node) i with
  | None =>
      (* i == next_len *)
      if Ascii.eqb c STAR then
        Done (push_wildcard node hostname ctx)
      else
        let j := scan_wildcard (loop_fuel offset) hostname offset in
        let new_node :=
          {| ssl_ctx := if j =? -1 then ctx else None;
             str := hostname; first := offset; last := j;
             wildcard_certs := if j =? -1 then [] else [(hostname, ctx)];
             next := [] |} in
        Done (with_next node (next node ++ [new_node]))
  | Some cn =>
      let '(i', j) := walk (fun x => x) (loop_fuel offset)
                           (str cn) hostname (last cn) (first cn) offset in
      if i' =? last cn then
        if j =? -1 then
          match ssl_ctx cn with
          | Some _ => Done node
          | None =>
              Done (with_next node
                      (set_next (next node) i (with_ssl_ctx cn ctx)))
          end
        else Recurse i cn j
      else
        let new_node :=
          {| ssl_ctx := ssl_ctx cn; str := str cn; first := i';
             last := last cn; wildcard_certs := wildcard_certs cn;
             next := next cn |} in
        let cn1 (ctx1 : option SSL_CTX) :=
          {| ssl_ctx := ctx1; str := str cn; first := first cn;
             last := i'; wildcard_certs := []; next := [new_node] |} in
        if j =? -1 then
          Done (with_next node (set_next (next node) i (cn1 ctx)))
        else Recurse i (cn1 None) j
  end.

(** The recursive insertion.  Its recursion is general in C: [fuel] bounds
    the number of nested activations and [None] is returned when it runs
    out. *)
Fixpoint cert_lookup_tree_add_cert_node (fuel : nat) (node : CertNode)
         (ctx : option SSL_CTX) (hostname : list ascii) (offset : Z)
  : option CertNode :=
  match fuel with
  | O => None
  | S fuel' =>
      match cert_lookup_tree_add_cert_body node ctx hostname offset with
      | Done node' => Some node'
      | Recurse i cn j =>
          match cert_lookup_tree_add_cert_node fuel' cn ctx hostname j with
          | Some cn' => Some (with_next node (set_next (next node) i cn'))
          | None => None
          end
      end
  end.

(** Conversion of a [size_t] value to [int] (64-bit [size_t], 32-bit two's
    complement [int]). *)
Definition int_of_size_t (x : Z) : Z :=
  ((x mod 2 ^ 64) + 2 ^ 31) mod 2 ^ 32 - 2 ^ 31.

Definition INT_MAX : Z := 2147483647.

(** The public [cert_lookup_tree_add_cert(lt, ssl_ctx, hostname, len)]. *)
Definition cert_lookup_tree_add_cert (lt : CertLookupTree)
           (ctx : option SSL_CTX) (hostname : list ascii)
  : option CertLookupTree :=
  let len := Z.of_nat (length hostname) in
  if len =? 0 then Some lt
  else
    let host_copy := map util.lowcase hostname in
    let offset := int_of_size_t (len - 1) in
    match cert_lookup_tree_add_cert_node (loop_fuel offset) (root lt) ctx
                                         host_copy offset with
    | Some r => Some {| root := r; hosts := hosts lt ++ [host_copy] |}
    | None => None
    end.

(** The loop over [node->wildcard_certs]: the context of the first pattern
    that matches, which may be a null pointer. *)
Fixpoint match_wildcard_certs (certs : list (list ascii * option SSL_CTX))
         (hostname : list ascii) : option (option SSL_CTX) :=
  match certs with
  | [] => None
  | wildcert :: rest =>
      if tls_hostname_match (c_str (fst wildcert)) (c_str hostname)
      then Some (snd wildcert)
      else match_wildcard_certs rest hostname
  end.

(** The recursive [cert_lookup_tree_lookup(lt, node, hostname, len,
    offset)].  Each recursive call descends to a child of [node]. *)
Fixpoint cert_lookup_tree_lookup_node (node : CertNode)
         (hostname : list ascii) (offset : Z) {struct node}
  : option SSL_CTX :=
  let '(i, j) := walk util.lowcase (loop_fuel offset) (str node) hostname
                      (last node) (first node) offset in
  if negb (i =? last node) then None
  else if j =? -1 then ssl_ctx node
  else
    match match_wildcard_certs (wildcard_certs node) hostname with
    | Some ctx => ctx
    | None =>
        let c := util.lowcase (char_at hostname j) in
        (fix scan (nodes : list CertNode) : option SSL_CTX :=
           match nodes with
           | [] => None
           | next_node :: rest =>
               if Ascii.eqb (first_char next_node) c
               then cert_lookup_tree_lookup_node next_node hostname j
               else scan rest
           end) (next node)
    end.

(** The public [cert_lookup_tree_lookup(lt, hostname, len)]. *)
Definition cert_lookup_tree_lookup (lt : CertLookupTree)
           (hostname : list ascii) : option SSL_CTX :=
  let len := Z.of_nat (length hostname) in
  cert_lookup_tree_lookup_node (root lt) hostname (int_of_size_t (len - 1)).

(** What one activation of the recursive lookup does: it returns, or
    it calls itself on a child at offset [j]. *)
Inductive lookup_step : Type :=
| Return (r : option SSL_CTX)
| Descend (next_node : CertNode) (j : Z).

(** The body of the recursive lookup up to its recursive call. *)
Definition cert_lookup_tree_lookup_body (node : CertNode)
           (hostname : list ascii) (offset : Z) : lookup_step :=
  let '(i, j) := walk util.lowcase (loop_fuel offset) (str node) hostname
                      (last node) (first node) offset in
  if negb (i =? last node) then Return None
  else if j =? -1 then Return (ssl_ctx node)
  else
    match match_wildcard_certs (wildcard_certs node) hostname with
    | Some ctx => Return ctx
    | None =>
        let c := util.lowcase (char_at hostname j) in
        match nth_error (next node) (find_next (next node) c) with
        | Some next_node => Descend next_node j
        | None => Return None
        end
    end.

(** A sequence of registrations, as [cert_lookup_tree_add_cert_from_file]
    and [setup_server_ssl_context] perform them. *)
Fixpoint add_certs (lt : CertLookupTree)
         (certs : list (list ascii * option SSL_CTX))
  : option CertLookupTree :=
  match certs with
  | [] => Some lt
  | (hostname, ctx) :: rest =>
      match cert_lookup_tree_add_cert lt ctx hostname with
      | Some lt' => add_certs lt' rest
      | None => None
      end
  end.

(** ** The session-ticket key callback *)

(** Modelled from the spec: [struct TicketKey] of shrpx_config.h (not part
    of the sources at hand): a 16-byte name, an AES-128 key and an HMAC
    key. *)
Record TicketKey : Type := mkTicketKey {
  name : list Byte.byte;
  aes_key : list Byte.byte;
  hmac_key : list Byte.byte
}.

(** [memcmp(a, b, n) == 0] on buffers of at least [n] bytes. *)
Fixpoint memcmp_eq (n : nat) (a b : list Byte.byte) : bool :=
  match n with
  | O => true
  | S n' =>
      match a, b with
      | x :: a', y :: b' => Byte.eqb x y && memcmp_eq n' a' b'
      | _, _ => false
      end
  end.

(** What the callback leaves in the cipher and HMAC contexts. *)
Inductive crypto_init : Type :=
| NoInit
| EncryptInit (key : TicketKey) (iv : list Byte.byte)
| DecryptInit (key : TicketKey) (iv : list Byte.byte).

(** The decrypt loop
    [for (i = 0; i < keys.size(); ++i) { auto &key = keys[0]; ... break; }]
    entered at index [i] with [n] iterations left; the value of [i] after
    the loop. *)
Fixpoint ticket_key_search (keys : list TicketKey) (key_name : list Byte.byte)
         (n i : nat) : nat :=
  match n with
  | O => i
  | S n' =>
      match nth_error keys 0 with
      | Some key =>
          if memcmp_eq 16 (name key) key_name then i
          else ticket_key_search keys key_name n' (S i)
      | None => i
      end
  end.

(** [ticket_key_cb].  [ticket_keys] is [worker_config->ticket_keys] (a null
    pointer is [None]); [rand] is what [RAND_bytes] delivers, [None] when it
    fails.  The result is [None] when [assert(!keys.empty())] fails, and
    otherwise the returned [int] with the initialisation performed. *)
Definition ticket_key_cb (ticket_keys : option (list TicketKey))
           (rand : option (list Byte.byte))
           (key_name iv : list Byte.byte) (enc : bool)
  : option (Z * crypto_init) :=
  match ticket_keys with
  | None => Some (-1, NoInit)
  | Some keys =>
      match keys with
      | [] => None
      | key0 :: _ =>
          if enc then
            match rand with
            | None => Some (-1, NoInit)
            | Some iv' => Some (1, EncryptInit key0 iv')
            end
          else
            let i := ticket_key_search keys key_name (length keys) O in
            if (i =? length keys)%nat then Some (0, NoInit)
            else
              match nth_error keys i with
              | Some key => Some (if (i =? 0)%nat then 1 else 2,
                                  DecryptInit key iv)
              | None => None
              end
      end
  end.

(** ** Notions used by the properties *)

(** Two buffers are equal up to ASCII case when they fold to the same
    buffer. *)
Definition case_equal (a b : list ascii) : Prop :=
  map util.lowcase a = map util.lowcase b.

(** The suffix [.d.e] and the pattern [*.d.e], a wildcard alone in the
    left-most label. *)
Definition dot_suffix (d e : cstring) : cstring := DOT :: d ++ DOT :: e.
Definition star_pattern (d e : cstring) : cstring := STAR :: dot_suffix d e.

(** Two ticket keys with different names. *)
Definition bytes16 (b : Byte.byte) : list Byte.byte := repeat b 16.

Definition primary_key : TicketKey :=
  {| name := bytes16 Byte.x01; aes_key := bytes16 Byte.x11;
     hmac_key := bytes16 Byte.x21 |}.

Definition older_key : TicketKey :=
  {| name := bytes16 Byte.x02; aes_key := bytes16 Byte.x12;
     hmac_key := bytes16 Byte.x22 |}.

(** A tree with a few registrations, for the examples. *)
Definition example_certs : list (list ascii * option SSL_CTX) :=
  [(s "foo.co.uk", Some 1%nat); (s "bar.co.uk", Some 2%nat);
   (s "baz.co.jp", Some 3%nat); (s "*.Example.com", Some 4%nat);
   (s "www.example.com", Some 5%nat); (s "example.com", Some 6%nat)].

Definition example_tree : CertLookupTree :=
  Eval vm_compute in
    match add_certs cert_lookup_tree_new example_certs with
    | Some lt => lt
    | None => cert_lookup_tree_new
    end.

(** ** Induction on nodes *)

Section CertNode_induction.

Variable P : CertNode -> Prop.
Hypothesis P_node :
  forall ctx nstr nfirst nlast certs nodes,
    Forall P nodes -> P (mkCertNode ctx nstr nfirst nlast certs nodes).

Fixpoint CertNode_ind (node : CertNode) : P node :=
  match node with
  | mkCertNode ctx nstr nfirst nlast certs nodes =>
      P_node ctx nstr nfirst nlast certs nodes
        ((fix all (l : list CertNode) : Forall P l :=
            match l with
            | [] => Forall_nil P
            | x :: rest => Forall_cons x (CertNode_ind x) (all rest)
            end) nodes)
  end.

End CertNode_induction.

(** ** Nodes of a tree *)

(** [in_tree node t]: [node] is [t] or lies below it. *)
Inductive in_tree : CertNode -> CertNode -> Prop :=
| in_tree_here t : in_tree t t
| in_tree_child node cn t :
    In cn (next t) -> in_tree node cn -> in_tree node t.

Unset Elimination Schemes.
(** Children begin with pairwise distinct characters, throughout the
    subtree. *)
Inductive distinct_edges : CertNode -> Prop :=
| distinct_edges_node node :
    NoDup (map first_char (next node)) ->
    Forall distinct_edges (next node) ->
    distinct_edges node.

(** Every node below the given one holds at least one character. *)
Inductive nonempty_edges : CertNode -> Prop :=
| nonempty_edges_node node :
    Forall (fun cn => last cn < first cn) (next node) ->
    Forall nonempty_edges (next node) ->
    nonempty_edges node.
Set Elimination Schemes.

(** Hostname lengths that fit the [int] offset of the recursion. *)
Definition hostname_fits (hostname : list ascii) : Prop :=
  Z.of_nat (length hostname) - 1 <= INT_MAX.

(** The invariant of the trees that insertion builds. *)
Definition tree_ok (lt : CertLookupTree) : Prop :=
  nonempty_edges (root lt) /\ first (root lt) = 0 /\ last (root lt) = 0.

(** An activation of a recursive function: the node it is entered on and
    its offset. *)
Definition activation : Type := (CertNode * Z)%type.

(** [add_calls ctx hostname a b]: the activation [a] of the recursive
    insertion makes the recursive call [b]. *)
Inductive add_calls (ctx : option SSL_CTX) (hostname : list ascii)
  : activation -> activation -> Prop :=
| add_calls_intro node offset i cn j :
    cert_lookup_tree_add_cert_body node ctx hostname offset = Recurse i cn j ->
    add_calls ctx hostname (node, offset) (cn, j).

(** [lookup_calls hostname a b]: the activation [a] of the recursive lookup
    makes the recursive call [b]. *)
Inductive lookup_calls (hostname : list ascii)
  : activation -> activation -> Prop :=
| lookup_calls_intro node offset cn j :
    cert_lookup_tree_lookup_body node hostname offset = Descend cn j ->
    lookup_calls hostname (node, offset) (cn, j).

(** The lookup driven by its body with a bound on the number of
    activations. *)
Fixpoint lookup_run (fuel : nat) (node : CertNode) (hostname : list ascii)
         (offset : Z) : option (option SSL_CTX) :=
  match fuel with
  | O => None
  | S fuel' =>
      match cert_lookup_tree_lookup_body node hostname offset with
      | Return r => Some r
      | Descend next_node j => lookup_run fuel' next_node hostname j
      end
  end.

(** The node made for a hostname that meets no child. *)
Definition new_leaf (ctx : option SSL_CTX) (hostname : list ascii) (offset : Z)
  : CertNode :=
  let j := scan_wildcard (loop_fuel offset) hostname offset in
  {| ssl_ctx := if j =? -1 then ctx else None;
     str := hostname; first := offset; last := j;
     wildcard_certs := if j =? -1 then [] else [(hostname, ctx)];
     next := [] |}.

(** [wild_dup hostname n n']: [n'] is [n], but for one more entry for the
    pattern [hostname] at the end of a wildcard list, of [n] or of a node
    below it, that holds an entry for this pattern already. *)
Inductive wild_dup (hostname : list ascii) : CertNode -> CertNode -> Prop :=
| wild_dup_same node : wild_dup hostname node node
| wild_dup_here node ctx ctx' :
    In STAR hostname ->
    In (hostname, ctx) (wildcard_certs node) ->
    wild_dup hostname node (push_wildcard node hostname ctx')
| wild_dup_child node i cn cn' :
    nth_error (next node) i = Some cn ->
    wild_dup hostname cn cn' ->
    wild_dup hostname node (with_next node (set_next (next node) i cn')).

(** ** Protocol negotiation *)

(** Return codes of the TLS extension callbacks, as openssl/tls1.h gives
    them. *)
Definition SSL_TLSEXT_ERR_OK : Z := 0.
Definition SSL_TLSEXT_ERR_NOACK : Z := 3.

(** [memcmp(a, b, n) == 0] on character buffers of at least [n] bytes. *)
Fixpoint memcmp_chars (n : nat) (a b : list ascii) : bool :=
  match n with
  | O => true
  | S n' =>
      match a, b with
      | x :: a', y :: b' => Ascii.eqb x y && memcmp_chars n' a' b'
      | _, _ => false
      end
  end.

(** The first loop of [set_alpn_prefs]: the length of the encoding, [None]
    where the code calls [DIE()] for an identifier of more than 255
    bytes. *)
Fixpoint alpn_prefs_len (protos : list cstring) (len : nat) : option nat :=
  match protos with
  | [] => Some len
  | proto :: rest =>
      let n := length proto in
      if (255 <? n)%nat then None else alpn_prefs_len rest (len + (1 + n))
  end.

(** The second loop of [set_alpn_prefs]: a length byte, then the
    identifier, for every protocol. *)
Fixpoint alpn_prefs_fill (protos : list cstring) : list ascii :=
  match protos with
  | [] => []
  | proto :: rest =>
      ascii_of_nat (length proto) :: proto ++ alpn_prefs_fill rest
  end.

(** [set_alpn_prefs(protos)]; [None] where the code calls [DIE()]. *)
Definition set_alpn_prefs (protos : list cstring) : option (list ascii) :=
  match alpn_prefs_len protos 0 with
  | None => None
  | Some len =>
      if 2 ^ 16 - 1 <? Z.of_nat len then None else Some (alpn_prefs_fill protos)
  end.

(** The inner loop of [alpn_select_proto_cb] for one [target_proto_id]:
    [p] is the input from the pointer [p] to [end].  Every round moves [p]
    by at least one byte, so [inlen] rounds are the most there can be. *)
Fixpoint alpn_scan (fuel : nat) (target : cstring) (p : list ascii)
  : option (list ascii) :=
  match fuel with
  | O => None
  | S fuel' =>
      match p with
      | [] => None
      | b :: proto_id =>
          let proto_len := nat_of_ascii b in
          if (proto_len <=? length proto_id)%nat
             && (length target =? proto_len)%nat
             && memcmp_chars proto_len target proto_id
          then Some (firstn proto_len proto_id)
          else alpn_scan fuel' target (skipn proto_len proto_id)
      end
  end.

(** The outer loop over [get_config()->npn_list]. *)
Fixpoint alpn_select (npn_list : list cstring) (inp : list ascii)
  : option (list ascii) :=
  match npn_list with
  | [] => None
  | target :: rest =>
      match alpn_scan (length inp) target inp with
      | Some out => Some out
      | None => alpn_select rest inp
      end
  end.

(** [alpn_select_proto_cb]: the returned code and what [*out], [*outlen]
    are set to. *)
Definition alpn_select_proto_cb (npn_list : list cstring) (inp : list ascii)
  : Z * option (list ascii) :=
  match alpn_select npn_list inp with
  | Some out => (SSL_TLSEXT_ERR_OK, Some out)
  | None => (SSL_TLSEXT_ERR_NOACK, None)
  end.

(** [in_proto_list(protos, needle, len)], [needle] being a buffer of [len]
    bytes. *)
Fixpoint in_proto_list (protos : list cstring) (needle : list ascii) : bool :=
  match protos with
  | [] => false
  | proto :: rest =>
      if (length proto =? length needle)%nat
         && memcmp_chars (length needle) proto needle
      then true
      else in_proto_list rest needle
  end.

(** The entries of a length-prefixed protocol list that lie wholly inside
    the buffer. *)
Fixpoint alpn_parse (fuel : nat) (p : list ascii) : list (list ascii) :=
  match fuel with
  | O => []
  | S fuel' =>
      match p with
      | [] => []
      | b :: proto_id =>
          let proto_len := nat_of_ascii b in
          if (proto_len <=? length proto_id)%nat
          then firstn proto_len proto_id
               :: alpn_parse fuel' (skipn proto_len proto_id)
          else []
      end
  end.

Definition alpn_entries (inp : list ascii) : list (list ascii) :=
  alpn_parse (length inp) inp.
(** The length of the encoding of a protocol list: one length byte and the
    identifier for each protocol. *)
Definition alpn_encoded_len (protos : list cstring) : nat :=
  list_sum (map (fun proto => 1 + length proto)%nat protos).
(** ** The TLS protocol version mask *)

(** [tls_names]; the table [tls_masks] beside it holds the option bits
    [SSL_OP_NO_TLSv1_2], [SSL_OP_NO_TLSv1_1], [SSL_OP_NO_TLSv1] of
    openssl/ssl.h, which the functions below take as [masks]. *)
Definition tls_names : list cstring :=
  [s "TLSv1.2"; s "TLSv1.1"; s "TLSv1.0"].

(** The inner loop of [create_tls_proto_mask]: whether the search for
    [name] in [tls_proto_list] stops before the end ([j < size]). *)
Fixpoint tls_proto_listed (name : cstring) (tls_proto_list : list cstring)
  : bool :=
  match tls_proto_list with
  | [] => false
  | t :: rest =>
      if util.strieq name t then true else tls_proto_listed name rest
  end.

(** The outer loop over the two tables, [res] being the mask so far. *)
Fixpoint tls_proto_mask_loop (names : list cstring) (masks : list Z)
         (tls_proto_list : list cstring) (res : Z) : Z :=
  match names, masks with
  | name :: names', mask :: masks' =>
      tls_proto_mask_loop names' masks' tls_proto_list
        (if tls_proto_listed name tls_proto_list then res else Z.lor res mask)
  | _, _ => res
  end.

(** [create_tls_proto_mask(tls_proto_list)]. *)
Definition create_tls_proto_mask (no_tlsv1_2 no_tlsv1_1 no_tlsv1 : Z)
           (tls_proto_list : list cstring) : Z :=
  tls_proto_mask_loop tls_names [no_tlsv1_2; no_tlsv1_1; no_tlsv1]
                      tls_proto_list 0.

(** ** The passphrase callback *)


(** ** Verification of the peer's certificate names *)

Inductive sa_family : Type := AF_INET | AF_INET6 | AF_OTHER.

(** The part of [sockaddr_union] that [verify_hostname] reads: the family
    and the bytes found at [&su->in.sin_addr] and at
    [&su->in6.sin6_addr]. *)
Record sockaddr_union : Type := mk_sockaddr_union {
  ss_family : sa_family;
  sin_addr : list ascii;
  sin6_addr : list ascii
}.

(** The loop over [ip_addrs] in [verify_hostname]. *)
Fixpoint verify_ip_addrs (saddr : list ascii) (salen : nat)
         (ip_addrs : list (list ascii)) : Z :=
  match ip_addrs with
  | [] => -1
  | ip :: rest =>
      if (salen =? length ip)%nat && memcmp_chars salen saddr ip then 0
      else verify_ip_addrs saddr salen rest
  end.

(** The loop over [dns_names] in [verify_hostname]. *)
Fixpoint verify_dns_names (hostname : cstring) (dns_names : list (list ascii))
  : Z :=
  match dns_names with
  | [] => -1
  | name :: rest =>
      if tls_hostname_match (c_str name) hostname then 0
      else verify_dns_names hostname rest
  end.

(** [verify_hostname]; [numeric_host] stands for [util::numeric_host],
    whose definition is not part of the sources at hand. *)
Definition verify_hostname (numeric_host : cstring -> bool)
           (hostname : cstring) (su : sockaddr_union) (salen : nat)
           (dns_names ip_addrs : list (list ascii)) (common_name : list ascii)
  : Z :=
  if numeric_host hostname then
    match ip_addrs with
    | [] => if util.strieq (c_str common_name) hostname then 0 else -1
    | _ :: _ =>
        match ss_family su with
        | AF_INET => verify_ip_addrs (sin_addr su) salen ip_addrs
        | AF_INET6 => verify_ip_addrs (sin6_addr su) salen ip_addrs
        | AF_OTHER => -1
        end
    end
  else
    match dns_names with
    | [] => if tls_hostname_match (c_str common_name) hostname then 0 else -1
    | _ :: _ => verify_dns_names hostname dns_names
    end.
(** ** Notions for insertion followed by lookup *)

(** What the recursive lookup does at [node] once the characters of the
    node are read and [hostname] is not used up: the wildcard patterns of
    the node first, then the child that begins with [hostname[j]]. *)
Definition lookup_below (node : CertNode) (hostname : list ascii) (j : Z)
  : option SSL_CTX :=
  match match_wildcard_certs (wildcard_certs node) hostname with
  | Some ctx => ctx
  | None =>
      match nth_error (next node)
              (find_next (next node) (util.lowcase (char_at hostname j))) with
      | Some next_node => cert_lookup_tree_lookup_node next_node hostname j
      | None => None
      end
  end.

(** The context found for a name once [ctx] is registered for it: the one
    found before, if there was one. *)
Definition first_wins (found ctx : option SSL_CTX) : option SSL_CTX :=
  match found with
  | Some c => Some c
  | None => ctx
  end.

(** [same_name h o query j]: what is left of [query] from offset [j] down
    is, up to case, what is left of the registered buffer [h] from offset
    [o] down. *)
Definition same_name (h : list ascii) (o : Z) (query : list ascii) (j : Z)
  : Prop :=
  j = o /\ forall t, 0 <= t <= o -> util.lowcase (char_at query t) = char_at h t.

Unset Elimination Schemes.
(** No wildcard pattern of the subtree holds a null context. *)
Inductive wild_nonnull : CertNode -> Prop :=
| wild_nonnull_node node :
    Forall (fun w => snd w <> None) (wildcard_certs node) ->
    Forall wild_nonnull (next node) ->
    wild_nonnull node.
Set Elimination Schemes.

(** The registrations a tree is built from: hostnames that fit the [int]
    offset, and a context that is not null for every wildcard pattern. *)
Definition registrations_ok (certs : list (list ascii * option SSL_CTX))
  : Prop :=
  Forall (fun p => hostname_fits (fst p) /\ (In STAR (fst p) -> snd p <> None))
         certs.

(** The first registration of a list that is made for [query], up to case,
    with a context that is not null. *)
Definition first_registered (certs : list (list ascii * option SSL_CTX))
           (query : list ascii) : option SSL_CTX :=
  match find (fun p => util.strieq (fst p) query
                       && match snd p with Some _ => true | None => false end)
             certs with
  | Some p => snd p
  | None => None
  end.

(** The two nodes that a split of [cn] at index [i'] leaves: the lower one
    keeps the characters from [i'] down, with the context, the patterns and
    the children of [cn]; the upper one keeps the characters above [i'] and
    has the lower one as its only child. *)
Definition split_lower (cn : CertNode) (i' : Z) : CertNode :=
  {| ssl_ctx := ssl_ctx cn; str := str cn; first := i'; last := last cn;
     wildcard_certs := wildcard_certs cn; next := next cn |}.

Definition split_upper (cn : CertNode) (i' : Z) (ctx1 : option SSL_CTX)
  : CertNode :=
  {| ssl_ctx := ctx1; str := str cn; first := first cn; last := i';
     wildcard_certs := []; next := [split_lower cn i'] |}.

(** ** Notions for the soundness of the lookup *)

(** [agree a p b q]: the buffers [a] above index [p] and [b] above index
    [q] hold the same characters. *)
Definition agree (a : list ascii) (p : Z) (b : list ascii) (q : Z) : Prop :=
  Z.of_nat (length a) - p = Z.of_nat (length b) - q
  /\ forall t, 0 < t -> char_at a (p + t) = char_at b (q + t).

(** The context [c] is registered in [certs] for a name that [query] is up
    to case, or for a wildcard pattern that matches [query]. *)
Definition registered_for (certs : list (list ascii * option SSL_CTX))
           (query : list ascii) (c : SSL_CTX) : Prop :=
  exists hostname,
    In (hostname, Some c) certs
    /\ (case_equal hostname query
        \/ (In STAR hostname
            /\ tls_hostname_match (c_str (map util.lowcase hostname))
                                  (c_str query) = true)).

(** Every pattern of a wildcard list is the copy of a registered name that
    holds a wildcard, with the context of that registration. *)
Definition patterns_registered (certs ws : list (list ascii * option SSL_CTX))
  : Prop :=
  Forall (fun w => exists hostname,
              In (hostname, snd w) certs /\ In STAR hostname
              /\ fst w = map util.lowcase hostname) ws.

Unset Elimination Schemes.
(** [sound certs a p cn]: the node [cn] is reached when the characters of
    [a] above [p] are read; its buffer holds them above [first], a context
    it has is registered for the name its buffer holds above [last], its
    patterns are registered, and so on below it. *)
Inductive sound (certs : list (list ascii * option SSL_CTX))
  : list ascii -> Z -> CertNode -> Prop :=
| sound_node a p cn :
    agree a p (str cn) (first cn) ->
    (forall c, ssl_ctx cn = Some c ->
               exists hostname,
                 In (hostname, Some c) certs
                 /\ agree (map util.lowcase hostname) (-1) (str cn) (last cn)) ->
    patterns_registered certs (wildcard_certs cn) ->
    Forall (sound certs (str cn) (last cn)) (next cn) ->
    sound certs a p cn.
Set Elimination Schemes.

(** The patterns and the children of a node whose characters end where
    those of [b] above [q] end. *)
Definition sound_below (certs : list (list ascii * option SSL_CTX))
           (b : list ascii) (q : Z) (node : CertNode) : Prop :=
  patterns_registered certs (wildcard_certs node)
  /\ Forall (sound certs b q) (next node).

(** The root holds no character and no context. *)
Definition root_sound (certs : list (list ascii * option SSL_CTX))
           (r : CertNode) : Prop :=
  ssl_ctx r = None /\ sound_below certs [] (-1) r.

(** ** What the session-ticket callback writes *)

(** The buffers [key_name] and [iv] after a call of [ticket_key_cb] that
    initialises an encryption: [RAND_bytes] has filled [iv], and
    [memcpy(key_name, key.name, sizeof(key.name))] has written the 16 bytes
    of the name of [keys[0]].  [None] on every other path, where the
    callback writes to neither. *)
Definition ticket_key_cb_written (ticket_keys : option (list TicketKey))
           (rand : option (list Byte.byte)) (key_name : list Byte.byte)
           (enc : bool) : option (list Byte.byte * list Byte.byte) :=
  match ticket_keys with
  | Some (key0 :: _) =>
      if enc then
        match rand with
        | Some iv' => Some (firstn 16 (name key0) ++ skipn 16 key_name, iv')
        | None => None
        end
      else None
  | _ => None
  end.

(** ** The names of a certificate *)

(** What [get_altnames] reads of a [GENERAL_NAME] of OpenSSL: its type
    and, for the two types it handles, the data pointer, null being [None],
    with the bytes it points to, as many as the length of the ASN.1 string
    says. *)
Inductive GENERAL_NAME : Type :=
| GEN_DNS (ia5 : option (list ascii))
| GEN_IPADD (iPAddress : option (list ascii))
| GEN_OTHER.

(** What [get_altnames] reads of an entry of the subject name: whether
    [X509_NAME_get_index_by_NID] finds it for [NID_commonName], and what
    [ASN1_STRING_to_UTF8] makes of its data, [None] where the length it
    returns is negative. *)
Record X509_NAME_ENTRY : Type := mkX509_NAME_ENTRY {
  is_commonName : bool;
  to_UTF8 : option (list ascii)
}.

(** What [get_altnames] reads of a certificate: the subject alternative
    names that [X509_get_ext_d2i] returns and the subject name that
    [X509_get_subject_name] returns, a null pointer being [None]. *)
Record X509 : Type := mkX509 {
  subject_alt_name : option (list GENERAL_NAME);
  subject_name : option (list X509_NAME_ENTRY)
}.

(** [std::find(name, name + len, '\0') != name + len]. *)
Definition has_nul (buf : list ascii) : bool := existsb (Ascii.eqb NUL) buf.

(** The loop over the alternative names, on the vectors [dns_names] and
    [ip_addrs]. *)
Fixpoint altnames_loop (altnames : list GENERAL_NAME)
         (dns_names ip_addrs : list (list ascii))
  : list (list ascii) * list (list ascii) :=
  match altnames with
  | [] => (dns_names, ip_addrs)
  | GEN_DNS None :: rest => altnames_loop rest dns_names ip_addrs
  | GEN_DNS (Some name) :: rest =>
      if has_nul name then altnames_loop rest dns_names ip_addrs
      else altnames_loop rest (dns_names ++ [name]) ip_addrs
  | GEN_IPADD None :: rest => altnames_loop rest dns_names ip_addrs
  | GEN_IPADD (Some ip_addr) :: rest =>
      altnames_loop rest dns_names (ip_addrs ++ [ip_addr])
  | GEN_OTHER :: rest => altnames_loop rest dns_names ip_addrs
  end.

(** The loop [while (1)] over the common names of the subject, on the
    string [common_name]; [entries] are the entries after [lastpos]. *)
Fixpoint common_name_loop (entries : list X509_NAME_ENTRY)
         (common_name : list ascii) : list ascii :=
  match entries with
  | [] => common_name
  | entry :: rest =>
      if is_commonName entry then
        match to_UTF8 entry with
        | None => common_name_loop rest common_name
        | Some out =>
            if has_nul out then common_name_loop rest common_name else out
        end
      else common_name_loop rest common_name
  end.

(** [get_altnames(cert, dns_names, ip_addrs, common_name)]: the three
    output arguments after the call. *)
Definition get_altnames (cert : X509) (dns_names ip_addrs : list (list ascii))
           (common_name : list ascii)
  : list (list ascii) * list (list ascii) * list ascii :=
  let '(dns_names', ip_addrs') :=
    match subject_alt_name cert with
    | Some altnames => altnames_loop altnames dns_names ip_addrs
    | None => (dns_names, ip_addrs)
    end in
  match subject_name cert with
  | None => (dns_names', ip_addrs', common_name)
  | Some entries => (dns_names', ip_addrs', common_name_loop entries common_name)
  end.

Definition X509_V_OK : Z := 0.

(** [check_cert(ssl)]: [peer] is what [SSL_get_peer_certificate] returns,
    [verify_res] what [SSL_get_verify_result] returns; [hostname], [su]
    and [salen] are the host, the address and its length of
    [get_config()->downstream_addrs[0]]. *)
Definition check_cert (numeric_host : cstring -> bool) (peer : option X509)
           (verify_res : Z) (hostname : cstring) (su : sockaddr_union)
           (salen : nat) : Z :=
  match peer with
  | None => -1
  | Some cert =>
      if negb (verify_res =? X509_V_OK) then -1
      else
        let '(dns_names, ip_addrs, common_name) :=
          get_altnames cert [] [] [] in
        if negb (verify_hostname numeric_host hostname su salen dns_names
                                 ip_addrs common_name =? 0)
        then -1 else 0
  end.

(** [name] is a DNS name among the subject alternative names of [cert],
    with data and without a NUL in it. *)
Definition dns_name_of (cert : X509) (name : list ascii) : Prop :=
  exists altnames,
    subject_alt_name cert = Some altnames
    /\ In (GEN_DNS (Some name)) altnames /\ ~ In NUL name.

(** [addr] is an IP address among the subject alternative names of
    [cert], with data. *)
Definition ip_addr_of (cert : X509) (addr : list ascii) : Prop :=
  exists altnames,
    subject_alt_name cert = Some altnames
    /\ In (GEN_IPADD (Some addr)) altnames.

(** [name] is the first common name of the subject of [cert] that
    converts to UTF-8 without a NUL in it. *)
Definition common_name_of (cert : X509) (name : list ascii) : Prop :=
  exists before entry after,
    subject_name cert = Some (before ++ entry :: after)
    /\ is_commonName entry = true /\ to_UTF8 entry = Some name
    /\ ~ In NUL name
    /\ forall e out,
        In e before -> is_commonName e = true -> to_UTF8 e = Some out ->
        In NUL out.

(** ** Certificates from files, and the server name *)

(** What [cert_lookup_tree_add_cert_from_file] gets from its file:
    whether [BIO_new] and [BIO_read_filename] succeed, and the certificate
    that [PEM_read_bio_X509] returns, a null pointer being [None]. *)
Record cert_file : Type := mkcert_file {
  BIO_new_ok : bool;
  BIO_read_filename_ok : bool;
  PEM_read_bio_X509 : option X509
}.

(** [cert_lookup_tree_add_cert_from_file(lt, ssl_ctx, certfile)]: the
    returned [int] and the tree afterwards. *)
Definition cert_lookup_tree_add_cert_from_file (lt : CertLookupTree)
           (ctx : option SSL_CTX) (certfile : cert_file)
  : option (Z * CertLookupTree) :=
  if negb (BIO_new_ok certfile) then Some (-1, lt)
  else if negb (BIO_read_filename_ok certfile) then Some (-1, lt)
  else
    match PEM_read_bio_X509 certfile with
    | None => Some (-1, lt)
    | Some cert =>
        let '(dns_names, ip_addrs, common_name) :=
          get_altnames cert [] [] [] in
        match add_certs lt (map (fun dns_name => (dns_name, ctx)) dns_names)
        with
        | Some lt1 =>
            match cert_lookup_tree_add_cert lt1 ctx common_name with
            | Some lt2 => Some (0, lt2)
            | None => None
            end
        | None => None
        end
    end.

(** The loop of [setup_server_ssl_context] over [get_config()->subcerts];
    each sub certificate comes with the context that [create_ssl_context]
    has made for it, which is never null.  [None] where the code calls
    [DIE()]. *)
Fixpoint add_subcerts (cert_tree : CertLookupTree)
         (subcerts : list (SSL_CTX * cert_file)) : option CertLookupTree :=
  match subcerts with
  | [] => Some cert_tree
  | (ssl_ctx, certfile) :: rest =>
      match cert_lookup_tree_add_cert_from_file cert_tree (Some ssl_ctx)
                                                certfile with
      | Some (r, cert_tree') =>
          if r =? -1 then None else add_subcerts cert_tree' rest
      | None => None
      end
  end.

(** [setup_server_ssl_context()]: the returned context and
    [worker_config->cert_tree], which is null before the call.  [ssl_ctx]
    is the context that [create_ssl_context] makes for the default
    certificate [certfile]. *)
Definition setup_server_ssl_context (upstream_no_tls : bool)
           (ssl_ctx : SSL_CTX) (certfile : cert_file)
           (subcerts : list (SSL_CTX * cert_file))
  : option (option SSL_CTX * option CertLookupTree) :=
  if upstream_no_tls then Some (None, None)
  else
    match subcerts with
    | [] => Some (Some ssl_ctx, None)
    | _ :: _ =>
        match add_subcerts cert_lookup_tree_new subcerts with
        | Some cert_tree =>
            match cert_lookup_tree_add_cert_from_file cert_tree (Some ssl_ctx)
                                                      certfile with
            | Some (r, cert_tree') =>
                if r =? -1 then None else Some (Some ssl_ctx, Some cert_tree')
            | None => None
            end
        | None => None
        end
    end.

(** [servername_callback(ssl, al, arg)]: the returned [int] and the
    context of [ssl] afterwards; [servername] is what [SSL_get_servername]
    returns and [current] the context of [ssl] before. *)
Definition servername_callback (cert_tree : option CertLookupTree)
           (servername : option cstring) (current : option SSL_CTX)
  : Z * option SSL_CTX :=
  (SSL_TLSEXT_ERR_OK,
   match cert_tree, servername with
   | Some lt, Some hostname =>
       match cert_lookup_tree_lookup lt hostname with
       | Some c => Some c
       | None => current
       end
   | _, _ => current
   end).

(** The registrations that a certificate makes with the context [ctx]:
    its DNS names, then its common name. *)
Definition cert_registrations (ctx : option SSL_CTX) (cert : X509)
  : list (list ascii * option SSL_CTX) :=
  let '(dns_names, ip_addrs, common_name) := get_altnames cert [] [] [] in
  map (fun dns_name => (dns_name, ctx)) (dns_names ++ [common_name]).

(** [name] is a name that [cert] is registered for. *)
Definition cert_name_of (cert : X509) (name : list ascii) : Prop :=
  dns_name_of cert name \/ common_name_of cert name.

(** The registrations that [setup_server_ssl_context] makes: those of the
    sub certificates in their order, then those of the default
    certificate. *)
Definition setup_registrations (ssl_ctx : SSL_CTX) (certfile : cert_file)
           (subcerts : list (SSL_CTX * cert_file))
  : list (list ascii * option SSL_CTX) :=
  flat_map (fun keycert =>
              match PEM_read_bio_X509 (snd keycert) with
              | Some cert => cert_registrations (Some (fst keycert)) cert
              | None => []
              end)
           (subcerts ++ [(ssl_ctx, certfile)]).

(** ** Notions for the wildcard patterns *)

Unset Elimination Schemes.
(** No node below the given one holds a wildcard among its characters. *)
Inductive star_free_edges : CertNode -> Prop :=
| star_free_edges_node node :
    Forall (fun cn => forall t, last cn < t <= first cn ->
                                char_at (str cn) t <> STAR) (next node) ->
    Forall star_free_edges (next node) ->
    star_free_edges node.
Set Elimination Schemes.

(** [wild_query h k o query j]: [query] from offset [j] down holds, up to
    case, the characters of the pattern copy [h] from offset [o] down to
    its wildcard at [k], the wildcard apart, and more below them. *)
Definition wild_query (h : list ascii) (k o : Z) (query : list ascii) (j : Z)
  : Prop :=
  0 <= j - (o - k)
  /\ forall t, 0 <= t < o - k ->
               util.lowcase (char_at query (j - t)) = char_at h (o - t).

(** * Properties *)

(** ** Case folding *)

Lemma lowcase_idem c : util.lowcase (util.lowcase c) = util.lowcase c.
Proof. destruct c as [[] [] [] [] [] [] [] []]; reflexivity. Qed.

Lemma lowcase_is_STAR c : util.lowcase c = STAR <-> c = STAR.
Proof. destruct c as [[] [] [] [] [] [] [] []]; split; intro E; (reflexivity || discriminate E). Qed.

Lemma lowcase_is_DOT c : util.lowcase c = DOT <-> c = DOT.
Proof. destruct c as [[] [] [] [] [] [] [] []]; split; intro E; (reflexivity || discriminate E). Qed.

Lemma lowcase_is_NUL c : util.lowcase c = NUL <-> c = NUL.
Proof. destruct c as [[] [] [] [] [] [] [] []]; split; intro E; (reflexivity || discriminate E). Qed.

Lemma lowcase_NUL : util.lowcase NUL = NUL.
Proof. reflexivity. Qed.

Lemma case_equal_lowcase h : case_equal (map util.lowcase h) h.
Proof.
  unfold case_equal. rewrite map_map. apply map_ext. intro; apply lowcase_idem.
Qed.

Lemma strieq_case_equal a b : util.strieq a b = true <-> case_equal a b.
Proof.
  unfold case_equal. revert b. induction a as [|x a IH]; intros [|y b]; simpl;
    try (split; intro E; (reflexivity || discriminate E)).
  unfold util.CaseCmp. rewrite andb_true_iff, Ascii.eqb_eq, IH. split.
  - intros [-> ->]. reflexivity.
  - intro E. injection E as E1 E2. auto.
Qed.

Lemma strieq_lowcase_r a b : util.strieq a (map util.lowcase b) = util.strieq a b.
Proof.
  revert b. induction a as [|x a IH]; intros [|y b]; simpl; try reflexivity.
  unfold util.CaseCmp. rewrite lowcase_idem, IH. reflexivity.
Qed.

Lemma strieq_refl a : util.strieq a a = true.
Proof. apply strieq_case_equal. reflexivity. Qed.

Lemma equal_CaseCmp_lowcase_r a b :
  util.equal_CaseCmp a (map util.lowcase b) = util.equal_CaseCmp a b.
Proof.
  revert b. induction a as [|x a IH]; intros [|y b]; simpl; try reflexivity.
  unfold util.CaseCmp. rewrite lowcase_idem, IH. reflexivity.
Qed.

Lemma strchr_lowcase_DOT h : strchr (map util.lowcase h) DOT = strchr h DOT.
Proof.
  induction h as [|x h IH]; simpl; [reflexivity|]. rewrite IH.
  destruct (Ascii.eqb x DOT) eqn:E.
  - apply Ascii.eqb_eq in E. subst x. reflexivity.
  - destruct (Ascii.eqb (util.lowcase x) DOT) eqn:E'; [|reflexivity].
    apply Ascii.eqb_eq in E'. apply (proj1 (lowcase_is_DOT x)) in E'. subst x.
    rewrite Ascii.eqb_refl in E. discriminate E.
Qed.

Lemma c_str_lowcase h : c_str (map util.lowcase h) = map util.lowcase (c_str h).
Proof.
  induction h as [|x h IH]; simpl; [reflexivity|].
  destruct (Ascii.eqb x NUL) eqn:E.
  - apply Ascii.eqb_eq in E. subst x. reflexivity.
  - destruct (Ascii.eqb (util.lowcase x) NUL) eqn:E'.
    + apply Ascii.eqb_eq in E'. apply (proj1 (lowcase_is_NUL x)) in E'. subst x.
      rewrite Ascii.eqb_refl in E. discriminate E.
    + simpl. rewrite IH. reflexivity.
Qed.

(** The matcher reads its second argument only up to case. *)
Lemma tls_hostname_match_lowcase pattern hostname :
  tls_hostname_match pattern (map util.lowcase hostname)
  = tls_hostname_match pattern hostname.
Proof.
  unfold tls_hostname_match.
  rewrite strieq_lowcase_r, strchr_lowcase_DOT.
  destruct (strchr pattern STAR) as [w|]; [|reflexivity].
  destruct (strchr pattern DOT) as [l|]; [|reflexivity].
  destruct (strchr hostname DOT) as [hl|]; [|reflexivity].
  rewrite skipn_map, strieq_lowcase_r, firstn_map.
  unfold util.istartsWith_range, util.iendsWith_range.
  rewrite !length_map, skipn_map, !equal_CaseCmp_lowcase_r.
  reflexivity.
Qed.

Lemma tls_hostname_match_case_equal pattern h1 h2 :
  case_equal h1 h2 ->
  tls_hostname_match pattern h1 = tls_hostname_match pattern h2.
Proof.
  intro E. rewrite <- (tls_hostname_match_lowcase pattern h1),
             <- (tls_hostname_match_lowcase pattern h2).
  unfold case_equal in E. rewrite E. reflexivity.
Qed.

(** ** [strchr] *)

Lemma strchr_app_first x c rest :
  ~ In c x -> strchr (x ++ c :: rest) c = Some (length x).
Proof.
  induction x as [|y x IH]; simpl; intro N.
  - rewrite Ascii.eqb_refl. reflexivity.
  - destruct (Ascii.eqb y c) eqn:E.
    + apply Ascii.eqb_eq in E. exfalso. apply N. left. exact E.
    + rewrite IH by (intro; apply N; right; assumption). reflexivity.
Qed.

Lemma strchr_Some str0 c k :
  strchr str0 c = Some k ->
  ~ In c (firstn k str0) /\ skipn k str0 = c :: skipn (S k) str0
  /\ length (firstn k str0) = k.
Proof.
  revert k. induction str0 as [|y l IH]; simpl; intros k E; [discriminate E|].
  destruct (Ascii.eqb y c) eqn:Eyc.
  - injection E as <-. apply Ascii.eqb_eq in Eyc. subst y. simpl. auto.
  - destruct (strchr l c) as [k'|]; [|discriminate E]. injection E as <-.
    destruct (IH k' eq_refl) as (N & S1 & L). simpl. repeat split.
    + intros [Y|I]; [subst y; rewrite Ascii.eqb_refl in Eyc; discriminate Eyc|].
      exact (N I).
    + exact S1.
    + f_equal. exact L.
Qed.

Lemma strchr_None str0 c : strchr str0 c = None <-> ~ In c str0.
Proof.
  induction str0 as [|y l IH]; simpl.
  - split; [intros _ []|reflexivity].
  - destruct (Ascii.eqb y c) eqn:E.
    + apply Ascii.eqb_eq in E. split; [discriminate|]. intro N. exfalso. auto.
    + destruct (strchr l c); split.
      * discriminate.
      * intro N. exfalso. apply (proj1 (not_iff_compat IH)); [discriminate|].
        intro I. apply N. right. exact I.
      * intros _ [Y|I]; [subst y; rewrite Ascii.eqb_refl in E; discriminate E|].
        exact (proj1 IH eq_refl I).
      * reflexivity.
Qed.

Lemma case_equal_length a b : case_equal a b -> length a = length b.
Proof.
  unfold case_equal. intro E. apply (f_equal (@length _)) in E.
  rewrite !length_map in E. exact E.
Qed.

Lemma lowcase_preserves_no_DOT x : ~ In DOT x -> ~ In DOT (map util.lowcase x).
Proof.
  intros N I. apply in_map_iff in I. destruct I as (y & E & I).
  apply (proj1 (lowcase_is_DOT y)) in E. subst y. exact (N I).
Qed.

(** ** The hostname matcher on a pattern with a lone wildcard label *)

Section WildcardLabel.

Variables d e : cstring.

(** With the pattern [*.d.e] the matcher tests the part of the hostname
    from its first dot on against [.d.e] and requires a non-empty left-most
    label. *)
Lemma star_pattern_match hostname :
  tls_hostname_match (star_pattern d e) hostname
  = match strchr hostname DOT with
    | Some hnl => util.strieq (dot_suffix d e) (skipn hnl hostname) && (1 <=? hnl)%nat
    | None => false
    end.
Proof.
  unfold tls_hostname_match, star_pattern, dot_suffix. cbn [strchr].
  change (Ascii.eqb STAR STAR) with true. change (Ascii.eqb STAR DOT) with false.
  change (Ascii.eqb DOT DOT) with true. cbv iota.
  change (skipn (1 + 1) (STAR :: DOT :: d ++ DOT :: e)) with (d ++ DOT :: e).
  destruct (strchr (d ++ DOT :: e) DOT) eqn:Ed.
  2:{ apply strchr_None in Ed. exfalso. apply Ed. apply in_or_app. right. left.
      reflexivity. }
  cbn [is_null orb Nat.ltb Nat.leb negb].
  change (util.istartsWith (STAR :: DOT :: d ++ DOT :: e) (s "xn--")) with false.
  cbv iota.
  destruct (strchr hostname DOT) as [hnl|]; [|reflexivity].
  change (skipn 1 (STAR :: DOT :: d ++ DOT :: e)) with (DOT :: d ++ DOT :: e).
  destruct (util.strieq (DOT :: d ++ DOT :: e) (skipn hnl hostname));
    cbn [negb andb]; [|reflexivity].
  destruct hnl as [|hnl]; [reflexivity|].
  cbn [Nat.ltb Nat.leb]. cbv iota.
  unfold util.istartsWith_range, util.iendsWith_range. cbn [firstn skipn length].
  reflexivity.
Qed.

Lemma star_pattern_match_label x :
  x <> [] -> ~ In DOT x ->
  tls_hostname_match (star_pattern d e) (x ++ (dot_suffix d e)) = true.
Proof.
  intros NE ND. rewrite star_pattern_match. unfold dot_suffix at 1.
  rewrite (strchr_app_first x DOT _ ND).
  rewrite skipn_app, skipn_all, Nat.sub_diag. cbn [app skipn].
  rewrite strieq_refl. destruct x; [contradiction|reflexivity].
Qed.

Lemma star_pattern_match_inv hostname :
  tls_hostname_match (star_pattern d e) hostname = true ->
  exists x, x <> [] /\ ~ In DOT x /\ case_equal (x ++ (dot_suffix d e)) hostname.
Proof.
  rewrite star_pattern_match.
  destruct (strchr hostname DOT) as [hnl|] eqn:Eh; [|discriminate].
  intro M. apply andb_true_iff in M. destruct M as [M L].
  apply Nat.leb_le in L. apply strieq_case_equal in M.
  destruct (strchr_Some _ _ _ Eh) as (N & _ & Len).
  exists (firstn hnl hostname). repeat split.
  - intro E. rewrite E in Len. simpl in Len. lia.
  - exact N.
  - unfold case_equal in *. rewrite map_app, M, <- map_app, firstn_skipn.
    reflexivity.
Qed.

End WildcardLabel.

(** C5, as the code behaves.  For a pattern [*.d.e] the matcher accepts a
    hostname exactly when the hostname equals [x.d.e] up to ASCII case, which
    is how the matcher compares, with a left-most label [x] that is
    non-empty and holds no dot.  In particular every [x.d.e] with such an
    [x] is accepted, [d.e] is rejected, and [z.d.e] is rejected when [z]
    holds a dot.  On case-folded names the equality is literal. *)
Theorem C5_wildcard_label_match (d e : cstring) :
  (forall hostname,
      tls_hostname_match (star_pattern d e) hostname = true
      <-> exists x, x <> [] /\ ~ In DOT x
                    /\ case_equal (x ++ dot_suffix d e) hostname)
  /\ (forall x, x <> [] -> ~ In DOT x ->
                tls_hostname_match (star_pattern d e) (x ++ dot_suffix d e) = true)
  /\ tls_hostname_match (star_pattern d e) (d ++ DOT :: e) = false
  /\ (forall z, In DOT z ->
                tls_hostname_match (star_pattern d e) (z ++ dot_suffix d e) = false)
  /\ (forall hostname,
         map util.lowcase hostname = hostname ->
         map util.lowcase (dot_suffix d e) = dot_suffix d e ->
         (tls_hostname_match (star_pattern d e) hostname = true
          <-> exists x, x <> [] /\ ~ In DOT x /\ hostname = x ++ dot_suffix d e)).
Proof.
  assert (Iff : forall hostname,
      tls_hostname_match (star_pattern d e) hostname = true
      <-> exists x, x <> [] /\ ~ In DOT x
                    /\ case_equal (x ++ dot_suffix d e) hostname).
  { intro hostname. split; [apply star_pattern_match_inv|].
    intros (x & NE & ND & CE).
    rewrite <- (tls_hostname_match_case_equal (star_pattern d e) _ _ CE).
    apply star_pattern_match_label; assumption. }
  split; [exact Iff|]. split; [intros; apply star_pattern_match_label; assumption|].
  split; [|split].
  - apply not_true_is_false. intro M. apply Iff in M.
    destruct M as (x & NE & _ & CE). apply case_equal_length in CE.
    unfold dot_suffix in CE. rewrite length_app in CE. simpl in CE. lia.
  - intros z Iz. apply not_true_is_false. intro M. apply Iff in M.
    destruct M as (x & _ & ND & CE). unfold case_equal in CE.
    rewrite !map_app in CE.
    apply app_inv_tail in CE.
    apply (lowcase_preserves_no_DOT _ ND). rewrite CE.
    apply in_map_iff. exists DOT. split; [reflexivity|exact Iz].
  - intros hostname Lh Ls. rewrite Iff. split.
    + intros (x & NE & ND & CE). exists (map util.lowcase x). repeat split.
      * destruct x; [contradiction|discriminate].
      * apply lowcase_preserves_no_DOT. exact ND.
      * unfold case_equal in CE. rewrite map_app, Ls, Lh in CE. auto.
    + intros (x & NE & ND & ->). exists x. repeat split; auto.
Qed.

(** C5 as stated fails with literal equality: [www.EXAMPLE.com] is accepted
    for [*.example.com] although no [x] makes it [x.example.com] byte for
    byte. *)
Lemma C5_case_variant_accepted :
  ~ (tls_hostname_match (star_pattern (s "example") (s "com"))
                        (s "www.EXAMPLE.com") = true
     <-> exists x, x <> [] /\ ~ In DOT x
                   /\ s "www.EXAMPLE.com"
                      = x ++ dot_suffix (s "example") (s "com")).
Proof.
  intros [H _]. destruct (H eq_refl) as (x & _ & _ & E).
  assert (L : length x = 3%nat).
  { apply (f_equal (@length ascii)) in E. rewrite length_app in E.
    simpl in E. lia. }
  destruct x as [|a [|b [|c [|x0 x]]]]; try discriminate L.
  discriminate E.
Qed.

(** C6.  A pattern that begins with [xn--], in any case, and holds a [*]
    is matched without wildcard: the matcher returns what the
    case-insensitive comparison of pattern and hostname returns. *)
Theorem C6_idn_pattern_literal (pattern hostname : cstring) :
  util.istartsWith pattern (s "xn--") = true ->
  In STAR pattern ->
  tls_hostname_match pattern hostname = util.strieq pattern hostname
  /\ (tls_hostname_match pattern hostname = true <-> case_equal pattern hostname).
Proof.
  intros X _.
  assert (E : tls_hostname_match pattern hostname = util.strieq pattern hostname).
  { unfold tls_hostname_match.
    destruct (strchr pattern STAR) as [w|]; [|reflexivity].
    destruct (strchr pattern DOT) as [l|]; [|reflexivity].
    rewrite X, orb_true_r. reflexivity. }
  split; [exact E|]. rewrite E. apply strieq_case_equal.
Qed.

Lemma C6_idn_pattern_literal_witness :
  tls_hostname_match (s "xn--*.example.com") (s "xn--a.example.com")
  = util.strieq (s "xn--*.example.com") (s "xn--a.example.com")
  /\ (tls_hostname_match (s "xn--*.example.com") (s "xn--a.example.com") = true
      <-> case_equal (s "xn--*.example.com") (s "xn--a.example.com")).
Proof.
  apply (C6_idn_pattern_literal (s "xn--*.example.com") (s "xn--a.example.com")).
  - reflexivity.
  - simpl. tauto.
Defined.

(** ** The session-ticket key callback *)

Lemma ticket_key_search_primary key0 rest key_name n i :
  ticket_key_search (key0 :: rest) key_name n i
  = if memcmp_eq 16 (name key0) key_name
    then i else (i + n)%nat.
Proof.
  revert i. induction n as [|n IH]; intro i; cbn [ticket_key_search nth_error].
  - destruct (memcmp_eq 16 (name key0) key_name); [reflexivity|lia].
  - destruct (memcmp_eq 16 (name key0) key_name) eqn:E; [reflexivity|].
    rewrite IH. lia.
Qed.

(** The decrypt branch only ever compares the presented name with the name
    of the primary key. *)
Lemma ticket_key_cb_decrypt key0 rest rand key_name iv :
  ticket_key_cb (Some (key0 :: rest)) rand key_name iv false
  = if memcmp_eq 16 (name key0) key_name
    then Some (1, DecryptInit key0 iv)
    else Some (0, NoInit).
Proof.
  unfold ticket_key_cb. rewrite ticket_key_search_primary.
  destruct (memcmp_eq 16 (name key0) key_name).
  - reflexivity.
  - cbn [length Nat.add]. rewrite Nat.eqb_refl. reflexivity.
Qed.

(** C2, where the code departs from it.  With a ring of two keys and the
    name of the second, non-primary key presented, the decrypt branch
    reports a miss (0, nothing initialised) although [keys[1]] has that very
    name; C2 asks for 2 with [keys[1]] initialised.  On no ring does the
    decrypt branch return 2. *)
Theorem C2_ticket_decrypt_misses_older_key :
  ticket_key_cb (Some [primary_key; older_key]) None (name older_key)
                (bytes16 Byte.x00) false
  = Some (0, NoInit)
  /\ memcmp_eq 16 (name older_key) (name older_key) = true
  /\ (forall keys rand key_name iv r init,
         ticket_key_cb (Some keys) rand key_name iv false = Some (r, init) ->
         r <> 2).
Proof.
  split; [reflexivity|]. split; [reflexivity|].
  intros [|key0 rest] rand key_name iv r init E; [discriminate E|].
  rewrite ticket_key_cb_decrypt in E.
  destruct (memcmp_eq 16 (name key0) key_name); injection E as <- _; lia.
Qed.

(** ** Registrations and lookups on small trees *)

(** C3.  With [*.example.com] registered alone with context [W]:
    [a.example.com] finds [W]; [a.b.example.com] and [example.com] find
    nothing, and neither does the bare suffix [.example.com], which ends at
    the node that holds only the wildcard. *)
Theorem C3_wildcard_only_tree (W : SSL_CTX) :
  exists lt,
    add_certs cert_lookup_tree_new [(s "*.example.com", Some W)] = Some lt
    /\ cert_lookup_tree_lookup lt (s "a.example.com") = Some W
    /\ cert_lookup_tree_lookup lt (s "a.b.example.com") = None
    /\ cert_lookup_tree_lookup lt (s "example.com") = None
    /\ cert_lookup_tree_lookup lt (s ".example.com") = None.
Proof.
  eexists. split; [vm_compute; reflexivity|].
  repeat split; vm_compute; reflexivity.
Qed.

(** C1, as the code behaves.  With [*.example.com] registered with [W] and
    then [www.example.com] with [A], both [www.example.com] and
    [mail.example.com] find [W]: the wildcard list of the node for
    [.example.com] is consulted before the lookup descends to the node of
    the exact name. *)
Theorem C1_wildcard_consulted_before_descent (W A : SSL_CTX) :
  exists lt,
    add_certs cert_lookup_tree_new
              [(s "*.example.com", Some W); (s "www.example.com", Some A)]
    = Some lt
    /\ cert_lookup_tree_lookup lt (s "www.example.com") = Some W
    /\ cert_lookup_tree_lookup lt (s "mail.example.com") = Some W.
Proof.
  eexists. split; [vm_compute; reflexivity|].
  split; vm_compute; reflexivity.
Qed.

(** C1 as stated fails: with [W = 1] and [A = 2] the lookup of
    [www.example.com] does not return [A]. *)
Lemma C1_exact_does_not_preempt :
  ~ (exists lt,
        add_certs cert_lookup_tree_new
                  [(s "*.example.com", Some 1%nat); (s "www.example.com", Some 2%nat)]
        = Some lt
        /\ cert_lookup_tree_lookup lt (s "www.example.com") = Some 2%nat
        /\ cert_lookup_tree_lookup lt (s "mail.example.com") = Some 1%nat).
Proof.
  intros (lt & E & L & _). vm_compute in E. injection E as <-.
  vm_compute in L. discriminate L.
Qed.

(** C9.  Inserting the empty hostname returns at once: the tree, its
    [hosts] included, is the one passed in. *)
Theorem C9_empty_hostname_no_effect (lt : CertLookupTree) (ctx : option SSL_CTX) :
  cert_lookup_tree_add_cert lt ctx [] = Some lt.
Proof. reflexivity. Qed.

(** ** Reading buffers *)

Lemma char_at_lowcase h j :
  util.lowcase (char_at h j) = char_at (map util.lowcase h) j.
Proof.
  unfold char_at. destruct (j <? 0); [reflexivity|].
  rewrite <- lowcase_NUL at 2. rewrite map_nth. reflexivity.
Qed.

Lemma char_at_case_equal h1 h2 j :
  case_equal h1 h2 ->
  util.lowcase (char_at h1 j) = util.lowcase (char_at h2 j).
Proof. intro E. rewrite !char_at_lowcase, E. reflexivity. Qed.

(** ** The children of a node *)

Lemma find_next_found nodes c cn :
  nth_error nodes (find_next nodes c) = Some cn ->
  first_char cn = c /\ In cn nodes.
Proof.
  induction nodes as [|x rest IH]; simpl; [discriminate|].
  destruct (Ascii.eqb (first_char x) c) eqn:E; simpl.
  - intro F. injection F as <-. apply Ascii.eqb_eq in E. auto.
  - intro F. destruct (IH F). auto.
Qed.

Lemma find_next_none nodes c :
  nth_error nodes (find_next nodes c) = None ->
  ~ In c (map first_char nodes).
Proof.
  induction nodes as [|x rest IH]; simpl; [auto|].
  destruct (Ascii.eqb (first_char x) c) eqn:E; simpl; [discriminate|].
  intros F [Y|I]; [|exact (IH F I)].
  rewrite Y, Ascii.eqb_refl in E. discriminate E.
Qed.

Lemma find_next_bound nodes c : (find_next nodes c <= length nodes)%nat.
Proof.
  induction nodes as [|x rest IH]; simpl; [lia|].
  destruct (Ascii.eqb (first_char x) c); simpl; lia.
Qed.

(** ** One activation of the lookup *)

Lemma cert_lookup_tree_lookup_node_eq node hostname offset :
  cert_lookup_tree_lookup_node node hostname offset
  = match cert_lookup_tree_lookup_body node hostname offset with
    | Return r => r
    | Descend next_node j => cert_lookup_tree_lookup_node next_node hostname j
    end.
Proof.
  destruct node as [ctx nstr nfirst nlast certs nodes].
  unfold cert_lookup_tree_lookup_body.
  cbn [cert_lookup_tree_lookup_node str last first ssl_ctx wildcard_certs next].
  destruct (walk util.lowcase (loop_fuel offset) nstr hostname nlast nfirst offset)
    as [i j].
  destruct (negb (i =? nlast)); [reflexivity|].
  destruct (j =? -1); [reflexivity|].
  destruct (match_wildcard_certs certs hostname); [reflexivity|].
  induction nodes as [|x rest IH]; [reflexivity|].
  cbn [find_next]. destruct (Ascii.eqb (first_char x) _); [reflexivity|].
  cbn [nth_error]. exact IH.
Qed.

Lemma cert_lookup_tree_lookup_body_descend node hostname offset next_node j :
  cert_lookup_tree_lookup_body node hostname offset = Descend next_node j ->
  walk util.lowcase (loop_fuel offset) (str node) hostname (last node)
       (first node) offset = (last node, j)
  /\ j <> -1
  /\ In next_node (next node)
  /\ first_char next_node = util.lowcase (char_at hostname j).
Proof.
  unfold cert_lookup_tree_lookup_body.
  destruct (walk util.lowcase (loop_fuel offset) (str node) hostname (last node)
                 (first node) offset) as [i j'].
  destruct (i =? last node) eqn:Ei; cbn [negb]; [|discriminate].
  destruct (j' =? -1) eqn:Ej; [discriminate|].
  destruct (match_wildcard_certs (wildcard_certs node) hostname); [discriminate|].
  destruct (nth_error (next node) _) as [cn|] eqn:F; [|discriminate].
  intro E. injection E as <- <-. apply Z.eqb_eq in Ei. apply Z.eqb_neq in Ej.
  destruct (find_next_found _ _ _ F). subst i. auto.
Qed.

(** ** Lookup reads the hostname up to case *)

Lemma walk_lowcase_case_equal h1 h2 fuel nstr nlast i j :
  case_equal h1 h2 ->
  walk util.lowcase fuel nstr h1 nlast i j
  = walk util.lowcase fuel nstr h2 nlast i j.
Proof.
  intro E. revert i j. induction fuel as [|fuel IH]; intros i j; simpl;
    [reflexivity|].
  rewrite (char_at_case_equal h1 h2 j E), IH. reflexivity.
Qed.

Lemma c_str_case_equal h1 h2 :
  case_equal h1 h2 -> case_equal (c_str h1) (c_str h2).
Proof.
  unfold case_equal. intro E. rewrite <- !c_str_lowcase, E. reflexivity.
Qed.

Lemma match_wildcard_certs_case_equal certs h1 h2 :
  case_equal h1 h2 ->
  match_wildcard_certs certs h1 = match_wildcard_certs certs h2.
Proof.
  intro E. induction certs as [|w rest IH]; simpl; [reflexivity|].
  rewrite (tls_hostname_match_case_equal _ _ _ (c_str_case_equal _ _ E)), IH.
  reflexivity.
Qed.

Lemma cert_lookup_tree_lookup_body_case_equal node h1 h2 offset :
  case_equal h1 h2 ->
  cert_lookup_tree_lookup_body node h1 offset
  = cert_lookup_tree_lookup_body node h2 offset.
Proof.
  intro E. unfold cert_lookup_tree_lookup_body.
  rewrite (walk_lowcase_case_equal h1 h2 _ _ _ _ _ E).
  destruct (walk util.lowcase _ _ h2 _ _ _) as [i j].
  rewrite (match_wildcard_certs_case_equal _ _ _ E),
    (char_at_case_equal _ _ j E).
  reflexivity.
Qed.

Lemma cert_lookup_tree_lookup_node_case_equal node h1 h2 :
  case_equal h1 h2 ->
  forall offset,
    cert_lookup_tree_lookup_node node h1 offset
    = cert_lookup_tree_lookup_node node h2 offset.
Proof.
  intro E. induction node as [ctx nstr nfirst nlast certs nodes IH]
    using CertNode_ind.
  intro offset. rewrite !cert_lookup_tree_lookup_node_eq.
  rewrite (cert_lookup_tree_lookup_body_case_equal _ _ _ offset E).
  destruct (cert_lookup_tree_lookup_body _ h2 offset) as [r|cn j] eqn:B;
    [reflexivity|].
  apply cert_lookup_tree_lookup_body_descend in B.
  destruct B as (_ & _ & I & _). cbn [next] in I.
  rewrite Forall_forall in IH. apply IH. exact I.
Qed.

(** C7.  Two hostnames that are equal up to ASCII case are looked up with
    the same result in every tree, and registering either leaves the same
    tree: insertion stores the case-folded name, lookup folds the
    characters it reads. *)
Theorem C7_lookup_case_insensitive (lt : CertLookupTree) (h1 h2 : list ascii) :
  case_equal h1 h2 ->
  cert_lookup_tree_lookup lt h1 = cert_lookup_tree_lookup lt h2
  /\ forall ctx, cert_lookup_tree_add_cert lt ctx h1
                 = cert_lookup_tree_add_cert lt ctx h2.
Proof.
  intro E. pose proof (case_equal_length _ _ E) as L. split.
  - unfold cert_lookup_tree_lookup. rewrite L.
    apply cert_lookup_tree_lookup_node_case_equal. exact E.
  - intro ctx. unfold cert_lookup_tree_add_cert. rewrite L, E. reflexivity.
Qed.

Lemma C7_lookup_case_insensitive_witness :
  cert_lookup_tree_lookup example_tree (s "EXAMPLE.com")
  = cert_lookup_tree_lookup example_tree (s "example.COM")
  /\ forall ctx, cert_lookup_tree_add_cert example_tree ctx (s "EXAMPLE.com")
                 = cert_lookup_tree_add_cert example_tree ctx (s "example.COM").
Proof.
  apply (C7_lookup_case_insensitive example_tree (s "EXAMPLE.com")
                                    (s "example.COM")).
  reflexivity.
Defined.

(** ** The two scanning loops *)

(** What [walk] returns after [k] rounds: every round compared equal
    characters at indices above [nlast] and at hostname offsets from zero
    up, and the loop condition fails where it stopped. *)
Lemma walk_spec conv nstr hostname nlast fuel :
  forall i0 j0 i j,
    (Z.to_nat (j0 + 1) <= fuel)%nat ->
    walk conv fuel nstr hostname nlast i0 j0 = (i, j) ->
    exists k,
      0 <= k /\ i = i0 - k /\ j = j0 - k
      /\ (forall t, 0 <= t < k ->
                    i0 - t > nlast /\ j0 - t >= 0
                    /\ char_at nstr (i0 - t) = conv (char_at hostname (j0 - t)))
      /\ ~ (i > nlast /\ j >= 0 /\ char_at nstr i = conv (char_at hostname j)).
Proof.
  induction fuel as [|fuel IH]; intros i0 j0 i j F W; simpl in W.
  - injection W as <- <-. exists 0. repeat split; try lia.
  - destruct ((i0 >? nlast) && (j0 >=? 0)
              && Ascii.eqb (char_at nstr i0) (conv (char_at hostname j0))) eqn:C.
    + apply andb_true_iff in C. destruct C as [C C3].
      apply andb_true_iff in C. destruct C as [C1 C2].
      apply Ascii.eqb_eq in C3.
      assert (F' : (Z.to_nat (j0 - 1 + 1) <= fuel)%nat) by lia.
      destruct (IH _ _ _ _ F' W) as (k & K0 & Ei & Ej & M & S).
      exists (k + 1). repeat split; try lia.
      * destruct (Z.eq_dec t 0) as [->|T]; [lia|].
        destruct (M (t - 1)) as (M1 & _); [lia|]. lia.
      * destruct (Z.eq_dec t 0) as [->|T]; [lia|].
        destruct (M (t - 1)) as (_ & M2 & _); [lia|]. lia.
      * destruct (Z.eq_dec t 0) as [->|T]; [rewrite !Z.sub_0_r; exact C3|].
        destruct (M (t - 1)) as (_ & _ & M3); [lia|].
        replace (i0 - t) with (i0 - 1 - (t - 1)) by lia.
        replace (j0 - t) with (j0 - 1 - (t - 1)) by lia. exact M3.
      * exact S.
    + injection W as <- <-. exists 0. repeat split; try lia.
      intros (S1 & S2 & S3).
      rewrite S3, Ascii.eqb_refl, andb_true_r in C.
      apply andb_false_iff in C. destruct C as [C|C]; lia.
Qed.

Lemma loop_fuel_enough offset : (Z.to_nat (offset + 1) <= loop_fuel offset)%nat.
Proof. unfold loop_fuel. lia. Qed.

(** The walk never leaves the node and never passes the start of the
    hostname. *)
Lemma walk_bounds conv nstr hostname nlast i0 j0 i j :
  walk conv (loop_fuel j0) nstr hostname nlast i0 j0 = (i, j) ->
  nlast <= i0 -> -1 <= j0 ->
  nlast <= i <= i0 /\ -1 <= j <= j0 /\ i0 - i = j0 - j.
Proof.
  intros W Li Lj.
  destruct (walk_spec conv nstr hostname nlast _ _ _ _ _ (loop_fuel_enough j0) W)
    as (k & K0 & -> & -> & M & _).
  destruct (Z.eq_dec k 0) as [->|K]; [lia|].
  destruct (M (k - 1)) as (M1 & M2 & _); lia.
Qed.

(** It advances when the first comparison succeeds. *)
Lemma walk_progress conv nstr hostname nlast i0 j0 i j :
  walk conv (loop_fuel j0) nstr hostname nlast i0 j0 = (i, j) ->
  nlast < i0 -> 0 <= j0 ->
  char_at nstr i0 = conv (char_at hostname j0) ->
  i < i0 /\ j < j0.
Proof.
  intros W Li Lj C.
  destruct (walk_spec conv nstr hostname nlast _ _ _ _ _ (loop_fuel_enough j0) W)
    as (k & K0 & -> & -> & _ & S).
  destruct (Z.eq_dec k 0) as [->|K]; [|lia].
  exfalso. apply S. rewrite !Z.sub_0_r. repeat split; try lia. exact C.
Qed.

(** Over equal characters the walk runs to the end of the node or of the
    hostname. *)
Lemma walk_all_equal conv nstr hostname nlast o :
  -1 <= nlast <= o ->
  (forall t, nlast < t <= o -> char_at nstr t = conv (char_at hostname t)) ->
  walk conv (loop_fuel o) nstr hostname nlast o o = (nlast, nlast).
Proof.
  intros B E.
  destruct (walk conv (loop_fuel o) nstr hostname nlast o o) as [i j] eqn:W.
  destruct (walk_bounds _ _ _ _ _ _ _ _ W) as (Bi & Bj & D); try lia.
  destruct (walk_spec conv nstr hostname nlast _ _ _ _ _ (loop_fuel_enough o) W)
    as (k & K0 & Ei & Ej & _ & S).
  assert (Eij : j = i) by lia.
  assert (Ein : i = nlast).
  { destruct (Z.eq_dec i nlast) as [|N]; [assumption|].
    exfalso. apply S. rewrite Eij. repeat split; try lia. apply E. lia. }
  f_equal; lia.
Qed.

(** What [scan_wildcard] returns: the index of the nearest [*] at or below
    the start, or -1. *)
Lemma scan_wildcard_spec hostname fuel :
  forall j0 k,
    (Z.to_nat (j0 + 1) <= fuel)%nat ->
    scan_wildcard fuel hostname j0 = k ->
    k <= j0
    /\ (-1 <= j0 -> -1 <= k)
    /\ (forall t, k < t <= j0 -> char_at hostname t <> STAR)
    /\ (0 <= k -> char_at hostname k = STAR).
Proof.
  induction fuel as [|fuel IH]; intros j0 k F S; simpl in S.
  - subst k. repeat split; lia.
  - destruct ((j0 >=? 0) && negb (Ascii.eqb (char_at hostname j0) STAR)) eqn:C.
    + apply andb_true_iff in C. destruct C as [C1 C2].
      apply negb_true_iff, Ascii.eqb_neq in C2.
      assert (F' : (Z.to_nat (j0 - 1 + 1) <= fuel)%nat) by lia.
      destruct (IH _ _ F' S) as (K1 & K2 & K3 & K4).
      repeat split; try lia; [|exact K4].
      intros t T. destruct (Z.eq_dec t j0) as [->|N]; [exact C2|].
      apply K3. lia.
    + subst k. repeat split; try lia.
      intro P. apply andb_false_iff in C. destruct C as [C|C]; [lia|].
      apply negb_false_iff, Ascii.eqb_eq in C. exact C.
Qed.

Lemma scan_wildcard_progress hostname o :
  0 <= o -> char_at hostname o <> STAR ->
  -1 <= scan_wildcard (loop_fuel o) hostname o < o.
Proof.
  intros O C.
  destruct (scan_wildcard_spec hostname _ o _ (loop_fuel_enough o) eq_refl)
    as (K1 & K2 & _ & K4).
  split; [apply K2; lia|].
  destruct (Z.eq_dec (scan_wildcard (loop_fuel o) hostname o) o) as [E|N]; [|lia].
  exfalso. apply C. rewrite <- E at 1. apply K4. lia.
Qed.

(** ** Updating a child in place *)

Lemma set_next_map {B} (f : CertNode -> B) nodes i cn cn' :
  nth_error nodes i = Some cn -> f cn' = f cn ->
  map f (set_next nodes i cn') = map f nodes.
Proof.
  revert i. induction nodes as [|x rest IH]; intros [|i] F E; simpl in *;
    try discriminate.
  - injection F as ->. rewrite E. reflexivity.
  - rewrite (IH i F E). reflexivity.
Qed.

Lemma set_next_Forall (P : CertNode -> Prop) nodes i cn' :
  Forall P nodes -> P cn' -> Forall P (set_next nodes i cn').
Proof.
  intros F Pc. revert i. induction F as [|x rest Px F IH]; intros [|i]; simpl;
    constructor; auto.
Qed.

Lemma set_next_nth nodes i cn cn' :
  nth_error nodes i = Some cn -> nth_error (set_next nodes i cn') i = Some cn'.
Proof.
  revert i. induction nodes as [|x rest IH]; intros [|i] F; simpl in *;
    try discriminate; auto.
Qed.

(** ** Children begin with distinct characters *)

Lemma distinct_edges_inv node :
  distinct_edges node ->
  NoDup (map first_char (next node)) /\ Forall distinct_edges (next node).
Proof. intro D. inversion D. auto. Qed.

Lemma distinct_edges_in_tree node t :
  in_tree node t -> distinct_edges t -> distinct_edges node.
Proof.
  induction 1 as [t|node cn t I _ IH]; intro D; [exact D|].
  apply IH. apply distinct_edges_inv in D. destruct D as [_ F].
  rewrite Forall_forall in F. apply F. exact I.
Qed.

(** Case analysis that follows the branches of the insertion body. *)
Ltac add_body_cases node hostname offset :=
  unfold cert_lookup_tree_add_cert_body;
  let cn := fresh "cn" in
  let i' := fresh "i'" in
  let j := fresh "j" in
  destruct (nth_error (next node)
                      (find_next (next node) (char_at hostname offset)))
    as [cn|] eqn:Hfind;
  [ destruct (walk (fun x => x) (loop_fuel offset) (str cn) hostname
                   (last cn) (first cn) offset) as [i' j] eqn:Hwalk;
    destruct (i' =? last cn) eqn:Hi;
    [ destruct (j =? -1) eqn:Hj;
      [ destruct (ssl_ctx cn) eqn:Hctx | ]
    | destruct (j =? -1) eqn:Hj ]
  | destruct (Ascii.eqb (char_at hostname offset) STAR) eqn:Hstar ].

Lemma add_body_distinct node ctx hostname offset :
  distinct_edges node ->
  match cert_lookup_tree_add_cert_body node ctx hostname offset with
  | Done node' =>
      distinct_edges node' /\ str node' = str node /\ first node' = first node
  | Recurse i cn j =>
      distinct_edges cn
      /\ forall cn',
          distinct_edges cn' -> str cn' = str cn -> first cn' = first cn ->
          distinct_edges (with_next node (set_next (next node) i cn'))
  end.
Proof.
  intro D. destruct (distinct_edges_inv _ D) as [ND F].
  assert (Upd : forall i cn cn',
             nth_error (next node) i = Some cn ->
             distinct_edges cn' -> first_char cn' = first_char cn ->
             distinct_edges (with_next node (set_next (next node) i cn'))).
  { intros i cn cn' Hn Dc E. constructor; cbn [next with_next].
    - rewrite (set_next_map first_char _ _ _ _ Hn E). exact ND.
    - apply set_next_Forall; assumption. }
  add_body_cases node hostname offset.
  - (* same hostname, context already set *)
    auto.
  - (* same hostname, context installed *)
    split; [|split; reflexivity].
    apply (Upd _ _ _ Hfind); [|reflexivity].
    destruct (find_next_found _ _ _ Hfind) as [_ I].
    rewrite Forall_forall in F. specialize (F _ I).
    apply distinct_edges_inv in F. constructor; apply F.
  - (* existing node is a suffix: recursive call *)
    destruct (find_next_found _ _ _ Hfind) as [_ I].
    rewrite Forall_forall in F. specialize (F _ I). split; [exact F|].
    intros cn' Dc Es Ef. apply (Upd _ _ _ Hfind Dc).
    unfold first_char. rewrite Es, Ef. reflexivity.
  - (* split, hostname is a suffix *)
    split; [|split; reflexivity].
    apply (Upd _ _ _ Hfind); [|reflexivity].
    destruct (find_next_found _ _ _ Hfind) as [_ I].
    rewrite Forall_forall in F. specialize (F _ I).
    apply distinct_edges_inv in F.
    constructor; cbn [next map].
    + constructor; [intros []|constructor].
    + constructor; [|constructor]. constructor; apply F.
  - (* split, recursive call *)
    destruct (find_next_found _ _ _ Hfind) as [_ I].
    rewrite Forall_forall in F. specialize (F _ I).
    apply distinct_edges_inv in F. split.
    + constructor; cbn [next map].
      * constructor; [intros []|constructor].
      * constructor; [|constructor]. constructor; apply F.
    + intros cn' Dc Es Ef. apply (Upd _ _ _ Hfind Dc).
      unfold first_char. rewrite Es, Ef. reflexivity.
  - (* wildcard kept on this node *)
    split; [|split; reflexivity]. constructor; assumption.
  - (* new child *)
    split; [|split; reflexivity]. constructor; cbn [next with_next].
    + rewrite map_app. cbn [map]. apply NoDup_app; [exact ND| |].
      * constructor; [intros []|constructor].
      * intros c I1 [I2|[]]. apply (find_next_none _ _ Hfind).
        unfold first_char in I2. cbn [str first] in I2. rewrite I2. exact I1.
    + apply Forall_app. split; [exact F|]. constructor; [|constructor].
      constructor; constructor.
Qed.

Lemma add_node_distinct fuel :
  forall node ctx hostname offset node',
    cert_lookup_tree_add_cert_node fuel node ctx hostname offset = Some node' ->
    distinct_edges node ->
    distinct_edges node' /\ str node' = str node /\ first node' = first node.
Proof.
  induction fuel as [|fuel IH]; intros node ctx hostname offset node' A D;
    simpl in A; [discriminate|].
  pose proof (add_body_distinct node ctx hostname offset D) as B.
  destruct (cert_lookup_tree_add_cert_body node ctx hostname offset)
    as [n1|i cn j].
  - injection A as <-. exact B.
  - destruct B as [Dc K].
    destruct (cert_lookup_tree_add_cert_node fuel cn ctx hostname j)
      as [cn'|] eqn:R; [|discriminate].
    injection A as <-. destruct (IH _ _ _ _ _ R Dc) as (D' & Es & Ef).
    split; [|split; reflexivity]. apply K; assumption.
Qed.

Lemma add_cert_distinct lt ctx hostname lt' :
  cert_lookup_tree_add_cert lt ctx hostname = Some lt' ->
  distinct_edges (root lt) -> distinct_edges (root lt').
Proof.
  unfold cert_lookup_tree_add_cert.
  destruct (Z.of_nat (length hostname) =? 0); [intro E; injection E as <-; auto|].
  destruct (cert_lookup_tree_add_cert_node _ _ _ _ _) as [r|] eqn:A; [|discriminate].
  intros E D. injection E as <-. cbn [root].
  apply (add_node_distinct _ _ _ _ _ _ A D).
Qed.

Lemma add_certs_distinct certs :
  forall lt lt',
    add_certs lt certs = Some lt' ->
    distinct_edges (root lt) -> distinct_edges (root lt').
Proof.
  induction certs as [|[hostname ctx] rest IH]; intros lt lt' A D; simpl in A.
  - injection A as <-. exact D.
  - destruct (cert_lookup_tree_add_cert lt ctx hostname) as [lt1|] eqn:A1;
      [|discriminate].
    apply (IH _ _ A). apply (add_cert_distinct _ _ _ _ A1 D).
Qed.

Lemma filter_absent (l : list ascii) c :
  ~ In c l -> filter (fun x => Ascii.eqb x c) l = [].
Proof.
  induction l as [|x l IH]; simpl; intro N; [reflexivity|].
  destruct (Ascii.eqb x c) eqn:E.
  - apply Ascii.eqb_eq in E. exfalso. apply N. left. exact E.
  - apply IH. intro I. apply N. right. exact I.
Qed.

Lemma NoDup_count_le_1 (l : list ascii) c :
  NoDup l -> (length (filter (fun x => Ascii.eqb x c) l) <= 1)%nat.
Proof.
  induction 1 as [|x l N _ IH]; simpl; [lia|].
  destruct (Ascii.eqb x c) eqn:E; [|exact IH].
  apply Ascii.eqb_eq in E. subst x. rewrite (filter_absent l c N). simpl. lia.
Qed.

Lemma first_char_count_le_1 nodes c :
  NoDup (map first_char nodes) ->
  (length (filter (fun cn => Ascii.eqb (first_char cn) c) nodes) <= 1)%nat.
Proof.
  intro N. pose proof (NoDup_count_le_1 _ c N) as L.
  replace (length (filter (fun cn => Ascii.eqb (first_char cn) c) nodes))
    with (length (filter (fun x => Ascii.eqb x c) (map first_char nodes)));
    [exact L|].
  clear. induction nodes as [|x rest IH]; simpl; [reflexivity|].
  destruct (Ascii.eqb (first_char x) c); simpl; rewrite IH; reflexivity.
Qed.

Lemma distinct_edges_new : distinct_edges (root cert_lookup_tree_new).
Proof. constructor; constructor. Qed.

(** C8.  In a tree obtained from a fresh tree by any sequence of
    insertions, the children of every node begin with pairwise distinct
    characters, so that at most one child begins with any given character;
    and whatever branch a further insertion takes, node creation and node
    splitting included, the tree it leaves has the same property. *)
Theorem C8_children_begin_distinct
        (certs : list (list ascii * option SSL_CTX)) (lt : CertLookupTree) :
  add_certs cert_lookup_tree_new certs = Some lt ->
  (forall node,
      in_tree node (root lt) ->
      NoDup (map first_char (next node))
      /\ forall c,
          (length (filter (fun cn => Ascii.eqb (first_char cn) c) (next node))
           <= 1)%nat)
  /\ (forall ctx hostname lt' node,
         cert_lookup_tree_add_cert lt ctx hostname = Some lt' ->
         in_tree node (root lt') ->
         NoDup (map first_char (next node))).
Proof.
  intros A.
  pose proof (add_certs_distinct _ _ _ A distinct_edges_new) as D. split.
  - intros node I.
    apply (distinct_edges_in_tree _ _ I) in D.
    apply distinct_edges_inv in D. destruct D as [N _].
    split; [exact N|]. intro c. apply first_char_count_le_1. exact N.
  - intros ctx hostname lt' node A' I.
    apply (add_cert_distinct _ _ _ _ A') in D.
    apply (distinct_edges_in_tree _ _ I) in D.
    apply distinct_edges_inv in D. apply D.
Qed.

Lemma C8_children_begin_distinct_witness :
  add_certs cert_lookup_tree_new example_certs = Some example_tree
  /\ forall node,
      in_tree node (root example_tree) ->
      NoDup (map first_char (next node))
      /\ forall c,
          (length (filter (fun cn => Ascii.eqb (first_char cn) c) (next node))
           <= 1)%nat.
Proof.
  assert (A : add_certs cert_lookup_tree_new example_certs = Some example_tree)
    by (vm_compute; reflexivity).
  split; [exact A|].
  exact (proj1 (C8_children_begin_distinct example_certs example_tree A)).
Defined.

(** ** Every node below the root holds at least one character *)

Lemma nonempty_edges_inv node :
  nonempty_edges node ->
  Forall (fun cn => last cn < first cn) (next node)
  /\ Forall nonempty_edges (next node).
Proof. intro D. inversion D. auto. Qed.

Lemma nonempty_edges_child node cn :
  nonempty_edges node -> In cn (next node) ->
  last cn < first cn /\ nonempty_edges cn.
Proof.
  intros N I. apply nonempty_edges_inv in N. destruct N as [F1 F2].
  rewrite Forall_forall in F1, F2. auto.
Qed.

(** One activation of the insertion on a node whose subtree has no empty
    edge: a recursive call is made at an offset that is strictly smaller
    and not negative, on a node of the same kind. *)
Lemma add_body_nonempty node ctx hostname offset :
  nonempty_edges node -> 0 <= offset ->
  match cert_lookup_tree_add_cert_body node ctx hostname offset with
  | Done node' =>
      nonempty_edges node' /\ first node' = first node /\ last node' = last node
  | Recurse i cn j =>
      0 <= j < offset /\ last cn < first cn /\ nonempty_edges cn
      /\ forall cn',
          nonempty_edges cn' -> first cn' = first cn -> last cn' = last cn ->
          nonempty_edges (with_next node (set_next (next node) i cn'))
  end.
Proof.
  intros N O. destruct (nonempty_edges_inv _ N) as [F1 F2].
  assert (Upd : forall i cn',
             nonempty_edges cn' -> last cn' < first cn' ->
             nonempty_edges (with_next node (set_next (next node) i cn'))).
  { intros i cn' Nc E. constructor; cbn [next with_next];
      apply set_next_Forall; assumption. }
  add_body_cases node hostname offset;
    try (destruct (find_next_found _ _ _ Hfind) as [Hc I];
         destruct (nonempty_edges_child _ _ N I) as [Lc Nc];
         destruct (walk_bounds _ _ _ _ _ _ _ _ Hwalk) as (Bi & Bj & _);
         [lia|lia|];
         destruct (walk_progress _ _ _ _ _ _ _ _ Hwalk Lc O Hc) as [Pi Pj];
         apply nonempty_edges_inv in Nc; destruct Nc as [G1 G2]).
  - auto.
  - split; [|split; reflexivity].
    apply Upd; [constructor; assumption|exact Lc].
  - apply Z.eqb_neq in Hj. split; [lia|]. split; [exact Lc|].
    split; [constructor; assumption|].
    intros cn' Nc' Ef El. apply Upd; [exact Nc'|lia].
  - apply Z.eqb_neq in Hi. split; [|split; reflexivity].
    apply Upd; [|cbn [first last]; lia].
    constructor; cbn [next first last].
    + constructor; [cbn [first last]; lia|constructor].
    + constructor; [|constructor]. constructor; assumption.
  - apply Z.eqb_neq in Hi. apply Z.eqb_neq in Hj.
    split; [lia|]. split; [cbn [first last]; lia|]. split.
    + constructor; cbn [next first last].
      * constructor; [cbn [first last]; lia|constructor].
      * constructor; [|constructor]. constructor; assumption.
    + cbn [first last]. intros cn' Nc' Ef El. apply Upd; [exact Nc'|lia].
  - split; [|split; reflexivity]. constructor; assumption.
  - apply Ascii.eqb_neq in Hstar.
    pose proof (scan_wildcard_progress hostname offset O Hstar) as S.
    split; [|split; reflexivity]. constructor; cbn [next with_next].
    + apply Forall_app. split; [exact F1|].
      constructor; [cbn [first last]; lia|constructor].
    + apply Forall_app. split; [exact F2|].
      constructor; [|constructor]. constructor; constructor.
Qed.

(** On such a node the recursive insertion returns: [offset + 1] nested
    activations are enough, as each one runs at a smaller offset. *)
Lemma add_node_returns fuel :
  forall node ctx hostname offset,
    nonempty_edges node -> 0 <= offset ->
    (Z.to_nat (offset + 1) <= fuel)%nat ->
    exists node',
      cert_lookup_tree_add_cert_node fuel node ctx hostname offset = Some node'
      /\ nonempty_edges node'
      /\ first node' = first node /\ last node' = last node.
Proof.
  induction fuel as [|fuel IH]; intros node ctx hostname offset N O F; [lia|].
  pose proof (add_body_nonempty node ctx hostname offset N O) as B.
  cbn [cert_lookup_tree_add_cert_node].
  destruct (cert_lookup_tree_add_cert_body node ctx hostname offset)
    as [n1|i cn j].
  - exists n1. split; [reflexivity|exact B].
  - destruct B as (J & Lc & Nc & K).
    destruct (IH cn ctx hostname j Nc) as (cn' & -> & Nc' & Ef & El); [lia|lia|].
    eexists. split; [reflexivity|]. split; [|split; reflexivity].
    apply K; assumption.
Qed.

Lemma int_of_size_t_id x : -1 <= x <= INT_MAX -> int_of_size_t x = x.
Proof.
  unfold int_of_size_t, INT_MAX. intro B.
  destruct (Z.eq_dec x (-1)) as [->|N]; [reflexivity|].
  rewrite (Z.mod_small x) by lia. rewrite Z.mod_small by lia. lia.
Qed.

Lemma top_offset hostname :
  hostname_fits hostname ->
  int_of_size_t (Z.of_nat (length hostname) - 1)
  = Z.of_nat (length hostname) - 1.
Proof. unfold hostname_fits. intro F. apply int_of_size_t_id. lia. Qed.

Lemma tree_ok_new : tree_ok cert_lookup_tree_new.
Proof. split; [constructor; constructor|split; reflexivity]. Qed.

Lemma add_cert_returns lt ctx hostname :
  tree_ok lt -> hostname_fits hostname ->
  exists lt', cert_lookup_tree_add_cert lt ctx hostname = Some lt' /\ tree_ok lt'.
Proof.
  intros (N & Rf & Rl) Fit. unfold cert_lookup_tree_add_cert.
  destruct (Z.of_nat (length hostname) =? 0) eqn:E.
  - exists lt. split; [reflexivity|]. split; auto.
  - apply Z.eqb_neq in E. rewrite (top_offset _ Fit).
    destruct (add_node_returns (loop_fuel (Z.of_nat (length hostname) - 1))
                (root lt) ctx (map util.lowcase hostname)
                (Z.of_nat (length hostname) - 1) N)
      as (r & -> & Nr & Ef & El); [lia|apply loop_fuel_enough|].
    eexists. split; [reflexivity|]. split; [exact Nr|]. cbn [root]. lia.
Qed.

Lemma add_certs_returns certs :
  forall lt,
    tree_ok lt -> Forall (fun p => hostname_fits (fst p)) certs ->
    exists lt', add_certs lt certs = Some lt' /\ tree_ok lt'.
Proof.
  induction certs as [|[hostname ctx] rest IH]; intros lt T F; simpl.
  - exists lt. auto.
  - inversion F as [|p l Fh Fr]; subst. cbn [fst] in Fh.
    destruct (add_cert_returns lt ctx hostname T Fh) as (lt1 & -> & T1).
    apply IH; assumption.
Qed.

(** ** The recursive calls and their offsets *)

Lemma add_calls_reach ctx hostname (a b : activation) :
  clos_refl_trans activation (add_calls ctx hostname) a b ->
  nonempty_edges (fst a) /\ 0 <= snd a ->
  nonempty_edges (fst b) /\ 0 <= snd b.
Proof.
  induction 1 as [a b C| |a b c _ IH1 _ IH2]; auto.
  intros [N O]. destruct C as [node offset i cn j B]. cbn [fst snd] in *.
  pose proof (add_body_nonempty node ctx hostname offset N O) as K.
  rewrite B in K. destruct K as (J & _ & Nc & _). split; [exact Nc|lia].
Qed.

(** One lookup call: the offset drops by the length of the caller's edge,
    stays at zero or above, and the callee is a child. *)
Lemma lookup_call_offset hostname node offset cn j :
  cert_lookup_tree_lookup_body node hostname offset = Descend cn j ->
  last node <= first node -> -1 <= offset ->
  In cn (next node) /\ 0 <= j /\ j = offset - (first node - last node).
Proof.
  intros B L O. apply cert_lookup_tree_lookup_body_descend in B.
  destruct B as (W & J & I & _).
  destruct (walk_bounds _ _ _ _ _ _ _ _ W L O) as (_ & Bj & D).
  split; [exact I|]. lia.
Qed.

Lemma lookup_calls_reach hostname (a b : activation) :
  clos_refl_trans activation (lookup_calls hostname) a b ->
  nonempty_edges (fst a) /\ last (fst a) <= first (fst a) /\ -1 <= snd a ->
  nonempty_edges (fst b) /\ last (fst b) <= first (fst b) /\ -1 <= snd b.
Proof.
  induction 1 as [a b C| |a b c _ IH1 _ IH2]; auto.
  intros (N & L & O). destruct C as [node offset cn j B]. cbn [fst snd] in *.
  destruct (lookup_call_offset _ _ _ _ _ B L O) as (I & J & _).
  destruct (nonempty_edges_child _ _ N I) as [Lc Nc].
  split; [exact Nc|]. lia.
Qed.

(** On a node whose subtree has no empty edge the lookup returns within
    [offset + 2] activations, and within [offset + 1] when the node itself
    holds a character. *)
Lemma lookup_run_returns fuel :
  forall node hostname offset,
    nonempty_edges node -> last node <= first node -> -1 <= offset ->
    (Z.to_nat (offset + 1)%Z + (if (last node <? first node)%Z then 0 else 1)
     <= fuel)%nat ->
    (1 <= fuel)%nat ->
    lookup_run fuel node hostname offset
    = Some (cert_lookup_tree_lookup_node node hostname offset).
Proof.
  induction fuel as [|fuel IH]; intros node hostname offset N L O F F1; [lia|].
  cbn [lookup_run]. rewrite cert_lookup_tree_lookup_node_eq.
  destruct (cert_lookup_tree_lookup_body node hostname offset) as [r|cn j] eqn:B;
    [reflexivity|].
  destruct (lookup_call_offset _ _ _ _ _ B L O) as (I & J & E).
  destruct (nonempty_edges_child _ _ N I) as [Lc Nc].
  assert (Lb : (last cn <? first cn) = true) by (apply Z.ltb_lt; exact Lc).
  destruct (last node <? first node) eqn:Ln;
    [apply Z.ltb_lt in Ln|apply Z.ltb_ge in Ln];
    (apply IH; [exact Nc|lia|lia|rewrite Lb; lia|lia]).
Qed.

Lemma nonempty_edges_in_tree node t :
  in_tree node t -> nonempty_edges t -> nonempty_edges node.
Proof.
  induction 1 as [t|node cn t I _ IH]; intro D; [exact D|].
  apply IH. apply (nonempty_edges_child _ _ D I).
Qed.

(** C10, as the code behaves.  Take any sequence of registrations on a fresh
    tree and any further hostname (all of a length that fits the [int]
    offset).  The registrations return a tree in which every node below the
    root holds at least one character ([first > last]); a further insertion
    returns; every recursive call of the insertion is made at an offset
    that is strictly smaller than its caller's and not negative.  The
    lookup returns within [len + 1] activations; its recursive calls are
    made at offsets that are not negative and never larger than the
    caller's; the call made by the top activation, on the root whose edge
    is empty, passes the offset on unchanged, and every call made by a
    callee passes a strictly smaller one. *)
Theorem C10_recursion_offsets
        (certs : list (list ascii * option SSL_CTX))
        (hostname : list ascii) (ctx : option SSL_CTX) :
  Forall (fun p => hostname_fits (fst p)) certs ->
  hostname_fits hostname ->
  exists lt,
    add_certs cert_lookup_tree_new certs = Some lt
    /\ (forall parent cn,
           in_tree parent (root lt) -> In cn (next parent) ->
           last cn < first cn)
    /\ (exists lt', cert_lookup_tree_add_cert lt ctx hostname = Some lt')
    /\ let top := int_of_size_t (Z.of_nat (length hostname) - 1) in
       let host_copy := map util.lowcase hostname in
       (forall a b,
           0 <= top ->
           clos_refl_trans activation (add_calls ctx host_copy) (root lt, top) a ->
           add_calls ctx host_copy a b ->
           0 <= snd b < snd a)
       /\ lookup_run (S (length hostname)) (root lt) hostname top
          = Some (cert_lookup_tree_lookup lt hostname)
       /\ (forall a b,
              clos_refl_trans activation (lookup_calls hostname) (root lt, top) a ->
              lookup_calls hostname a b ->
              0 <= snd b <= snd a)
       /\ (forall b, lookup_calls hostname (root lt, top) b -> snd b = top)
       /\ (forall a b c,
              clos_refl_trans activation (lookup_calls hostname) (root lt, top) a ->
              lookup_calls hostname a b ->
              lookup_calls hostname b c ->
              0 <= snd c < snd b).
Proof.
  intros Fc Fh.
  destruct (add_certs_returns certs _ tree_ok_new Fc) as (lt & A & T).
  pose proof T as (N & Rf & Rl).
  exists lt. split; [exact A|]. split; [|split].
  - intros parent cn I Ic.
    apply (nonempty_edges_child parent cn); [|exact Ic].
    apply (nonempty_edges_in_tree _ _ I N).
  - destruct (add_cert_returns lt ctx hostname T Fh) as (lt' & E & _).
    exists lt'. exact E.
  - cbv zeta. rewrite (top_offset _ Fh).
    assert (Top : -1 <= Z.of_nat (length hostname) - 1) by lia.
    assert (Start : nonempty_edges (root lt) /\ last (root lt) <= first (root lt)
                    /\ -1 <= Z.of_nat (length hostname) - 1) by (split; [exact N|split; lia]).
    split; [|split; [|split; [|split]]].
    + intros a b O R C.
      destruct (add_calls_reach _ _ _ _ R) as [Na Oa]; [split; assumption|].
      destruct C as [node offset i cn j B]. cbn [fst snd] in *.
      pose proof (add_body_nonempty node ctx (map util.lowcase hostname) offset
                                    Na Oa) as K.
      rewrite B in K. destruct K as (J & _). exact J.
    + unfold cert_lookup_tree_lookup. rewrite (top_offset _ Fh).
      apply lookup_run_returns; try assumption; try lia.
      rewrite Rf, Rl. cbn. lia.
    + intros a b R C.
      destruct (lookup_calls_reach _ _ _ R Start) as (Na & La & Oa).
      destruct C as [node offset cn j B]. cbn [fst snd] in *.
      destruct (lookup_call_offset _ _ _ _ _ B La Oa) as (_ & J & E). lia.
    + intros b C. inversion C as [node offset cn j B]; subst. cbn [snd].
      destruct (lookup_call_offset _ _ _ _ _ B) as (_ & _ & E); lia.
    + intros a b c R C1 C2.
      destruct (lookup_calls_reach _ _ _ R Start) as (Na & La & Oa).
      destruct C1 as [node offset cn j B1]. cbn [fst snd] in *.
      destruct (lookup_call_offset _ _ _ _ _ B1 La Oa) as (I & J & _).
      destruct (nonempty_edges_child _ _ Na I) as [Lc Nc].
      inversion C2 as [node2 offset2 cn2 j2 B2]; subst. cbn [snd].
      destruct (lookup_call_offset _ _ _ _ _ B2) as (_ & J2 & E2); lia.
Qed.

Lemma C10_recursion_offsets_witness :
  Forall (fun p => hostname_fits (fst p)) example_certs
  /\ hostname_fits (s "mail.example.com")
  /\ exists lt,
      add_certs cert_lookup_tree_new example_certs = Some lt
      /\ (exists lt', cert_lookup_tree_add_cert lt (Some 7%nat)
                                                (s "mail.example.com") = Some lt')
      /\ lookup_run 17 (root lt) (s "mail.example.com") 15
         = Some (cert_lookup_tree_lookup lt (s "mail.example.com")).
Proof.
  assert (Fc : Forall (fun p => hostname_fits (fst p)) example_certs).
  { repeat constructor; unfold hostname_fits, INT_MAX; simpl; lia. }
  assert (Fh : hostname_fits (s "mail.example.com")).
  { unfold hostname_fits, INT_MAX; simpl; lia. }
  split; [exact Fc|]. split; [exact Fh|].
  destruct (C10_recursion_offsets example_certs (s "mail.example.com")
                                  (Some 7%nat) Fc Fh)
    as (lt & A & _ & E & _ & R & _).
  exists lt. split; [exact A|]. split; [exact E|exact R].
Defined.

(** C10 as stated fails for the lookup: on the tree that holds [a], the
    lookup of [a] is entered on the root at offset 0 and makes its
    recursive call at offset 0 again. *)
Lemma C10_lookup_root_call_keeps_offset :
  ~ (forall lt cn j,
        add_certs cert_lookup_tree_new [(s "a", Some 1%nat)] = Some lt ->
        cert_lookup_tree_lookup lt (s "a")
        = cert_lookup_tree_lookup_node (root lt) (s "a") 0 ->
        cert_lookup_tree_lookup_body (root lt) (s "a") 0 = Descend cn j ->
        j < 0).
Proof.
  intro H.
  destruct (add_certs cert_lookup_tree_new [(s "a", Some 1%nat)]) as [lt|] eqn:A;
    [|discriminate A].
  vm_compute in A. injection A as <-.
  specialize (H _ _ 0 eq_refl eq_refl eq_refl). lia.
Qed.

(** ** A pattern matches itself *)

Lemma CaseCmp_refl c : util.CaseCmp c c = true.
Proof. apply Ascii.eqb_refl. Qed.

Lemma equal_CaseCmp_prefix a b : util.equal_CaseCmp a (a ++ b) = true.
Proof.
  induction a as [|x a IH]; simpl; [reflexivity|].
  rewrite CaseCmp_refl, IH. reflexivity.
Qed.

Lemma equal_CaseCmp_refl a : util.equal_CaseCmp a a = true.
Proof. rewrite <- (app_nil_r a) at 2. apply equal_CaseCmp_prefix. Qed.

Lemma istartsWith_range_firstn a w l :
  (w <= l)%nat -> util.istartsWith_range (firstn l a) (firstn w a) = true.
Proof.
  intro L. unfold util.istartsWith_range.
  rewrite !length_firstn.
  destruct (Nat.ltb_spec (Nat.min l (length a)) (Nat.min w (length a))); [lia|].
  rewrite <- (firstn_skipn w (firstn l a)), firstn_firstn.
  replace (Nat.min w l) with w by lia. apply equal_CaseCmp_prefix.
Qed.

Lemma iendsWith_range_skipn a k : util.iendsWith_range a (skipn k a) = true.
Proof.
  unfold util.iendsWith_range. rewrite length_skipn.
  destruct (Nat.ltb_spec (length a) (length a - k)); [lia|].
  destruct (Nat.le_gt_cases k (length a)) as [L|L].
  - replace (length a - (length a - k))%nat with k by lia.
    apply equal_CaseCmp_refl.
  - rewrite skipn_all2 by lia. reflexivity.
Qed.

Lemma tls_hostname_match_refl pattern : tls_hostname_match pattern pattern = true.
Proof.
  unfold tls_hostname_match.
  destruct (strchr pattern STAR) as [w|]; [|apply strieq_refl].
  destruct (strchr pattern DOT) as [l|]; cbn [negb]; [|apply strieq_refl].
  destruct (is_null (strchr (skipn (l + 1) pattern) DOT) || (l <? w)%nat
            || util.istartsWith pattern (s "xn--")) eqn:C; cbn [negb];
    [apply strieq_refl|].
  rewrite strieq_refl. cbn [negb]. rewrite Nat.ltb_irrefl.
  apply orb_false_iff in C. destruct C as [C _].
  apply orb_false_iff in C. destruct C as [_ C]. apply Nat.ltb_ge in C.
  rewrite (istartsWith_range_firstn _ _ _ C), iendsWith_range_skipn. reflexivity.
Qed.

(** The stored, case-folded copy of a hostname matches the hostname. *)
Lemma tls_hostname_match_host_copy hostname :
  tls_hostname_match (c_str (map util.lowcase hostname)) (c_str hostname) = true.
Proof.
  rewrite c_str_lowcase, <- tls_hostname_match_lowcase.
  apply tls_hostname_match_refl.
Qed.

(** ** Registering one hostname twice *)

Lemma loop_fuel_S offset : 0 <= offset -> loop_fuel offset = S (loop_fuel (offset - 1)).
Proof. unfold loop_fuel. intro O. replace (offset - 1 + 1) with offset by lia. lia. Qed.

Lemma add_body_no_child node ctx hostname offset :
  nth_error (next node) (find_next (next node) (char_at hostname offset)) = None ->
  cert_lookup_tree_add_cert_body node ctx hostname offset
  = if Ascii.eqb (char_at hostname offset) STAR
    then Done (push_wildcard node hostname ctx)
    else Done (with_next node (next node ++ [new_leaf ctx hostname offset])).
Proof.
  intro F. unfold cert_lookup_tree_add_cert_body. rewrite F. reflexivity.
Qed.

(** The public insertion of a non-empty hostname, by the first activation
    of the recursion. *)
Lemma add_cert_unfold lt ctx hostname :
  hostname <> [] -> hostname_fits hostname ->
  let host_copy := map util.lowcase hostname in
  let offset := Z.of_nat (length hostname) - 1 in
  cert_lookup_tree_add_cert lt ctx hostname
  = match cert_lookup_tree_add_cert_body (root lt) ctx host_copy offset with
    | Done r => Some {| root := r; hosts := hosts lt ++ [host_copy] |}
    | Recurse i cn j =>
        match cert_lookup_tree_add_cert_node (loop_fuel (offset - 1)) cn ctx
                                             host_copy j with
        | Some cn' =>
            Some {| root := with_next (root lt) (set_next (next (root lt)) i cn');
                    hosts := hosts lt ++ [host_copy] |}
        | None => None
        end
    end.
Proof.
  intros NE Fit. cbv zeta. unfold cert_lookup_tree_add_cert.
  assert (L : 0 < Z.of_nat (length hostname)) by (destruct hostname; [contradiction|simpl; lia]).
  destruct (Z.eqb_spec (Z.of_nat (length hostname)) 0) as [E|_]; [lia|].
  rewrite (top_offset _ Fit), loop_fuel_S by lia.
  cbn [cert_lookup_tree_add_cert_node].
  destruct (cert_lookup_tree_add_cert_body _ _ _ _) as [r|i cn j]; [reflexivity|].
  destruct (cert_lookup_tree_add_cert_node _ _ _ _ _); reflexivity.
Qed.

(** The public lookup of a non-empty hostname, by its activation on the
    root. *)
Lemma lookup_root_unfold lt hostname :
  hostname <> [] -> hostname_fits hostname ->
  first (root lt) = 0 -> last (root lt) = 0 ->
  let offset := Z.of_nat (length hostname) - 1 in
  cert_lookup_tree_lookup lt hostname
  = match match_wildcard_certs (wildcard_certs (root lt)) hostname with
    | Some ctx => ctx
    | None =>
        match nth_error (next (root lt))
                (find_next (next (root lt))
                           (util.lowcase (char_at hostname offset))) with
        | Some cn => cert_lookup_tree_lookup_node cn hostname offset
        | None => None
        end
    end.
Proof.
  intros NE Fit Rf Rl. cbv zeta. unfold cert_lookup_tree_lookup.
  assert (L : 0 < Z.of_nat (length hostname)) by (destruct hostname; [contradiction|simpl; lia]).
  rewrite (top_offset _ Fit), cert_lookup_tree_lookup_node_eq.
  unfold cert_lookup_tree_lookup_body.
  rewrite Rf, Rl, loop_fuel_S by lia. cbn [walk Z.gtb Z.compare andb].
  cbn [Z.eqb negb].
  destruct (Z.eqb_spec (Z.of_nat (length hostname) - 1) (-1)) as [E|_]; [lia|].
  destruct (match_wildcard_certs _ _); [reflexivity|].
  destruct (nth_error _ _); reflexivity.
Qed.

(** The lookup entered on a node that was made for this very hostname. *)
Lemma lookup_own_node cn hostname :
  str cn = map util.lowcase hostname ->
  first cn = Z.of_nat (length hostname) - 1 ->
  -1 <= last cn <= first cn ->
  cert_lookup_tree_lookup_body cn hostname (first cn)
  = if last cn =? -1 then Return (ssl_ctx cn)
    else match match_wildcard_certs (wildcard_certs cn) hostname with
         | Some ctx => Return ctx
         | None =>
             match nth_error (next cn)
                     (find_next (next cn)
                                (util.lowcase (char_at hostname (last cn)))) with
             | Some next_node => Descend next_node (last cn)
             | None => Return None
             end
         end.
Proof.
  intros Es Ef B. unfold cert_lookup_tree_lookup_body.
  rewrite walk_all_equal.
  - rewrite Z.eqb_refl. reflexivity.
  - exact B.
  - intros t _. rewrite Es, char_at_lowcase. reflexivity.
Qed.

Lemma match_wildcard_certs_own hostname ctx rest :
  match_wildcard_certs ((map util.lowcase hostname, ctx) :: rest) hostname
  = Some ctx.
Proof.
  cbn [match_wildcard_certs fst snd].
  rewrite tls_hostname_match_host_copy. reflexivity.
Qed.

Lemma char_at_In buf j :
  0 <= j < Z.of_nat (length buf) -> In (char_at buf j) buf.
Proof.
  intro B. unfold char_at. destruct (Z.ltb_spec j 0); [lia|].
  apply nth_In. lia.
Qed.

Lemma In_STAR_lowcase hostname :
  In STAR (map util.lowcase hostname) -> In STAR hostname.
Proof.
  intro I. apply in_map_iff in I. destruct I as (c & E & I).
  apply (proj1 (lowcase_is_STAR c)) in E. subst c. exact I.
Qed.

Lemma new_leaf_last ctx hostname offset :
  0 <= offset -> char_at hostname offset <> STAR ->
  -1 <= last (new_leaf ctx hostname offset) < offset.
Proof. intros O C. apply scan_wildcard_progress; assumption. Qed.

(** ** Registering a hostname again, on any tree *)

Lemma find_next_map l l' c :
  map first_char l = map first_char l' -> find_next l c = find_next l' c.
Proof.
  revert l'. induction l as [|x l IH]; intros [|y l'] E; simpl in *;
    try discriminate; [reflexivity|].
  injection E as E1 E2. rewrite E1, (IH _ E2). reflexivity.
Qed.

Lemma find_next_set_next l i cn cn' c :
  nth_error l i = Some cn -> first_char cn' = first_char cn ->
  find_next (set_next l i cn') c = find_next l c.
Proof.
  intros F E. apply find_next_map. apply (set_next_map first_char _ _ _ _ F E).
Qed.

Lemma find_next_app_new l x c :
  nth_error l (find_next l c) = None -> first_char x = c ->
  find_next (l ++ [x]) c = length l.
Proof.
  intros F E. induction l as [|y l IH]; simpl in *.
  - rewrite E, Ascii.eqb_refl. reflexivity.
  - destruct (Ascii.eqb (first_char y) c); [discriminate|].
    simpl in F. rewrite (IH F). reflexivity.
Qed.

Lemma nth_error_app_new {T} (l : list T) x :
  nth_error (l ++ [x]) (length l) = Some x.
Proof. induction l; simpl; auto. Qed.

Lemma set_next_app_new l x y :
  set_next (l ++ [x]) (length l) y = l ++ [y].
Proof. induction l as [|z l IH]; simpl; [reflexivity|]. rewrite IH. reflexivity. Qed.

Lemma set_next_twice l i a b : set_next (set_next l i a) i b = set_next l i b.
Proof.
  revert i. induction l as [|x l IH]; intros [|i]; simpl; try reflexivity.
  rewrite IH. reflexivity.
Qed.

Lemma set_next_same l i cn : nth_error l i = Some cn -> set_next l i cn = l.
Proof.
  revert i. induction l as [|x l IH]; intros [|i] F; simpl in *; try discriminate.
  - injection F as ->. reflexivity.
  - rewrite (IH _ F). reflexivity.
Qed.

Lemma set_next_other l i k cn' :
  k <> i -> nth_error (set_next l i cn') k = nth_error l k.
Proof.
  revert i k. induction l as [|x l IH]; intros [|i] [|k] N; simpl;
    try reflexivity; try contradiction.
  apply IH. intro E. apply N. rewrite E. reflexivity.
Qed.

Lemma with_next_same node : with_next node (next node) = node.
Proof. destruct node. reflexivity. Qed.

(** Where the walk stopped it stops again when the node ends there. *)
Lemma walk_restart conv nstr hostname nlast i0 j0 i j :
  walk conv (loop_fuel j0) nstr hostname nlast i0 j0 = (i, j) ->
  walk conv (loop_fuel j0) nstr hostname i i0 j0 = (i, j).
Proof.
  intro W.
  destruct (walk_spec conv nstr hostname nlast _ _ _ _ _ (loop_fuel_enough j0) W)
    as (k & K0 & Ei & Ej & M & S).
  destruct (walk conv (loop_fuel j0) nstr hostname i i0 j0) as [i2 j2] eqn:W2.
  destruct (walk_spec conv nstr hostname i _ _ _ _ _ (loop_fuel_enough j0) W2)
    as (k2 & K2 & Ei2 & Ej2 & M2 & S2).
  assert (k2 = k); [|subst; reflexivity].
  destruct (Z.lt_trichotomy k2 k) as [L|[E|L]]; [|exact E|].
  - exfalso. apply S2. destruct (M k2) as (M1 & M3 & M4); [lia|].
    subst i2 j2. repeat split; try lia. exact M4.
  - exfalso. destruct (M2 k) as (M1 & _); lia.
Qed.

Lemma walk_offset_bounds conv nstr hostname nlast i0 j0 i j :
  walk conv (loop_fuel j0) nstr hostname nlast i0 j0 = (i, j) ->
  -1 <= j0 -> -1 <= j <= j0.
Proof.
  intros W Lj.
  destruct (walk_spec conv nstr hostname nlast _ _ _ _ _ (loop_fuel_enough j0) W)
    as (k & K0 & -> & -> & M & _).
  destruct (Z.eq_dec k 0) as [->|K]; [lia|].
  destruct (M (k - 1)) as (_ & M2 & _); lia.
Qed.

Lemma match_wildcard_certs_dup certs pattern ctx ctx' hostname :
  In (pattern, ctx) certs ->
  match_wildcard_certs (certs ++ [(pattern, ctx')]) hostname
  = match_wildcard_certs certs hostname.
Proof.
  induction certs as [|w rest IH]; intro I; [destruct I|]. simpl.
  destruct (tls_hostname_match (c_str (fst w)) (c_str hostname)) eqn:M;
    [reflexivity|].
  destruct I as [->|I]; [|exact (IH I)].
  cbn [fst] in M. clear IH.
  induction rest as [|v rest IH]; simpl.
  - rewrite M. reflexivity.
  - destruct (tls_hostname_match (c_str (fst v)) (c_str hostname));
      [reflexivity|exact IH].
Qed.

Lemma add_node_header fuel node ctx hostname offset node' :
  cert_lookup_tree_add_cert_node fuel node ctx hostname offset = Some node' ->
  str node' = str node /\ first node' = first node /\ last node' = last node.
Proof.
  destruct fuel as [|fuel]; simpl; [discriminate|].
  destruct (cert_lookup_tree_add_cert_body node ctx hostname offset)
    as [n1|i cn j] eqn:B.
  - intro E. injection E as <-. revert B.
    add_body_cases node hostname offset; intro E; try discriminate E;
      injection E as <-; auto.
  - destruct (cert_lookup_tree_add_cert_node fuel cn ctx hostname j);
      [|discriminate].
    intro E. injection E as <-. auto.
Qed.


Lemma wild_dup_header hostname node node' :
  wild_dup hostname node node' ->
  str node' = str node /\ first node' = first node /\ last node' = last node.
Proof. destruct 1; auto. Qed.

Lemma wild_dup_no_star hostname node node' :
  ~ In STAR hostname -> wild_dup hostname node node' -> node' = node.
Proof.
  intro NS. induction 1 as [node|node ctx ctx' S _|node i cn cn' F _ IH].
  - reflexivity.
  - contradiction.
  - rewrite IH, (set_next_same _ _ _ F). apply with_next_same.
Qed.

(** Such an entry changes no lookup. *)
Lemma wild_dup_lookup hostname node node' :
  wild_dup hostname node node' ->
  forall query offset,
    cert_lookup_tree_lookup_node node' query offset
    = cert_lookup_tree_lookup_node node query offset.
Proof.
  induction 1 as [node|node ctx ctx' _ I|node i cn cn' F D IH];
    intros query offset; [reflexivity| |].
  - rewrite !cert_lookup_tree_lookup_node_eq.
    unfold cert_lookup_tree_lookup_body.
    cbn [str first last ssl_ctx wildcard_certs next push_wildcard].
    rewrite (match_wildcard_certs_dup _ _ _ _ _ I). reflexivity.
  - rewrite (cert_lookup_tree_lookup_node_eq (with_next _ _)),
      (cert_lookup_tree_lookup_node_eq node).
    unfold cert_lookup_tree_lookup_body.
    cbn [str first last ssl_ctx wildcard_certs next with_next].
    destruct (walk util.lowcase (loop_fuel offset) (str node) query (last node)
                   (first node) offset) as [i' j].
    destruct (negb (i' =? last node)); [reflexivity|].
    destruct (j =? -1); [reflexivity|].
    destruct (match_wildcard_certs (wildcard_certs node) query); [reflexivity|].
    destruct (wild_dup_header _ _ _ D) as (Es & Ef & _).
    rewrite (find_next_set_next _ _ cn cn' _ F)
      by (unfold first_char; rewrite Es, Ef; reflexivity).
    destruct (Nat.eq_dec (find_next (next node) (util.lowcase (char_at query j))) i)
      as [E|N].
    + rewrite E, (set_next_nth _ _ _ _ F), F. apply IH.
    + rewrite (set_next_other _ _ _ _ N). reflexivity.
Qed.

(** The insertion entered on a node where the child [next[i]] begins with
    the character at [offset] and the walk runs to the end of that child. *)
Lemma add_body_child_end node ctx hostname offset i cn j :
  find_next (next node) (char_at hostname offset) = i ->
  nth_error (next node) i = Some cn ->
  walk (fun x => x) (loop_fuel offset) (str cn) hostname (last cn) (first cn)
       offset = (last cn, j) ->
  cert_lookup_tree_add_cert_body node ctx hostname offset
  = if j =? -1 then
      match ssl_ctx cn with
      | Some _ => Done node
      | None =>
          Done (with_next node (set_next (next node) i (with_ssl_ctx cn ctx)))
      end
    else Recurse i cn j.
Proof.
  intros Fi F W. unfold cert_lookup_tree_add_cert_body.
  rewrite Fi, F, W, Z.eqb_refl. reflexivity.
Qed.

(** The same after the child was replaced by a node that begins alike and
    ends where the walk stopped. *)
Lemma add_body_again node ctx hostname offset cn cnX i' j :
  nth_error (next node) (find_next (next node) (char_at hostname offset))
  = Some cn ->
  walk (fun x => x) (loop_fuel offset) (str cn) hostname (last cn) (first cn)
       offset = (i', j) ->
  str cnX = str cn -> first cnX = first cn -> last cnX = i' ->
  let i := find_next (next node) (char_at hostname offset) in
  let node1 := with_next node (set_next (next node) i cnX) in
  cert_lookup_tree_add_cert_body node1 ctx hostname offset
  = if j =? -1 then
      match ssl_ctx cnX with
      | Some _ => Done node1
      | None =>
          Done (with_next node1 (set_next (next node1) i (with_ssl_ctx cnX ctx)))
      end
    else Recurse i cnX j.
Proof.
  intros F W Es Ef El. cbv zeta.
  apply add_body_child_end.
  - cbn [next with_next]. apply (find_next_set_next _ _ cn); [exact F|].
    unfold first_char. rewrite Es, Ef. reflexivity.
  - cbn [next with_next]. apply (set_next_nth _ _ cn). exact F.
  - rewrite Es, Ef, El. apply walk_restart with (nlast := last cn). exact W.
Qed.

(** Registering a hostname a second time: the nodes stay as the first
    registration left them, but for a further entry after the one the
    first registration made on a wildcard list. *)
Lemma add_node_again f1 :
  forall node hostname offset A ctxB node1 f2 node2,
    0 <= offset < Z.of_nat (length hostname) ->
    cert_lookup_tree_add_cert_node f1 node (Some A) hostname offset = Some node1 ->
    cert_lookup_tree_add_cert_node f2 node1 ctxB hostname offset = Some node2 ->
    wild_dup hostname node1 node2.
Proof.
  induction f1 as [|f1 IH]; intros node h o A ctxB n1 f2 n2 O A1 A2;
    [discriminate A1|].
  destruct f2 as [|f2]; [discriminate A2|].
  cbn [cert_lookup_tree_add_cert_node] in A1, A2.
  destruct (nth_error (next node) (find_next (next node) (char_at h o)))
    as [cn|] eqn:Hfind.
  - unfold cert_lookup_tree_add_cert_body in A1. rewrite Hfind in A1.
    destruct (walk (fun x => x) (loop_fuel o) (str cn) h (last cn) (first cn) o)
      as [i' j] eqn:Hwalk.
    assert (Bj : -1 <= j <= o)
      by (apply (walk_offset_bounds _ _ _ _ _ _ _ _ Hwalk); lia).
    pose proof (add_body_again node ctxB h o cn) as Again.
    specialize (fun cnX => Again cnX i' j Hfind Hwalk). cbv zeta in Again.
    destruct (i' =? last cn) eqn:Hi.
    + apply Z.eqb_eq in Hi. subst i'.
      destruct (Z.eqb_spec j (-1)) as [Ej|Ej].
      * destruct (ssl_ctx cn) as [c0|] eqn:Hctx; injection A1 as <-.
        -- (* the context was set before *)
           rewrite (add_body_child_end node ctxB h o _ cn j eq_refl Hfind Hwalk)
             in A2.
           destruct (Z.eqb_spec j (-1)); [|contradiction].
           rewrite Hctx in A2. injection A2 as <-. constructor.
        -- (* the first registration set it *)
           rewrite (Again (with_ssl_ctx cn (Some A)) eq_refl eq_refl eq_refl) in A2.
           destruct (Z.eqb_spec j (-1)); [|contradiction].
           cbn [ssl_ctx with_ssl_ctx] in A2. injection A2 as <-. constructor.
      * destruct (cert_lookup_tree_add_cert_node f1 cn (Some A) h j)
          as [cn1|] eqn:R1; [|discriminate A1].
        injection A1 as <-.
        destruct (add_node_header _ _ _ _ _ _ R1) as (Es & Ef & El).
        rewrite (Again cn1 Es Ef El) in A2.
        destruct (Z.eqb_spec j (-1)); [contradiction|].
        destruct (cert_lookup_tree_add_cert_node f2 cn1 ctxB h j)
          as [cn2|] eqn:R2; [|discriminate A2].
        injection A2 as <-. apply wild_dup_child with (cn := cn1).
        -- cbn [next with_next]. apply (set_next_nth _ _ cn). exact Hfind.
        -- eapply IH; [|exact R1|exact R2]. lia.
    + destruct (Z.eqb_spec j (-1)) as [Ej|Ej].
      * (* split, the hostname ends on the upper part *)
        injection A1 as <-.
        rewrite Again in A2 by reflexivity.
        destruct (Z.eqb_spec j (-1)); [|contradiction].
        cbn [ssl_ctx] in A2. injection A2 as <-. constructor.
      * (* split, then below the upper part *)
        destruct (cert_lookup_tree_add_cert_node f1 _ (Some A) h j)
          as [cn1|] eqn:R1; [|discriminate A1].
        injection A1 as <-.
        destruct (add_node_header _ _ _ _ _ _ R1) as (Es & Ef & El).
        cbn [str first last] in Es, Ef, El.
        rewrite (Again cn1 Es Ef El) in A2.
        destruct (Z.eqb_spec j (-1)); [contradiction|].
        destruct (cert_lookup_tree_add_cert_node f2 cn1 ctxB h j)
          as [cn2|] eqn:R2; [|discriminate A2].
        injection A2 as <-. apply wild_dup_child with (cn := cn1).
        -- cbn [next with_next]. apply (set_next_nth _ _ cn). exact Hfind.
        -- eapply IH; [|exact R1|exact R2]. lia.
  - rewrite (add_body_no_child _ _ _ _ Hfind) in A1.
    destruct (Ascii.eqb (char_at h o) STAR) eqn:Hstar; injection A1 as <-.
    + (* the pattern was kept on this node *)
      rewrite add_body_no_child in A2 by exact Hfind.
      rewrite Hstar in A2. injection A2 as <-.
      apply Ascii.eqb_eq in Hstar.
      apply wild_dup_here with (ctx := Some A).
      * rewrite <- Hstar. apply char_at_In. exact O.
      * cbn [wildcard_certs push_wildcard]. apply in_or_app. right. left.
        reflexivity.
    + (* a node was made for the hostname *)
      apply Ascii.eqb_neq in Hstar.
      pose proof (new_leaf_last (Some A) h o ltac:(lia) Hstar) as Bk.
      assert (Scan : 0 <= last (new_leaf (Some A) h o) ->
                     char_at h (last (new_leaf (Some A) h o)) = STAR).
      { apply (scan_wildcard_spec h _ o _ (loop_fuel_enough o) eq_refl). }
      rewrite (add_body_child_end _ ctxB h o (length (next node))
                 (new_leaf (Some A) h o) (last (new_leaf (Some A) h o))) in A2.
      2:{ cbn [next with_next]. apply find_next_app_new; [exact Hfind|reflexivity]. }
      2:{ cbn [next with_next]. apply nth_error_app_new. }
      2:{ apply walk_all_equal; [cbn [first new_leaf]; lia|reflexivity]. }
      destruct (Z.eqb_spec (last (new_leaf (Some A) h o)) (-1)) as [Ek|Ek].
      * assert (Ctx : ssl_ctx (new_leaf (Some A) h o) = Some A).
        { unfold new_leaf in *. cbn [ssl_ctx last] in *. rewrite Ek. reflexivity. }
        rewrite Ctx in A2. injection A2 as <-. constructor.
      * destruct f2 as [|f2]; [discriminate A2|].
        cbn [cert_lookup_tree_add_cert_node] in A2.
        rewrite add_body_no_child in A2 by reflexivity.
        rewrite Scan in A2 by lia. change (Ascii.eqb STAR STAR) with true in A2.
        injection A2 as <-.
        apply wild_dup_child with (cn := new_leaf (Some A) h o).
        -- cbn [next with_next]. apply nth_error_app_new.
        -- apply wild_dup_here with (ctx := Some A).
           ++ rewrite <- Scan by lia. apply char_at_In. lia.
           ++ unfold new_leaf in *. cbn [wildcard_certs last] in *.
              destruct (Z.eqb_spec (scan_wildcard (loop_fuel o) h o) (-1));
                [contradiction|]. left. reflexivity.
Qed.

Lemma add_cert_again lt hostname A ctxB lt1 lt2 :
  hostname_fits hostname ->
  cert_lookup_tree_add_cert lt (Some A) hostname = Some lt1 ->
  cert_lookup_tree_add_cert lt1 ctxB hostname = Some lt2 ->
  (forall query,
      cert_lookup_tree_lookup lt2 query = cert_lookup_tree_lookup lt1 query)
  /\ (~ In STAR hostname -> root lt2 = root lt1).
Proof.
  intros Fit. unfold cert_lookup_tree_add_cert.
  destruct (Z.eqb_spec (Z.of_nat (length hostname)) 0) as [E|E].
  - intros A1 A2. injection A1 as <-. injection A2 as <-. auto.
  - rewrite (top_offset _ Fit).
    destruct (cert_lookup_tree_add_cert_node _ (root lt) _ _ _) as [r1|] eqn:R1;
      [|discriminate].
    intro A1. injection A1 as <-. cbn [root].
    destruct (cert_lookup_tree_add_cert_node _ r1 _ _ _) as [r2|] eqn:R2;
      [|discriminate].
    intro A2. injection A2 as <-. cbn [root].
    assert (D : wild_dup (map util.lowcase hostname) r1 r2).
    { eapply add_node_again; [|exact R1|exact R2]. rewrite length_map. lia. }
    split.
    + intro query. unfold cert_lookup_tree_lookup. cbn [root].
      apply (wild_dup_lookup _ _ _ D).
    + intro NS. apply (wild_dup_no_star _ _ _ (fun I => NS (In_STAR_lowcase _ I)) D).
Qed.

(** The lookup of a hostname in a tree whose root holds nothing but the
    node made for this hostname. *)
Lemma lookup_new_leaf lt cn hostname :
  hostname <> [] -> hostname_fits hostname ->
  root lt = with_next (root cert_lookup_tree_new) [cn] ->
  str cn = map util.lowcase hostname ->
  first cn = Z.of_nat (length hostname) - 1 ->
  -1 <= last cn <= first cn ->
  next cn = [] ->
  cert_lookup_tree_lookup lt hostname
  = if last cn =? -1 then ssl_ctx cn
    else match match_wildcard_certs (wildcard_certs cn) hostname with
         | Some ctx => ctx
         | None => None
         end.
Proof.
  intros NE Fit Er Es Ef Bl En.
  rewrite lookup_root_unfold by (assumption || (rewrite Er; reflexivity)).
  cbv zeta. rewrite Er.
  cbn [root with_next wildcard_certs next cert_lookup_tree_new
       match_wildcard_certs find_next].
  replace (first_char cn)
    with (util.lowcase (char_at hostname (Z.of_nat (length hostname) - 1))).
  2:{ unfold first_char. rewrite Es, Ef. apply char_at_lowcase. }
  rewrite Ascii.eqb_refl. cbn [nth_error].
  rewrite cert_lookup_tree_lookup_node_eq, <- Ef.
  rewrite lookup_own_node by assumption.
  rewrite En. destruct (last cn =? -1); [reflexivity|].
  destruct (match_wildcard_certs (wildcard_certs cn) hostname); [reflexivity|].
  destruct (find_next [] _); reflexivity.
Qed.

(** C4, as the code behaves.  On a fresh tree, registering a non-empty
    hostname with context [A] and then again with context [B] leaves the
    lookup of that hostname at [A], after the first and after the second
    registration.  On any tree, the second of two such registrations
    changes the result of no lookup, and when the hostname holds no [*] it
    leaves every node as it was: a context that is set is not
    overwritten. *)
Theorem C4_first_registration_wins (hostname : list ascii) (A B : SSL_CTX) :
  hostname <> [] ->
  hostname_fits hostname ->
  (exists lt1 lt2,
      cert_lookup_tree_add_cert cert_lookup_tree_new (Some A) hostname = Some lt1
      /\ cert_lookup_tree_add_cert lt1 (Some B) hostname = Some lt2
      /\ cert_lookup_tree_lookup lt1 hostname = Some A
      /\ cert_lookup_tree_lookup lt2 hostname = Some A)
  /\ (forall lt lt1 lt2,
         cert_lookup_tree_add_cert lt (Some A) hostname = Some lt1 ->
         cert_lookup_tree_add_cert lt1 (Some B) hostname = Some lt2 ->
         (forall query,
             cert_lookup_tree_lookup lt2 query = cert_lookup_tree_lookup lt1 query)
         /\ (~ In STAR hostname -> root lt2 = root lt1)).
Proof.
  intros NE Fit. split.
  2:{ intros lt lt1 lt2 E1 E2. exact (add_cert_again _ _ _ _ _ _ Fit E1 E2). }
  destruct (add_cert_returns cert_lookup_tree_new (Some A) hostname
                             tree_ok_new Fit) as (lt1 & E1 & T1).
  destruct (add_cert_returns lt1 (Some B) hostname T1 Fit) as (lt2 & E2 & _).
  exists lt1, lt2. split; [exact E1|]. split; [exact E2|].
  assert (L1 : cert_lookup_tree_lookup lt1 hostname = Some A).
  { clear E2 T1. pose (h := map util.lowcase hostname).
    pose (o := Z.of_nat (length hostname) - 1).
    assert (O : 0 <= o).
    { unfold o. destruct hostname; [contradiction|simpl length; lia]. }
    rewrite (add_cert_unfold cert_lookup_tree_new (Some A) hostname NE Fit) in E1.
    cbv zeta in E1. fold h o in E1.
    rewrite add_body_no_child in E1 by reflexivity.
    destruct (Ascii.eqb (char_at h o) STAR) eqn:Es; injection E1 as <-.
    - (* the hostname ends in a star: the pattern is kept on the root *)
      rewrite lookup_root_unfold by (assumption || reflexivity).
      cbn [root wildcard_certs push_wildcard cert_lookup_tree_new app].
      unfold h. rewrite match_wildcard_certs_own. reflexivity.
    - (* a node is made for the hostname *)
      apply Ascii.eqb_neq in Es.
      pose proof (new_leaf_last (Some A) h o O Es) as Bk.
      rewrite (lookup_new_leaf _ (new_leaf (Some A) h o) hostname NE Fit);
        try reflexivity; [|cbn [first new_leaf]; lia].
      unfold new_leaf in *. cbn [last ssl_ctx wildcard_certs] in *.
      destruct (scan_wildcard (loop_fuel o) h o =? -1); [reflexivity|].
      unfold h. rewrite match_wildcard_certs_own. reflexivity. }
  split; [exact L1|].
  rewrite (proj1 (add_cert_again _ _ _ _ _ _ Fit E1 E2)). exact L1.
Qed.

Lemma C4_first_registration_wins_witness :
  s "www.Example.com" <> []
  /\ hostname_fits (s "www.Example.com")
  /\ exists lt1 lt2,
      cert_lookup_tree_add_cert cert_lookup_tree_new (Some 1%nat)
                                (s "www.Example.com") = Some lt1
      /\ cert_lookup_tree_add_cert lt1 (Some 2%nat) (s "www.Example.com")
         = Some lt2
      /\ cert_lookup_tree_lookup lt1 (s "www.Example.com") = Some 1%nat
      /\ cert_lookup_tree_lookup lt2 (s "www.Example.com") = Some 1%nat.
Proof.
  assert (NE : s "www.Example.com" <> []) by discriminate.
  assert (Fit : hostname_fits (s "www.Example.com")).
  { unfold hostname_fits, INT_MAX. simpl. lia. }
  split; [exact NE|]. split; [exact Fit|].
  exact (proj1 (C4_first_registration_wins (s "www.Example.com") 1%nat 2%nat
                                           NE Fit)).
Defined.

(** C4 as stated fails for the empty hostname: both insertions return at
    once and the lookup of the empty hostname finds nothing. *)
Lemma C4_empty_hostname_not_bound :
  ~ (exists lt1 lt2,
        cert_lookup_tree_add_cert cert_lookup_tree_new (Some 1%nat) [] = Some lt1
        /\ cert_lookup_tree_add_cert lt1 (Some 2%nat) [] = Some lt2
        /\ cert_lookup_tree_lookup lt2 [] = Some 1%nat).
Proof.
  intros (lt1 & lt2 & E1 & E2 & L).
  cbn in E1. injection E1 as <-.
  cbn in E2. injection E2 as <-.
  vm_compute in L. discriminate L.
Qed.

(** * Further properties *)

(** ** Protocol lists *)

Lemma memcmp_chars_eq n a b :
  length a = n -> (n <= length b)%nat ->
  memcmp_chars n a b = true <-> a = firstn n b.
Proof.
  revert a b. induction n as [|n IH]; intros a b La Lb.
  - destruct a; [|discriminate La]. simpl. split; reflexivity.
  - destruct a as [|x a]; [discriminate La|].
    destruct b as [|y b]; [simpl in Lb; lia|]. simpl in *.
    rewrite andb_true_iff, Ascii.eqb_eq, (IH a b) by lia. split.
    + intros [-> ->]. reflexivity.
    + intro E. injection E as -> ->. auto.
Qed.

Lemma alpn_parse_fuel fuel1 fuel2 p :
  (length p <= fuel1)%nat -> (length p <= fuel2)%nat ->
  alpn_parse fuel1 p = alpn_parse fuel2 p.
Proof.
  revert fuel2 p. induction fuel1 as [|f1 IH]; intros fuel2 p L1 L2.
  - destruct p; [|simpl in L1; lia]. destruct fuel2; reflexivity.
  - destruct fuel2 as [|f2].
    + destruct p; [reflexivity|simpl in L2; lia].
    + destruct p as [|b proto_id]; [reflexivity|]. simpl in *.
      destruct (nat_of_ascii b <=? length proto_id)%nat; [|reflexivity].
      f_equal. apply IH; rewrite length_skipn; lia.
Qed.

(** One target against the client's list: found exactly when it is one of
    the whole entries, and then it is the target that is handed out. *)
Lemma alpn_scan_spec target fuel :
  forall p,
    (length p <= fuel)%nat ->
    (In target (alpn_parse fuel p) -> alpn_scan fuel target p = Some target)
    /\ (~ In target (alpn_parse fuel p) -> alpn_scan fuel target p = None).
Proof.
  induction fuel as [|fuel IH]; intros p L.
  - simpl. split; [intros []|reflexivity].
  - destruct p as [|b proto_id]; [simpl; split; [intros []|reflexivity]|].
    simpl in L. cbn [alpn_scan alpn_parse].
    destruct (Nat.leb_spec (nat_of_ascii b) (length proto_id)) as [Lb|Lb].
    + assert (Ls : (length (skipn (nat_of_ascii b) proto_id) <= fuel)%nat)
        by (rewrite length_skipn; lia).
      destruct (IH _ Ls) as [IH1 IH2]. cbn [andb].
      destruct (Nat.eqb_spec (length target) (nat_of_ascii b)) as [Lt|Lt];
        cbn [andb].
      * destruct (memcmp_chars (nat_of_ascii b) target proto_id) eqn:M.
        -- apply (memcmp_chars_eq _ _ _ Lt Lb) in M. rewrite <- M.
           split; [reflexivity|]. intro N. exfalso. apply N. left. reflexivity.
        -- split.
           ++ intros [E|I]; [|exact (IH1 I)].
              symmetry in E. apply (memcmp_chars_eq _ _ _ Lt Lb) in E.
              congruence.
           ++ intro N. apply IH2. intro I. apply N. right. exact I.
      * split.
        -- intros [E|I]; [|exact (IH1 I)]. exfalso. apply Lt. rewrite <- E.
           rewrite length_firstn. lia.
        -- intro N. apply IH2. intro I. apply N. right. exact I.
    + cbn [andb]. split; [intros []|].
      intros _. destruct fuel as [|fuel']; [reflexivity|].
      rewrite skipn_all2 by lia. reflexivity.
Qed.

Lemma alpn_scan_entries target inp :
  (In target (alpn_entries inp) -> alpn_scan (length inp) target inp = Some target)
  /\ (~ In target (alpn_entries inp) -> alpn_scan (length inp) target inp = None).
Proof. apply alpn_scan_spec. lia. Qed.

Lemma alpn_entries_dec target inp :
  In target (alpn_entries inp) \/ ~ In target (alpn_entries inp).
Proof.
  destruct (in_dec (list_eq_dec ascii_dec) target (alpn_entries inp)); auto.
Qed.

(** X1.  [alpn_select_proto_cb] hands out the first protocol of the
    server's list, in the server's order, that is a whole entry of the
    client's list, wherever it stands there; it answers NOACK exactly when
    no protocol of the server's list is such an entry.  An entry cut short
    by the end of the buffer is never selected. *)
Theorem X1_alpn_select_server_preference (npn_list : list cstring)
        (inp : list ascii) :
  (forall out,
      alpn_select_proto_cb npn_list inp = (SSL_TLSEXT_ERR_OK, Some out)
      <-> exists before after,
          npn_list = before ++ out :: after
          /\ In out (alpn_entries inp)
          /\ forall t, In t before -> ~ In t (alpn_entries inp))
  /\ (alpn_select_proto_cb npn_list inp = (SSL_TLSEXT_ERR_NOACK, None)
      <-> forall t, In t npn_list -> ~ In t (alpn_entries inp)).
Proof.
  unfold alpn_select_proto_cb.
  assert (S : forall out,
             alpn_select npn_list inp = Some out
             <-> exists before after,
                 npn_list = before ++ out :: after
                 /\ In out (alpn_entries inp)
                 /\ forall t, In t before -> ~ In t (alpn_entries inp)).
  { induction npn_list as [|target rest IH]; intro out; cbn [alpn_select].
    - split; [discriminate|]. intros (before & after & E & _).
      destruct before; discriminate E.
    - destruct (alpn_scan_entries target inp) as [S1 S2].
      destruct (alpn_entries_dec target inp) as [I|N].
      + rewrite (S1 I). split.
        * intro E. injection E as <-. exists [], rest.
          split; [reflexivity|]. split; [exact I|]. intros t [].
        * intros (before & after & E & Io & Nb).
          destruct before as [|t before]; injection E as E1 E2.
          -- rewrite E1. reflexivity.
          -- exfalso. apply (Nb t); [left; reflexivity|]. rewrite <- E1. exact I.
      + rewrite (S2 N), IH. split.
        * intros (before & after & E & Io & Nb).
          exists (target :: before), after. split; [rewrite E; reflexivity|].
          split; [exact Io|]. intros t [<-|It]; [exact N|exact (Nb t It)].
        * intros (before & after & E & Io & Nb).
          destruct before as [|t before]; injection E as E1 E2.
          -- exfalso. apply N. rewrite E1. exact Io.
          -- exists before, after. split; [exact E2|]. split; [exact Io|].
             intros t' It. apply Nb. right. exact It. }
  assert (Nn : alpn_select npn_list inp = None
               <-> forall t, In t npn_list -> ~ In t (alpn_entries inp)).
  { clear S. induction npn_list as [|target rest IH]; cbn [alpn_select].
    - split; [intros _ t []|reflexivity].
    - destruct (alpn_scan_entries target inp) as [S1 S2].
      destruct (alpn_entries_dec target inp) as [I|N].
      + rewrite (S1 I). split; [discriminate|]. intro N. exfalso.
        apply (N target); [left; reflexivity|exact I].
      + rewrite (S2 N), IH. split.
        * intros H t [<-|It]; [exact N|exact (H t It)].
        * intros H t It. apply H. right. exact It. }
  split.
  - intro out. rewrite <- S.
    destruct (alpn_select npn_list inp) as [o|]; split; intro E;
      try discriminate E; injection E as <-; reflexivity.
  - rewrite <- Nn.
    destruct (alpn_select npn_list inp) as [o|]; split; intro E;
      try discriminate E; reflexivity.
Qed.
Lemma alpn_prefs_len_spec protos :
  forall len,
    alpn_prefs_len protos len
    = if forallb (fun proto => (length proto <=? 255)%nat) protos
      then Some (len + alpn_encoded_len protos)%nat
      else None.
Proof.
  unfold alpn_encoded_len.
  induction protos as [|proto rest IH]; intro len;
    cbn [alpn_prefs_len forallb map list_sum].
  - rewrite Nat.add_0_r. reflexivity.
  - destruct (Nat.ltb_spec 255 (length proto)) as [L|L].
    + destruct (Nat.leb_spec (length proto) 255); [lia|]. reflexivity.
    + destruct (Nat.leb_spec (length proto) 255); [|lia]. cbn [andb].
      rewrite IH.
      destruct (forallb (fun proto => (length proto <=? 255)%nat) rest);
        [|reflexivity].
      f_equal. simpl. lia.
Qed.

Lemma alpn_prefs_fill_length protos :
  length (alpn_prefs_fill protos) = alpn_encoded_len protos.
Proof.
  unfold alpn_encoded_len. induction protos as [|proto rest IH]; simpl;
    [reflexivity|]. rewrite length_app, IH. reflexivity.
Qed.

Lemma alpn_parse_fill protos :
  forall fuel,
    Forall (fun proto => (length proto <= 255)%nat) protos ->
    (length (alpn_prefs_fill protos) <= fuel)%nat ->
    alpn_parse fuel (alpn_prefs_fill protos) = protos.
Proof.
  induction protos as [|proto rest IH]; intros fuel F L.
  - destruct fuel; reflexivity.
  - inversion F as [|x l Fp Fr]; subst.
    cbn [alpn_prefs_fill] in *. cbn [length] in L. rewrite length_app in L.
    destruct fuel as [|fuel]; [lia|]. cbn [alpn_parse].
    rewrite nat_ascii_embedding by lia.
    destruct (Nat.leb_spec (length proto) (length (proto ++ alpn_prefs_fill rest)))
      as [Lb|Lb]; [|rewrite length_app in Lb; lia].
    rewrite firstn_app, Nat.sub_diag, firstn_all, firstn_O, app_nil_r.
    rewrite skipn_app, Nat.sub_diag, skipn_all, skipn_O. cbn [app].
    rewrite IH by (assumption || lia). reflexivity.
Qed.

(** X2.  What [set_alpn_prefs] returns is read back entry by entry as the
    list it was made from: its length is the sum of the identifier lengths
    plus one byte each and fits 16 bits, no identifier is longer than 255
    bytes, and the entries of the encoding are the protocols in their
    order.  So a peer that echoes the encoding is answered with the first
    protocol of the server's list that it holds. *)
Theorem X2_set_alpn_prefs_round_trip (protos : list cstring) (out : list ascii) :
  set_alpn_prefs protos = Some out ->
  length out = alpn_encoded_len protos
  /\ Z.of_nat (length out) <= 65535
  /\ Forall (fun proto => (length proto <= 255)%nat) protos
  /\ alpn_entries out = protos
  /\ forall npn_list,
      alpn_select_proto_cb npn_list out
      = match find (fun t => if in_dec (list_eq_dec ascii_dec) t protos
                             then true else false) npn_list with
        | Some t => (SSL_TLSEXT_ERR_OK, Some t)
        | None => (SSL_TLSEXT_ERR_NOACK, None)
        end.
Proof.
  unfold set_alpn_prefs. rewrite alpn_prefs_len_spec.
  destruct (forallb (fun proto => (length proto <=? 255)%nat) protos) eqn:F;
    [|discriminate].
  cbn [Nat.add].
  destruct (Z.ltb_spec (2 ^ 16 - 1) (Z.of_nat (alpn_encoded_len protos)))
    as [L|L]; [discriminate|].
  intro E. injection E as <-.
  assert (Fp : Forall (fun proto => (length proto <= 255)%nat) protos).
  { apply Forall_forall. intros x I. rewrite forallb_forall in F.
    apply Nat.leb_le. exact (F x I). }
  assert (En : alpn_entries (alpn_prefs_fill protos) = protos).
  { unfold alpn_entries. apply alpn_parse_fill; [exact Fp|lia]. }
  rewrite alpn_prefs_fill_length.
  split; [reflexivity|]. split; [lia|]. split; [exact Fp|].
  split; [exact En|].
  intro npn_list. unfold alpn_select_proto_cb.
  replace (alpn_select npn_list (alpn_prefs_fill protos))
    with (find (fun t => if in_dec (list_eq_dec ascii_dec) t protos
                         then true else false) npn_list);
    [destruct (find (fun t => if in_dec (list_eq_dec ascii_dec) t protos
                              then true else false) npn_list); reflexivity|].
  induction npn_list as [|target rest IH]; cbn [find alpn_select]; [reflexivity|].
  destruct (alpn_scan_entries target (alpn_prefs_fill protos)) as [S1 S2].
  rewrite En in S1, S2.
  destruct (in_dec (list_eq_dec ascii_dec) target protos) as [I|N].
  - rewrite (S1 I). reflexivity.
  - rewrite (S2 N). exact IH.
Qed.

Lemma X2_set_alpn_prefs_round_trip_witness :
  set_alpn_prefs [s "h2"; s "http/1.1"]
  = Some (s (String (ascii_of_nat 2) "h2" ++ String (ascii_of_nat 8) "http/1.1"))
  /\ alpn_entries
       (s (String (ascii_of_nat 2) "h2" ++ String (ascii_of_nat 8) "http/1.1"))
     = [s "h2"; s "http/1.1"].
Proof.
  assert (E : set_alpn_prefs [s "h2"; s "http/1.1"]
              = Some (s (String (ascii_of_nat 2) "h2"
                         ++ String (ascii_of_nat 8) "http/1.1")))
    by reflexivity.
  split; [exact E|].
  exact (proj1 (proj2 (proj2 (proj2
           (X2_set_alpn_prefs_round_trip _ _ E))))).
Defined.

(** X3.  [set_alpn_prefs] gives up ([DIE()]) exactly when an identifier is
    longer than 255 bytes or the encoding would be longer than 65535
    bytes. *)
Theorem X3_set_alpn_prefs_rejects (protos : list cstring) :
  set_alpn_prefs protos = None
  <-> (exists proto, In proto protos /\ (255 < length proto)%nat)
      \/ 65535 < Z.of_nat (alpn_encoded_len protos).
Proof.
  unfold set_alpn_prefs. rewrite alpn_prefs_len_spec.
  destruct (forallb (fun proto => (length proto <=? 255)%nat) protos) eqn:F.
  - cbn [Nat.add].
    destruct (Z.ltb_spec (2 ^ 16 - 1) (Z.of_nat (alpn_encoded_len protos)))
      as [L|L].
    + split; [|reflexivity]. intros _. right. lia.
    + split; [discriminate|]. intros [(proto & I & Lp)|Lt].
      * rewrite forallb_forall in F. specialize (F proto I).
        apply Nat.leb_le in F. lia.
      * lia.
  - split; [|reflexivity]. intros _. left.
    assert (Ex : existsb (fun proto => negb (length proto <=? 255)%nat) protos = true).
    { clear -F. induction protos as [|x l IH]; [discriminate F|]. simpl in *.
      destruct (length x <=? 255)%nat; [|reflexivity]. simpl in *. auto. }
    apply existsb_exists in Ex. destruct Ex as (proto & I & Lp).
    exists proto. split; [exact I|].
    apply negb_true_iff, Nat.leb_gt in Lp. exact Lp.
Qed.
(** ** The protocol list check *)

Lemma in_proto_list_spec protos needle :
  in_proto_list protos needle = true <-> In needle protos.
Proof.
  induction protos as [|proto rest IH]; cbn [in_proto_list In].
  - split; [discriminate|intros []].
  - destruct (Nat.eqb_spec (length proto) (length needle)) as [L|L];
      cbn [andb].
    + destruct (memcmp_chars (length needle) proto needle) eqn:M.
      * split; [|reflexivity]. intros _. left.
        apply (proj1 (memcmp_chars_eq _ _ _ L (Nat.le_refl _))) in M.
        rewrite firstn_all in M. exact M.
      * rewrite IH. split; [auto|]. intros [E|I]; [|exact I].
        exfalso. subst needle.
        assert (T : memcmp_chars (length proto) proto proto = true).
        { apply (memcmp_chars_eq _ _ _ eq_refl (Nat.le_refl _)).
          symmetry. apply firstn_all. }
        congruence.
    + rewrite IH. split; [auto|]. intros [E|I]; [|exact I].
      exfalso. apply L. rewrite E. reflexivity.
Qed.

Lemma alpn_select_In npn_list inp out :
  alpn_select npn_list inp = Some out ->
  In out npn_list /\ In out (alpn_entries inp).
Proof.
  induction npn_list as [|target rest IH]; cbn [alpn_select];
    [discriminate|].
  destruct (alpn_entries_dec target inp) as [I|N].
  - rewrite (proj1 (alpn_scan_entries target inp) I). intro E.
    injection E as <-. split; [left; reflexivity|exact I].
  - rewrite (proj2 (alpn_scan_entries target inp) N). intro E.
    destruct (IH E) as [I1 I2]. split; [right; exact I1|exact I2].
Qed.

(** X20.  [in_proto_list] holds exactly of the needles that are, byte for
    byte, one of the protocols of the list; so the protocol that
    [alpn_select_proto_cb] selects always passes [in_proto_list] for the
    list it was selected from, and it is an entry that the peer sent. *)
Theorem X20_selected_protocol_in_list (npn_list : list cstring)
        (inp : list ascii) :
  (forall protos needle,
      in_proto_list protos needle = true <-> In needle protos)
  /\ match alpn_select_proto_cb npn_list inp with
     | (code, Some out) =>
         code = SSL_TLSEXT_ERR_OK
         /\ in_proto_list npn_list out = true
         /\ In out (alpn_entries inp)
     | (code, None) => code = SSL_TLSEXT_ERR_NOACK
     end.
Proof.
  split; [exact in_proto_list_spec|].
  unfold alpn_select_proto_cb.
  destruct (alpn_select npn_list inp) as [out|] eqn:E; [|reflexivity].
  destruct (alpn_select_In _ _ _ E) as [I1 I2].
  split; [reflexivity|]. split; [|exact I2].
  apply in_proto_list_spec. exact I1.
Qed.
(** ** The TLS protocol version mask *)

Lemma tls_proto_listed_spec name tls_proto_list :
  tls_proto_listed name tls_proto_list = true
  <-> exists t, In t tls_proto_list /\ case_equal name t.
Proof.
  induction tls_proto_list as [|t rest IH]; simpl.
  - split; [discriminate|]. intros (t & [] & _).
  - destruct (util.strieq name t) eqn:E.
    + split; [|reflexivity]. intros _. exists t. split; [left; reflexivity|].
      apply strieq_case_equal. exact E.
    + rewrite IH. split.
      * intros (t' & I & C). exists t'. split; [right; exact I|exact C].
      * intros (t' & [<-|I] & C).
        -- apply strieq_case_equal in C. congruence.
        -- exists t'. auto.
Qed.

(** X4.  Whatever three distinct option bits stand for the three versions,
    the mask of [create_tls_proto_mask] holds the bit of a version exactly
    when the version is not listed, the list being read without regard to
    case, order, repetition or other tokens; and it holds no bit but
    these. *)
Theorem X4_tls_proto_mask_bits (no_tlsv1_2 no_tlsv1_1 no_tlsv1 : Z)
        (tls_proto_list : list cstring) :
  no_tlsv1_2 <> 0 -> no_tlsv1_1 <> 0 -> no_tlsv1 <> 0 ->
  Z.land no_tlsv1_2 no_tlsv1_1 = 0 ->
  Z.land no_tlsv1_2 no_tlsv1 = 0 ->
  Z.land no_tlsv1_1 no_tlsv1 = 0 ->
  let mask := create_tls_proto_mask no_tlsv1_2 no_tlsv1_1 no_tlsv1
                                    tls_proto_list in
  let listed name := exists t, In t tls_proto_list /\ case_equal (s name) t in
  (Z.land mask no_tlsv1_2 = (if tls_proto_listed (s "TLSv1.2") tls_proto_list
                             then 0 else no_tlsv1_2))
  /\ (Z.land mask no_tlsv1_1 = (if tls_proto_listed (s "TLSv1.1") tls_proto_list
                                then 0 else no_tlsv1_1))
  /\ (Z.land mask no_tlsv1 = (if tls_proto_listed (s "TLSv1.0") tls_proto_list
                              then 0 else no_tlsv1))
  /\ (Z.land mask no_tlsv1_2 = 0 <-> listed "TLSv1.2"%string)
  /\ (Z.land mask no_tlsv1_1 = 0 <-> listed "TLSv1.1"%string)
  /\ (Z.land mask no_tlsv1 = 0 <-> listed "TLSv1.0"%string)
  /\ Z.land mask (Z.lor no_tlsv1_2 (Z.lor no_tlsv1_1 no_tlsv1)) = mask.
Proof.
  intros N2 N1 N0 D21 D20 D10. cbv zeta.
  assert (D12 : Z.land no_tlsv1_1 no_tlsv1_2 = 0) by (rewrite Z.land_comm; exact D21).
  assert (D02 : Z.land no_tlsv1 no_tlsv1_2 = 0) by (rewrite Z.land_comm; exact D20).
  assert (D01 : Z.land no_tlsv1 no_tlsv1_1 = 0) by (rewrite Z.land_comm; exact D10).
  rewrite <- !tls_proto_listed_spec.
  unfold create_tls_proto_mask, tls_names. cbn [tls_proto_mask_loop].
  destruct (tls_proto_listed (s "TLSv1.2") tls_proto_list);
    destruct (tls_proto_listed (s "TLSv1.1") tls_proto_list);
    destruct (tls_proto_listed (s "TLSv1.0") tls_proto_list);
    rewrite ?Z.lor_0_l, ?Z.land_lor_distr_l, ?Z.land_lor_distr_r, ?Z.land_diag,
      ?D21, ?D20, ?D10, ?D12, ?D02, ?D01, ?Z.land_0_l, ?Z.lor_0_l, ?Z.lor_0_r;
    repeat split; try reflexivity; try discriminate; try contradiction;
      try (intro; congruence).
Qed.

Lemma X4_tls_proto_mask_bits_witness :
  Z.land (create_tls_proto_mask 134217728 268435456 67108864
                                [s "tlsv1.2"; s "SSLv3"; s "TLSv1.2"])
         134217728 = 0
  /\ Z.land (create_tls_proto_mask 134217728 268435456 67108864
                                   [s "tlsv1.2"; s "SSLv3"; s "TLSv1.2"])
            268435456 = 268435456.
Proof.
  destruct (X4_tls_proto_mask_bits 134217728 268435456 67108864
              [s "tlsv1.2"; s "SSLv3"; s "TLSv1.2"])
    as (B2 & B1 & _); try discriminate; try reflexivity.
  split; [exact B2|exact B1].
Defined.
(** ** Verification of the peer's certificate names *)

Lemma verify_dns_names_spec hostname dns_names :
  (verify_dns_names hostname dns_names = 0
   <-> exists name, In name dns_names
                    /\ tls_hostname_match (c_str name) hostname = true)
  /\ (verify_dns_names hostname dns_names = 0
      \/ verify_dns_names hostname dns_names = -1).
Proof.
  induction dns_names as [|name rest [IH1 IH2]]; simpl.
  - split; [|right; reflexivity]. split; [discriminate|]. intros (n & [] & _).
  - destruct (tls_hostname_match (c_str name) hostname) eqn:M.
    + split; [|left; reflexivity]. split; [|reflexivity].
      intros _. exists name. auto.
    + split; [|exact IH2]. rewrite IH1. split.
      * intros (n & I & Mn). exists n. auto.
      * intros (n & [<-|I] & Mn); [congruence|]. exists n. auto.
Qed.

Lemma verify_ip_addrs_spec saddr salen ip_addrs :
  verify_ip_addrs saddr salen ip_addrs = 0
  <-> exists ip, In ip ip_addrs /\ length ip = salen
                 /\ memcmp_chars salen saddr ip = true.
Proof.
  induction ip_addrs as [|ip rest IH]; simpl.
  - split; [discriminate|]. intros (n & [] & _).
  - destruct (Nat.eqb_spec salen (length ip)) as [E|E]; cbn [andb].
    + destruct (memcmp_chars salen saddr ip) eqn:M.
      * split; [|reflexivity]. intros _. exists ip. auto.
      * rewrite IH. split.
        -- intros (n & I & Mn). exists n. auto.
        -- intros (n & [<-|I] & L & Mn); [congruence|]. exists n. auto.
    + rewrite IH. split.
      * intros (n & I & Mn). exists n. auto.
      * intros (n & [<-|I] & L & Mn); [congruence|]. exists n. auto.
Qed.

(** X5.  For a hostname that is not numeric, [verify_hostname] accepts
    (returns 0, and -1 otherwise) exactly when one of the certificate's DNS
    names matches it or, the certificate having no DNS name at all, its
    common name does.  As soon as there is a DNS name the common name is not
    looked at, nor are the IP addresses or the socket address; and hostnames
    that differ in case only are judged alike. *)
Theorem X5_verify_hostname_dns (numeric_host : cstring -> bool)
        (hostname : cstring) (su : sockaddr_union) (salen : nat)
        (dns_names ip_addrs : list (list ascii)) (common_name : list ascii) :
  numeric_host hostname = false ->
  let result := verify_hostname numeric_host hostname su salen dns_names
                                ip_addrs common_name in
  (result = 0
   <-> (dns_names = []
        /\ tls_hostname_match (c_str common_name) hostname = true)
       \/ exists name, In name dns_names
                       /\ tls_hostname_match (c_str name) hostname = true)
  /\ (result = 0 \/ result = -1)
  /\ (dns_names <> [] ->
      forall su' salen' ip_addrs' common_name',
        verify_hostname numeric_host hostname su' salen' dns_names ip_addrs'
                        common_name' = result)
  /\ (forall hostname',
         case_equal hostname hostname' -> numeric_host hostname' = false ->
         verify_hostname numeric_host hostname' su salen dns_names ip_addrs
                         common_name = result).
Proof.
  intros Nh. cbv zeta. unfold verify_hostname. rewrite Nh.
  split; [|split; [|split]].
  - destruct dns_names as [|name rest].
    + destruct (tls_hostname_match (c_str common_name) hostname).
      * split; [auto|reflexivity].
      * split; [discriminate|]. intros [[_ E]|(n & [] & _)]. discriminate E.
    + rewrite (proj1 (verify_dns_names_spec hostname (name :: rest))).
      split; [auto|]. intros [[E _]|H]; [discriminate E|exact H].
  - destruct dns_names as [|name rest].
    + destruct (tls_hostname_match (c_str common_name) hostname); auto.
    + apply verify_dns_names_spec.
  - intros Nd su' salen' ip_addrs' common_name'.
    destruct dns_names; [contradiction|reflexivity].
  - intros hostname' C Nh'. rewrite Nh'.
    assert (M : forall p, tls_hostname_match p hostname'
                          = tls_hostname_match p hostname).
    { intro p. symmetry. apply tls_hostname_match_case_equal. exact C. }
    destruct dns_names as [|name rest]; [rewrite M; reflexivity|].
    generalize (name :: rest). intro l.
    induction l as [|n l IH]; simpl; [reflexivity|]. rewrite M, IH. reflexivity.
Qed.

Lemma X5_verify_hostname_dns_witness :
  verify_hostname (fun _ => false) (s "WWW.example.com")
                  (mk_sockaddr_union AF_OTHER [] []) 0
                  [s "example.org"; s "*.example.com"] [] (s "localhost") = 0
  /\ verify_hostname (fun _ => false) (s "localhost")
                     (mk_sockaddr_union AF_OTHER [] []) 0
                     [s "example.org"; s "*.example.com"] [] (s "localhost") = -1.
Proof.
  split.
  - apply (proj1 (X5_verify_hostname_dns (fun _ => false) (s "WWW.example.com")
                    (mk_sockaddr_union AF_OTHER [] []) 0
                    [s "example.org"; s "*.example.com"] [] (s "localhost")
                    eq_refl)).
    right. exists (s "*.example.com"). split; [right; left; reflexivity|].
    reflexivity.
  - destruct (proj1 (proj2 (X5_verify_hostname_dns (fun _ => false)
                    (s "localhost") (mk_sockaddr_union AF_OTHER [] []) 0
                    [s "example.org"; s "*.example.com"] [] (s "localhost")
                    eq_refl))) as [E|E]; [|exact E].
    exfalso. vm_compute in E. discriminate E.
Defined.

(** X6.  For a numeric hostname, [verify_hostname] accepts exactly when the
    certificate has no IP address and its common name equals the hostname
    up to case, without wildcard, or when the socket address is IPv4 or
    IPv6 and one of the certificate's IP addresses has [salen] bytes that
    are the bytes found at the socket's address.  The DNS names are never
    looked at. *)
Theorem X6_verify_hostname_numeric (numeric_host : cstring -> bool)
        (hostname : cstring) (su : sockaddr_union) (salen : nat)
        (dns_names ip_addrs : list (list ascii)) (common_name : list ascii) :
  numeric_host hostname = true ->
  let result := verify_hostname numeric_host hostname su salen dns_names
                                ip_addrs common_name in
  (result = 0
   <-> (ip_addrs = [] /\ case_equal (c_str common_name) hostname)
       \/ (exists saddr ip,
              (ss_family su = AF_INET /\ saddr = sin_addr su
               \/ ss_family su = AF_INET6 /\ saddr = sin6_addr su)
              /\ In ip ip_addrs /\ length ip = salen
              /\ memcmp_chars salen saddr ip = true))
  /\ (forall dns_names',
         verify_hostname numeric_host hostname su salen dns_names' ip_addrs
                         common_name = result).
Proof.
  intros Nh. cbv zeta. unfold verify_hostname. rewrite Nh.
  split; [|reflexivity].
  destruct ip_addrs as [|ip0 rest].
  - rewrite <- strieq_case_equal.
    destruct (util.strieq (c_str common_name) hostname).
    + split; [auto|reflexivity].
    + split; [discriminate|].
      intros [[_ E]|(saddr & ip & _ & [] & _)]. discriminate E.
  - destruct (ss_family su) eqn:Fam.
    + rewrite verify_ip_addrs_spec. split.
      * intros (ip & I & L & M). right. exists (sin_addr su), ip. auto.
      * intros [[E _]|(saddr & ip & [[_ ->]|[F _]] & I & L & M)];
          [discriminate E| |discriminate F]. exists ip. auto.
    + rewrite verify_ip_addrs_spec. split.
      * intros (ip & I & L & M). right. exists (sin6_addr su), ip. auto 6.
      * intros [[E _]|(saddr & ip & [[F _]|[_ ->]] & I & L & M)];
          [discriminate E|discriminate F|]. exists ip. auto.
    + split; [discriminate|].
      intros [[E _]|(saddr & ip & [[F _]|[F _]] & _)]; discriminate.
Qed.

Lemma X6_verify_hostname_numeric_witness :
  verify_hostname (fun _ => true) (s "127.0.0.1")
                  (mk_sockaddr_union AF_INET
                     [ascii_of_nat 127; zero; zero; ascii_of_nat 1] [])
                  4 [s "127.0.0.1"]
                  [[ascii_of_nat 127; zero; zero; ascii_of_nat 1]] [] = 0.
Proof.
  apply (proj1 (X6_verify_hostname_numeric (fun _ => true) (s "127.0.0.1")
                  (mk_sockaddr_union AF_INET
                     [ascii_of_nat 127; zero; zero; ascii_of_nat 1] [])
                  4 [s "127.0.0.1"]
                  [[ascii_of_nat 127; zero; zero; ascii_of_nat 1]] [] eq_refl)).
  right. exists [ascii_of_nat 127; zero; zero; ascii_of_nat 1],
                [ascii_of_nat 127; zero; zero; ascii_of_nat 1].
  split; [left; split; reflexivity|].
  split; [left; reflexivity|]. split; reflexivity.
Defined.

(** ** The passphrase callback *)



(** ** Insertion followed by lookup *)

Lemma walk_intro conv nstr hostname nlast i0 j0 k :
  0 <= k ->
  (forall t, 0 <= t < k ->
             i0 - t > nlast /\ j0 - t >= 0
             /\ char_at nstr (i0 - t) = conv (char_at hostname (j0 - t))) ->
  ~ (i0 - k > nlast /\ j0 - k >= 0
     /\ char_at nstr (i0 - k) = conv (char_at hostname (j0 - k))) ->
  walk conv (loop_fuel j0) nstr hostname nlast i0 j0 = (i0 - k, j0 - k).
Proof.
  intros K A S.
  destruct (walk conv (loop_fuel j0) nstr hostname nlast i0 j0) as [i j] eqn:W.
  destruct (walk_spec conv nstr hostname nlast _ _ _ _ _ (loop_fuel_enough j0) W)
    as (k' & K' & -> & -> & A' & S').
  assert (E : k = k').
  { destruct (Z.lt_trichotomy k k') as [L|[E|L]]; [|exact E|].
    - exfalso. apply S. apply A'. lia.
    - exfalso. apply S'. apply A. lia. }
  subst k'. reflexivity.
Qed.

Lemma lookup_node_unfold node hostname offset :
  cert_lookup_tree_lookup_node node hostname offset
  = let '(i, j) := walk util.lowcase (loop_fuel offset) (str node) hostname
                        (last node) (first node) offset in
    if negb (i =? last node) then None
    else if j =? -1 then ssl_ctx node
    else lookup_below node hostname j.
Proof.
  rewrite cert_lookup_tree_lookup_node_eq.
  unfold cert_lookup_tree_lookup_body, lookup_below.
  destruct (walk util.lowcase (loop_fuel offset) (str node) hostname
                 (last node) (first node) offset) as [i j].
  destruct (negb (i =? last node)); [reflexivity|].
  destruct (j =? -1); [reflexivity|].
  destruct (match_wildcard_certs (wildcard_certs node) hostname);
    [reflexivity|].
  destruct (nth_error (next node)
              (find_next (next node) (util.lowcase (char_at hostname j))));
    reflexivity.
Qed.
Lemma edge_end cn ctx h o :
  walk (fun x => x) (loop_fuel o) (str cn) h (last cn) (first cn) o
  = (last cn, -1) ->
  forall query j,
    0 <= j ->
    (same_name h o query j ->
     cert_lookup_tree_lookup_node
       (with_ssl_ctx cn (first_wins (ssl_ctx cn) ctx)) query j
     = first_wins (cert_lookup_tree_lookup_node cn query j) ctx)
    /\ (~ same_name h o query j ->
        cert_lookup_tree_lookup_node
          (with_ssl_ctx cn (first_wins (ssl_ctx cn) ctx)) query j
        = cert_lookup_tree_lookup_node cn query j).
Proof.
  intros Wh query j J.
  destruct (walk_spec _ _ _ _ _ _ _ _ _ (loop_fuel_enough _) Wh)
    as (k & K & Ei & Ej & A & _).
  rewrite !lookup_node_unfold. cbn [with_ssl_ctx str first last ssl_ctx].
  destruct (walk util.lowcase (loop_fuel j) (str cn) query (last cn)
                 (first cn) j) as [iq jq] eqn:Wq.
  destruct (walk_spec _ _ _ _ _ _ _ _ _ (loop_fuel_enough _) Wq)
    as (kq & Kq & Eiq & Ejq & Aq & _).
  split.
  - intros [-> Sn].
    assert (Wq' : walk util.lowcase (loop_fuel o) (str cn) query (last cn)
                       (first cn) o = (first cn - k, o - k)).
    { apply walk_intro; [exact K| |lia].
      intros t T. destruct (A t T) as (A1 & A2 & A3).
      split; [exact A1|]. split; [exact A2|].
      rewrite A3. symmetry. apply Sn. lia. }
    rewrite Wq in Wq'. injection Wq' as -> ->.
    replace (first cn - k) with (last cn) by lia.
    replace (o - k) with (-1) by lia.
    rewrite Z.eqb_refl. reflexivity.
  - intros Nn. destruct (Z.eqb_spec iq (last cn)) as [Ei'|Ei']; [|reflexivity].
    cbn [negb]. destruct (Z.eqb_spec jq (-1)) as [Ej'|Ej']; [|reflexivity].
    exfalso. apply Nn. split; [lia|].
    intros t T.
    destruct (Aq (o - t)) as (_ & _ & A3); [lia|].
    destruct (A (o - t)) as (_ & _ & B3); [lia|].
    replace (j - (o - t)) with t in A3 by lia.
    replace (o - (o - t)) with t in B3 by lia.
    rewrite <- A3, <- B3. reflexivity.
Qed.

Lemma edge_rec cn cn' ctx h o jh :
  0 <= jh ->
  walk (fun x => x) (loop_fuel o) (str cn) h (last cn) (first cn) o
  = (last cn, jh) ->
  str cn' = str cn -> first cn' = first cn -> last cn' = last cn ->
  ssl_ctx cn' = ssl_ctx cn ->
  (forall query j,
      0 <= j ->
      (same_name h jh query j ->
       lookup_below cn' query j = first_wins (lookup_below cn query j) ctx)
      /\ (~ same_name h jh query j ->
          lookup_below cn' query j = lookup_below cn query j)) ->
  forall query j,
    0 <= j ->
    (same_name h o query j ->
     cert_lookup_tree_lookup_node cn' query j
     = first_wins (cert_lookup_tree_lookup_node cn query j) ctx)
    /\ (~ same_name h o query j ->
        cert_lookup_tree_lookup_node cn' query j
        = cert_lookup_tree_lookup_node cn query j).
Proof.
  intros Jh Wh Es Ef El Ec R query j J.
  destruct (walk_spec _ _ _ _ _ _ _ _ _ (loop_fuel_enough _) Wh)
    as (k & K & Ei & Ej & A & _).
  rewrite !lookup_node_unfold, Es, Ef, El, Ec.
  destruct (walk util.lowcase (loop_fuel j) (str cn) query (last cn)
                 (first cn) j) as [iq jq] eqn:Wq.
  destruct (walk_spec _ _ _ _ _ _ _ _ _ (loop_fuel_enough _) Wq)
    as (kq & Kq & Eiq & Ejq & Aq & _).
  pose proof (walk_offset_bounds _ _ _ _ _ _ _ _ Wq ltac:(lia)) as Bq.
  split.
  - intros [-> Sn].
    assert (Wq' : walk util.lowcase (loop_fuel o) (str cn) query (last cn)
                       (first cn) o = (first cn - k, o - k)).
    { apply walk_intro; [exact K| |lia].
      intros t T. destruct (A t T) as (A1 & A2 & A3).
      split; [exact A1|]. split; [exact A2|].
      rewrite A3. symmetry. apply Sn. lia. }
    rewrite Wq in Wq'. injection Wq' as -> ->.
    replace (first cn - k) with (last cn) by lia.
    replace (o - k) with jh by lia.
    rewrite Z.eqb_refl. cbn [negb].
    destruct (Z.eqb_spec jh (-1)) as [E|_]; [lia|].
    apply R; [exact Jh|]. split; [reflexivity|]. intros t T. apply Sn. lia.
  - intros Nn. destruct (Z.eqb_spec iq (last cn)) as [Ei'|Ei']; [|reflexivity].
    cbn [negb]. destruct (Z.eqb_spec jq (-1)) as [Ej'|Ej']; [reflexivity|].
    apply R; [lia|]. intros [Ejq' Sn]. apply Nn. split; [lia|].
    intros t T. destruct (Z_le_gt_dec t jh) as [L|G]; [apply Sn; lia|].
    destruct (Aq (o - t)) as (_ & _ & A3); [lia|].
    destruct (A (o - t)) as (_ & _ & B3); [lia|].
    replace (j - (o - t)) with t in A3 by lia.
    replace (o - (o - t)) with t in B3 by lia.
    rewrite <- A3, <- B3. reflexivity.
Qed.

Lemma lookup_below_split_upper cn i' ctx1 query j :
  lookup_below (split_upper cn i' ctx1) query j
  = if Ascii.eqb (char_at (str cn) i') (util.lowcase (char_at query j))
    then cert_lookup_tree_lookup_node (split_lower cn i') query j
    else None.
Proof.
  unfold lookup_below.
  cbn [split_upper wildcard_certs next match_wildcard_certs find_next].
  unfold first_char. cbn [split_lower str first].
  destruct (Ascii.eqb (char_at (str cn) i') (util.lowcase (char_at query j)));
    reflexivity.
Qed.

(** A split by itself changes no lookup. *)
Lemma lookup_split cn i' :
  last cn < i' < first cn ->
  forall query j,
    0 <= j ->
    cert_lookup_tree_lookup_node (split_upper cn i' None) query j
    = cert_lookup_tree_lookup_node cn query j.
Proof.
  intros B query j J.
  rewrite (lookup_node_unfold (split_upper cn i' None)).
  cbn [split_upper str first last ssl_ctx].
  destruct (walk util.lowcase (loop_fuel j) (str cn) query i' (first cn) j)
    as [iu ju] eqn:Wu.
  destruct (walk_spec _ _ _ _ _ _ _ _ _ (loop_fuel_enough _) Wu)
    as (ku & Ku & -> & -> & Au & Su).
  assert (Bu : i' <= first cn - ku /\ -1 <= j - ku).
  { destruct (Z.eq_dec ku 0) as [->|N]; [lia|].
    destruct (Au (ku - 1)) as (A1 & A2 & _); lia. }
  assert (Up : forall t, 0 <= t < ku ->
                 first cn - t > last cn /\ j - t >= 0
                 /\ char_at (str cn) (first cn - t)
                    = util.lowcase (char_at query (j - t))).
  { intros t T. destruct (Au t T) as (A1 & A2 & A3).
    split; [lia|]. split; assumption. }
  destruct (Z.eqb_spec (first cn - ku) i') as [Ei|Ei]; cbn [negb].
  2: { rewrite lookup_node_unfold.
       rewrite (walk_intro util.lowcase (str cn) query (last cn) (first cn) j
                           ku Ku Up).
       - destruct (Z.eqb_spec (first cn - ku) (last cn)); [lia|]. reflexivity.
       - intros (S1 & S2 & S3). apply Su. split; [lia|]. split; assumption. }
  destruct (Z.eqb_spec (j - ku) (-1)) as [Ej|Ej].
  { rewrite lookup_node_unfold.
    rewrite (walk_intro util.lowcase (str cn) query (last cn) (first cn) j
                        ku Ku Up).
    - destruct (Z.eqb_spec (first cn - ku) (last cn)); [lia|]. reflexivity.
    - intros (S1 & S2 & S3). lia. }
  rewrite lookup_below_split_upper.
  destruct (Ascii.eqb_spec (char_at (str cn) i')
                           (util.lowcase (char_at query (j - ku)))) as [Ec|Ec].
  - rewrite (lookup_node_unfold (split_lower cn i')).
    cbn [split_lower str first last ssl_ctx].
    destruct (walk util.lowcase (loop_fuel (j - ku)) (str cn) query (last cn)
                   i' (j - ku)) as [il jl] eqn:Wl.
    destruct (walk_spec _ _ _ _ _ _ _ _ _ (loop_fuel_enough _) Wl)
      as (kl & Kl & -> & -> & Al & Sl).
    rewrite (lookup_node_unfold cn).
    rewrite (walk_intro util.lowcase (str cn) query (last cn) (first cn) j
                        (ku + kl)).
    + replace (first cn - (ku + kl)) with (i' - kl) by lia.
      replace (j - (ku + kl)) with (j - ku - kl) by lia. reflexivity.
    + lia.
    + intros t T. destruct (Z_lt_ge_dec t ku) as [L|G]; [apply Up; lia|].
      destruct (Al (t - ku)) as (A1 & A2 & A3); [lia|].
      replace (i' - (t - ku)) with (first cn - t) in * by lia.
      replace (j - ku - (t - ku)) with (j - t) in * by lia.
      split; [exact A1|]. split; assumption.
    + replace (first cn - (ku + kl)) with (i' - kl) by lia.
      replace (j - (ku + kl)) with (j - ku - kl) by lia. exact Sl.
  - rewrite lookup_node_unfold.
    rewrite (walk_intro util.lowcase (str cn) query (last cn) (first cn) j
                        ku Ku Up).
    + destruct (Z.eqb_spec (first cn - ku) (last cn)); [lia|]. reflexivity.
    + intros (S1 & S2 & S3). apply Ec. rewrite <- Ei. exact S3.
Qed.
Lemma match_wildcard_certs_nonnull certs query w :
  Forall (fun w => snd w <> None) certs ->
  match_wildcard_certs certs query = Some w -> exists c, w = Some c.
Proof.
  induction 1 as [|x rest Hx _ IH]; cbn [match_wildcard_certs];
    [discriminate|].
  destruct (tls_hostname_match (c_str (fst x)) (c_str query)); [|exact IH].
  intro E. injection E as <-. destruct (snd x) as [c|]; [|contradiction].
  exists c. reflexivity.
Qed.

Lemma find_next_app_found l x c y :
  nth_error l (find_next l c) = Some y ->
  find_next (l ++ [x]) c = find_next l c
  /\ nth_error (l ++ [x]) (find_next l c) = Some y.
Proof.
  induction l as [|a l IH]; cbn [find_next app nth_error]; [discriminate|].
  destruct (Ascii.eqb (first_char a) c); cbn [nth_error]; [auto|].
  intro E. destruct (IH E) as [-> ->]. auto.
Qed.

Lemma find_next_app_none l x c :
  nth_error l (find_next l c) = None -> first_char x <> c ->
  nth_error (l ++ [x]) (find_next (l ++ [x]) c) = None.
Proof.
  intros E N. induction l as [|a l IH]; cbn [find_next app nth_error] in *.
  - destruct (Ascii.eqb_spec (first_char x) c); [contradiction|reflexivity].
  - destruct (Ascii.eqb (first_char a) c); cbn [nth_error] in *;
      [discriminate|auto].
Qed.

Lemma with_ssl_ctx_same cn : with_ssl_ctx cn (ssl_ctx cn) = cn.
Proof. destruct cn. reflexivity. Qed.

Lemma wild_nonnull_inv node :
  wild_nonnull node ->
  Forall (fun w => snd w <> None) (wildcard_certs node)
  /\ Forall wild_nonnull (next node).
Proof. intro H. inversion H. auto. Qed.

(** Replacing the child that begins with [h[o]] changes the lookups below
    [node] as it changes the lookups at that child. *)
Lemma lookup_below_set_next node cn cn' ctx h o :
  Forall (fun w => snd w <> None) (wildcard_certs node) ->
  nth_error (next node) (find_next (next node) (char_at h o)) = Some cn ->
  first_char cn' = first_char cn ->
  (forall query j,
      0 <= j ->
      (same_name h o query j ->
       cert_lookup_tree_lookup_node cn' query j
       = first_wins (cert_lookup_tree_lookup_node cn query j) ctx)
      /\ (~ same_name h o query j ->
          cert_lookup_tree_lookup_node cn' query j
          = cert_lookup_tree_lookup_node cn query j)) ->
  forall query j,
    0 <= j ->
    let node' :=
      with_next node
        (set_next (next node) (find_next (next node) (char_at h o)) cn') in
    (same_name h o query j ->
     lookup_below node' query j = first_wins (lookup_below node query j) ctx)
    /\ (~ same_name h o query j ->
        lookup_below node' query j = lookup_below node query j).
Proof.
  intros Wn Hf Fc R query j J. cbv zeta. unfold lookup_below.
  cbn [with_next wildcard_certs next].
  destruct (match_wildcard_certs (wildcard_certs node) query) as [w|] eqn:MW.
  - destruct (match_wildcard_certs_nonnull _ _ _ Wn MW) as [c ->].
    split; intros _; reflexivity.
  - destruct (find_next_found _ _ _ Hf) as [Hc _].
    rewrite (find_next_set_next _ _ cn cn' _ Hf Fc).
    destruct (ascii_dec (util.lowcase (char_at query j)) (char_at h o))
      as [E|E].
    + rewrite E, (set_next_nth _ _ _ _ Hf), Hf. apply R. exact J.
    + assert (Nn : ~ same_name h o query j).
      { intros [-> Sn]. apply E. apply Sn. lia. }
      assert (D : find_next (next node) (util.lowcase (char_at query j))
                  <> find_next (next node) (char_at h o)).
      { intro Eq. rewrite <- Eq in Hf.
        destruct (find_next_found _ _ _ Hf) as [Hc' _]. congruence. }
      rewrite (set_next_other _ _ _ _ D).
      split; [intro; contradiction|reflexivity].
Qed.

Lemma scan_wildcard_no_star h o :
  0 <= o -> (forall t, 0 <= t <= o -> char_at h t <> STAR) ->
  scan_wildcard (loop_fuel o) h o = -1.
Proof.
  intros O Sf.
  destruct (scan_wildcard_spec h _ o _ (loop_fuel_enough o) eq_refl)
    as (S1 & S2 & _ & S4).
  destruct (Z_lt_ge_dec (scan_wildcard (loop_fuel o) h o) 0) as [L|G]; [lia|].
  exfalso. apply (Sf (scan_wildcard (loop_fuel o) h o)); [lia|].
  apply S4. lia.
Qed.

(** A new leaf for a name without wildcard answers for that name only. *)
Lemma lookup_below_new_leaf node ctx h o :
  Forall (fun w => snd w <> None) (wildcard_certs node) ->
  0 <= o -> (forall t, 0 <= t <= o -> char_at h t <> STAR) ->
  nth_error (next node) (find_next (next node) (char_at h o)) = None ->
  forall query j,
    0 <= j ->
    let node' := with_next node (next node ++ [new_leaf ctx h o]) in
    (same_name h o query j ->
     lookup_below node' query j = first_wins (lookup_below node query j) ctx)
    /\ (~ same_name h o query j ->
        lookup_below node' query j = lookup_below node query j).
Proof.
  intros Wn O Sf Hf query j J. cbv zeta.
  set (leaf0 := {| ssl_ctx := None; str := h; first := o; last := -1;
                   wildcard_certs := []; next := [] |}).
  assert (El : new_leaf ctx h o
               = with_ssl_ctx leaf0 (first_wins (ssl_ctx leaf0) ctx)).
  { unfold new_leaf. rewrite (scan_wildcard_no_star h o O Sf). reflexivity. }
  assert (L0 : forall q k, cert_lookup_tree_lookup_node leaf0 q k = None).
  { intros q k. rewrite lookup_node_unfold.
    destruct (walk util.lowcase (loop_fuel k) (str leaf0) q (last leaf0)
                   (first leaf0) k) as [iq jq].
    destruct (negb (iq =? last leaf0)); [reflexivity|].
    destruct (jq =? -1); reflexivity. }
  assert (Wh : walk (fun x => x) (loop_fuel o) (str leaf0) h (last leaf0)
                    (first leaf0) o = (last leaf0, -1)).
  { apply (walk_all_equal (fun x => x) h h (-1) o); [lia|]. reflexivity. }
  pose proof (edge_end leaf0 ctx h o Wh query j J) as R.
  rewrite <- El, !L0 in R. cbn [first_wins] in R.
  unfold lookup_below. cbn [with_next wildcard_certs next].
  destruct (match_wildcard_certs (wildcard_certs node) query) as [w|] eqn:MW.
  - destruct (match_wildcard_certs_nonnull _ _ _ Wn MW) as [c ->].
    split; intros _; reflexivity.
  - destruct (nth_error (next node)
                (find_next (next node) (util.lowcase (char_at query j))))
      as [x|] eqn:Fx.
    + destruct (find_next_app_found _ (new_leaf ctx h o) _ _ Fx) as [-> ->].
      split; [|reflexivity].
      intros [-> Sn]. rewrite (Sn o) in Fx by lia. congruence.
    + destruct (ascii_dec (util.lowcase (char_at query j)) (char_at h o))
        as [E|E].
      * rewrite E, (find_next_app_new _ (new_leaf ctx h o) _ Hf).
        -- rewrite nth_error_app_new. exact R.
        -- rewrite El. reflexivity.
      * rewrite find_next_app_none; [|exact Fx|].
        -- split; [|reflexivity]. intros [-> Sn]. exfalso. apply E.
           apply Sn. lia.
        -- rewrite El. intro Eq. apply E. rewrite <- Eq. reflexivity.
Qed.
Lemma split_upper_nonempty cn i' ctx1 :
  last cn < i' -> nonempty_edges cn -> nonempty_edges (split_upper cn i' ctx1).
Proof.
  intros L N. destruct (nonempty_edges_inv _ N) as [G1 G2].
  constructor; cbn [split_upper next].
  - constructor; [cbn [split_lower first last]; lia|constructor].
  - constructor; [|constructor]. constructor; assumption.
Qed.

Lemma split_upper_wild_nonnull cn i' ctx1 :
  wild_nonnull cn -> wild_nonnull (split_upper cn i' ctx1).
Proof.
  intro W. destruct (wild_nonnull_inv _ W) as [G1 G2].
  constructor; cbn [split_upper wildcard_certs next]; [constructor|].
  constructor; [|constructor]. constructor; assumption.
Qed.

(** Registering a name without wildcard below [node]: the node keeps its
    context and its patterns, and the lookups below it change for that
    name only, where a context found before is kept. *)
Lemma add_node_lookup_below fuel :
  forall node ctx h o node',
    nonempty_edges node -> wild_nonnull node -> 0 <= o ->
    (forall t, 0 <= t <= o -> char_at h t <> STAR) ->
    cert_lookup_tree_add_cert_node fuel node ctx h o = Some node' ->
    ssl_ctx node' = ssl_ctx node
    /\ wildcard_certs node' = wildcard_certs node
    /\ forall query j,
        0 <= j ->
        (same_name h o query j ->
         lookup_below node' query j
         = first_wins (lookup_below node query j) ctx)
        /\ (~ same_name h o query j ->
            lookup_below node' query j = lookup_below node query j).
Proof.
  induction fuel as [|fuel IH]; intros node ctx h o node' N W O Sf H;
    [discriminate H|].
  cbn [cert_lookup_tree_add_cert_node] in H.
  destruct (wild_nonnull_inv _ W) as [Wn Wc].
  revert H. add_body_cases node h o; intro H;
    try (destruct (find_next_found _ _ _ Hfind) as [Hc I];
         destruct (nonempty_edges_child _ _ N I) as [Lc Nc];
         pose proof (proj1 (Forall_forall _ _) Wc _ I) as Wcn;
         destruct (walk_bounds _ _ _ _ _ _ _ _ Hwalk) as (Bi & Bj & _);
         [lia|lia|];
         destruct (walk_progress _ _ _ _ _ _ _ _ Hwalk Lc O Hc) as [Pi Pj]).
  - (* the name ends with the child, which has a context *)
    injection H as <-. split; [reflexivity|]. split; [reflexivity|].
    apply Z.eqb_eq in Hi, Hj. subst i' j.
    intros query j J.
    pose proof (lookup_below_set_next node cn
                  (with_ssl_ctx cn (first_wins (ssl_ctx cn) ctx)) ctx h o Wn
                  Hfind eq_refl
                  (edge_end cn ctx h o Hwalk) query j J) as L.
    cbv zeta in L. rewrite Hctx in L. cbn [first_wins] in L.
    rewrite <- Hctx, with_ssl_ctx_same, (set_next_same _ _ _ Hfind),
      with_next_same in L.
    exact L.
  - (* the name ends with the child, which has none *)
    injection H as <-. split; [reflexivity|]. split; [reflexivity|].
    apply Z.eqb_eq in Hi, Hj. subst i' j.
    intros query j J.
    pose proof (lookup_below_set_next node cn
                  (with_ssl_ctx cn (first_wins (ssl_ctx cn) ctx)) ctx h o Wn
                  Hfind eq_refl
                  (edge_end cn ctx h o Hwalk) query j J) as L.
    cbv zeta in L. rewrite Hctx in L. exact L.
  - (* the name goes on below the child *)
    apply Z.eqb_eq in Hi. apply Z.eqb_neq in Hj. subst i'.
    destruct (cert_lookup_tree_add_cert_node fuel cn ctx h j) as [cn'|] eqn:Hrec;
      [|discriminate H].
    injection H as <-. split; [reflexivity|]. split; [reflexivity|].
    destruct (add_node_header _ _ _ _ _ _ Hrec) as (Es & Ef & El).
    destruct (IH cn ctx h j cn' Nc Wcn ltac:(lia)
                 ltac:(intros t T; apply Sf; lia) Hrec) as (Ec & _ & R).
    intros query j0 J0.
    apply (lookup_below_set_next node cn cn' ctx h o Wn Hfind); [|
      apply (edge_rec cn cn' ctx h o j); try assumption; lia | exact J0].
    unfold first_char. rewrite Es, Ef. reflexivity.
  - (* the name ends inside the child *)
    injection H as <-. split; [reflexivity|]. split; [reflexivity|].
    apply Z.eqb_neq in Hi. apply Z.eqb_eq in Hj. subst j.
    intros query j J.
    apply (lookup_below_set_next node cn (split_upper cn i' ctx) ctx h o Wn
             Hfind eq_refl); [|exact J].
    intros q k K.
    pose proof (walk_restart _ _ _ _ _ _ _ _ Hwalk) as Wh.
    destruct (edge_end (split_upper cn i' None) ctx h o Wh q k K) as [E1 E2].
    rewrite (lookup_split cn i' ltac:(lia) q k K) in E1, E2.
    split; assumption.
  - (* the name leaves the child inside it *)
    apply Z.eqb_neq in Hi. apply Z.eqb_neq in Hj.
    change (match cert_lookup_tree_add_cert_node fuel
                    (split_upper cn i' None) ctx h j with
            | Some cn' =>
                Some (with_next node
                        (set_next (next node)
                           (find_next (next node) (char_at h o)) cn'))
            | None => None
            end = Some node') in H.
    destruct (cert_lookup_tree_add_cert_node fuel (split_upper cn i' None)
                ctx h j) as [cn'|] eqn:Hrec; [|discriminate H].
    injection H as <-. split; [reflexivity|]. split; [reflexivity|].
    destruct (add_node_header _ _ _ _ _ _ Hrec) as (Es & Ef & El).
    destruct (IH (split_upper cn i' None) ctx h j cn'
                 (split_upper_nonempty cn i' None ltac:(lia) Nc)
                 (split_upper_wild_nonnull cn i' None Wcn) ltac:(lia)
                 ltac:(intros t T; apply Sf; lia) Hrec) as (Ec & _ & R).
    pose proof (walk_restart _ _ _ _ _ _ _ _ Hwalk) as Wh.
    intros query j0 J0.
    apply (lookup_below_set_next node cn cn' ctx h o Wn Hfind);
      [unfold first_char; rewrite Es, Ef; reflexivity| |exact J0].
    intros q k K.
    destruct (edge_rec (split_upper cn i' None) cn' ctx h o j ltac:(lia) Wh
                       Es Ef El Ec R q k K) as [E1 E2].
    rewrite (lookup_split cn i' ltac:(lia) q k K) in E1, E2.
    split; assumption.
  - (* a wildcard: not with such a name *)
    apply Ascii.eqb_eq in Hstar. exfalso. apply (Sf o); [lia|exact Hstar].
  - (* a new leaf *)
    injection H as <-. split; [reflexivity|]. split; [reflexivity|].
    intros query j J.
    exact (lookup_below_new_leaf node ctx h o Wn O Sf Hfind query j J).
Qed.
Lemma with_next_wild_nonnull node nodes :
  wild_nonnull node -> Forall wild_nonnull nodes ->
  wild_nonnull (with_next node nodes).
Proof.
  intros W F. destruct (wild_nonnull_inv _ W) as [Wn _].
  constructor; assumption.
Qed.

(** Insertion keeps null contexts out of the wildcard patterns, when the
    context registered for a wildcard pattern is not null. *)
Lemma add_node_wild_nonnull fuel :
  forall node ctx h o node',
    wild_nonnull node -> 0 <= o < Z.of_nat (length h) ->
    (In STAR h -> ctx <> None) ->
    cert_lookup_tree_add_cert_node fuel node ctx h o = Some node' ->
    wild_nonnull node'.
Proof.
  induction fuel as [|fuel IH]; intros node ctx h o node' W O Cx H;
    [discriminate H|].
  cbn [cert_lookup_tree_add_cert_node] in H.
  destruct (wild_nonnull_inv _ W) as [Wn Wc].
  revert H. add_body_cases node h o; intro H;
    try (destruct (find_next_found _ _ _ Hfind) as [Hc I];
         pose proof (proj1 (Forall_forall _ _) Wc _ I) as Wcn;
         pose proof (walk_offset_bounds _ _ _ _ _ _ _ _ Hwalk ltac:(lia))
           as Bj).
  - injection H as <-. exact W.
  - injection H as <-. apply with_next_wild_nonnull; [exact W|].
    apply set_next_Forall; [exact Wc|].
    destruct (wild_nonnull_inv _ Wcn) as [G1 G2]. constructor; assumption.
  - apply Z.eqb_neq in Hj.
    destruct (cert_lookup_tree_add_cert_node fuel cn ctx h j) as [cn'|] eqn:Hrec;
      [|discriminate H].
    injection H as <-. apply with_next_wild_nonnull; [exact W|].
    apply set_next_Forall; [exact Wc|].
    apply (IH cn ctx h j cn' Wcn); [lia|exact Cx|exact Hrec].
  - injection H as <-. apply with_next_wild_nonnull; [exact W|].
    apply set_next_Forall; [exact Wc|].
    exact (split_upper_wild_nonnull cn i' ctx Wcn).
  - apply Z.eqb_neq in Hj.
    change (match cert_lookup_tree_add_cert_node fuel
                    (split_upper cn i' None) ctx h j with
            | Some cn' =>
                Some (with_next node
                        (set_next (next node)
                           (find_next (next node) (char_at h o)) cn'))
            | None => None
            end = Some node') in H.
    destruct (cert_lookup_tree_add_cert_node fuel (split_upper cn i' None)
                ctx h j) as [cn'|] eqn:Hrec; [|discriminate H].
    injection H as <-. apply with_next_wild_nonnull; [exact W|].
    apply set_next_Forall; [exact Wc|].
    apply (IH (split_upper cn i' None) ctx h j cn'
              (split_upper_wild_nonnull cn i' None Wcn));
      [lia|exact Cx|exact Hrec].
  - injection H as <-. apply Ascii.eqb_eq in Hstar.
    constructor; cbn [push_wildcard wildcard_certs next]; [|exact Wc].
    apply Forall_app. split; [exact Wn|]. constructor; [|constructor].
    cbn [snd]. apply Cx. rewrite <- Hstar. apply char_at_In. exact O.
  - injection H as <-. apply with_next_wild_nonnull; [exact W|].
    apply Forall_app. split; [exact Wc|]. constructor; [|constructor].
    constructor; cbn [wildcard_certs next]; [|constructor].
    destruct (Z.eqb_spec (scan_wildcard (loop_fuel o) h o) (-1)) as [E|E];
      [constructor|].
    constructor; [|constructor]. cbn [snd]. apply Cx.
    destruct (scan_wildcard_spec h _ o _ (loop_fuel_enough o) eq_refl)
      as (S1 & S2 & _ & S4).
    rewrite <- S4 by lia. apply char_at_In. lia.
Qed.

Lemma add_cert_wild_nonnull lt ctx hostname lt' :
  hostname_fits hostname -> wild_nonnull (root lt) ->
  (In STAR hostname -> ctx <> None) ->
  cert_lookup_tree_add_cert lt ctx hostname = Some lt' ->
  wild_nonnull (root lt').
Proof.
  intros Fit W Cx. unfold cert_lookup_tree_add_cert.
  destruct (Z.of_nat (length hostname) =? 0) eqn:E.
  - intro H. injection H as <-. exact W.
  - apply Z.eqb_neq in E. rewrite (top_offset _ Fit).
    destruct (cert_lookup_tree_add_cert_node
                (loop_fuel (Z.of_nat (length hostname) - 1)) (root lt) ctx
                (map util.lowcase hostname) (Z.of_nat (length hostname) - 1))
      as [r|] eqn:Ha; [|discriminate].
    intro H. injection H as <-. cbn [root].
    apply (add_node_wild_nonnull _ _ _ _ _ _ W) in Ha; [exact Ha| |].
    + rewrite length_map. lia.
    + intro I. apply Cx. apply In_STAR_lowcase. exact I.
Qed.

(** The trees that registrations build keep the invariants. *)
Lemma add_certs_invariants certs :
  forall lt lt',
    tree_ok lt -> wild_nonnull (root lt) -> registrations_ok certs ->
    add_certs lt certs = Some lt' ->
    tree_ok lt' /\ wild_nonnull (root lt').
Proof.
  induction certs as [|[hostname ctx] rest IH]; intros lt lt' T W F;
    cbn [add_certs].
  - intro H. injection H as <-. auto.
  - inversion F as [|p l [Fh Fc] Fr]; subst. cbn [fst snd] in Fh, Fc.
    destruct (add_cert_returns lt ctx hostname T Fh) as (lt1 & E1 & T1).
    rewrite E1. apply IH; [exact T1| |exact Fr].
    exact (add_cert_wild_nonnull lt ctx hostname lt1 Fh W Fc E1).
Qed.

Lemma new_wild_nonnull : wild_nonnull (root cert_lookup_tree_new).
Proof. constructor; constructor. Qed.

Lemma walk_at_end conv fuel nstr hostname n j :
  walk conv fuel nstr hostname n n j = (n, j).
Proof.
  destruct fuel as [|fuel]; cbn [walk]; [reflexivity|].
  rewrite Z.gtb_ltb, Z.ltb_irrefl. reflexivity.
Qed.

(** The lookup from the root of a tree. *)
Lemma lookup_from_root lt query :
  first (root lt) = 0 -> last (root lt) = 0 -> hostname_fits query ->
  cert_lookup_tree_lookup lt query
  = if Z.of_nat (length query) - 1 =? -1 then ssl_ctx (root lt)
    else lookup_below (root lt) query (Z.of_nat (length query) - 1).
Proof.
  intros Ef El Fit. unfold cert_lookup_tree_lookup.
  rewrite (top_offset _ Fit), lookup_node_unfold, Ef, El, walk_at_end.
  reflexivity.
Qed.

Lemma same_name_case_equal hostname query :
  hostname <> [] ->
  same_name (map util.lowcase hostname) (Z.of_nat (length hostname) - 1)
            query (Z.of_nat (length query) - 1)
  <-> case_equal hostname query.
Proof.
  intro Ne. split.
  - intros [El Sn]. unfold case_equal. symmetry.
    apply (nth_ext _ _ NUL NUL); [rewrite !length_map; lia|].
    intros n Hn. rewrite length_map in Hn.
    pose proof (Sn (Z.of_nat n) ltac:(lia)) as E.
    rewrite char_at_lowcase in E. unfold char_at in E.
    destruct (Z.ltb_spec (Z.of_nat n) 0) as [L|_]; [lia|].
    rewrite Nat2Z.id in E. exact E.
  - intro C. pose proof (case_equal_length _ _ C) as El.
    split; [lia|]. intros t T. rewrite char_at_lowcase, C. reflexivity.
Qed.

(** Registering a name without wildcard in a tree changes the lookup of
    that name only, and a context found for it before is kept. *)
Lemma add_cert_lookup lt ctx hostname lt' query :
  tree_ok lt -> wild_nonnull (root lt) ->
  hostname <> [] -> ~ In STAR hostname -> hostname_fits hostname ->
  hostname_fits query ->
  cert_lookup_tree_add_cert lt ctx hostname = Some lt' ->
  cert_lookup_tree_lookup lt' query
  = if util.strieq hostname query
    then first_wins (cert_lookup_tree_lookup lt query) ctx
    else cert_lookup_tree_lookup lt query.
Proof.
  intros (N & Rf & Rl) W Ne Sf Fit FitQ. unfold cert_lookup_tree_add_cert.
  assert (Len : 0 < Z.of_nat (length hostname)).
  { destruct hostname; [contradiction|]. cbn [length]. lia. }
  destruct (Z.eqb_spec (Z.of_nat (length hostname)) 0) as [E|_]; [lia|].
  rewrite (top_offset _ Fit).
  destruct (cert_lookup_tree_add_cert_node
              (loop_fuel (Z.of_nat (length hostname) - 1)) (root lt) ctx
              (map util.lowcase hostname) (Z.of_nat (length hostname) - 1))
    as [r|] eqn:Ha; [|discriminate].
  intro H. injection H as <-.
  destruct (add_node_header _ _ _ _ _ _ Ha) as (_ & Ef & El).
  assert (Sh : forall t, 0 <= t <= Z.of_nat (length hostname) - 1 ->
                         char_at (map util.lowcase hostname) t <> STAR).
  { intros t T I. apply Sf. apply In_STAR_lowcase. rewrite <- I.
    apply char_at_In. rewrite length_map. lia. }
  assert (O : 0 <= Z.of_nat (length hostname) - 1) by lia.
  destruct (add_node_lookup_below _ _ _ _ _ _ N W O Sh Ha) as (Ec & _ & R).
  rewrite !lookup_from_root; cbn [root]; try assumption; try lia.
  rewrite Ec.
  destruct (Z.eqb_spec (Z.of_nat (length query) - 1) (-1)) as [Eq|Eq].
  - destruct query; [|cbn [length] in Eq; lia].
    destruct hostname; [contradiction|]. reflexivity.
  - destruct (R query (Z.of_nat (length query) - 1) ltac:(lia)) as [R1 R2].
    destruct (util.strieq hostname query) eqn:S.
    + apply R1. apply same_name_case_equal; [exact Ne|].
      apply strieq_case_equal. exact S.
    + apply R2. intro Sn. apply same_name_case_equal in Sn; [|exact Ne].
      apply strieq_case_equal in Sn. congruence.
Qed.

(** X8.  In a tree built by registrations, registering one more name that
    holds no wildcard returns, and afterwards the lookup of a query is what
    it was before, but for the queries that are this name up to case: for
    these it is the context found before if there was one, a wildcard
    pattern or an earlier registration of the name having answered, and the
    new context otherwise. *)
Theorem X8_add_cert_then_lookup
        (certs : list (list ascii * option SSL_CTX)) (lt : CertLookupTree)
        (hostname : list ascii) (ctx : option SSL_CTX) :
  registrations_ok certs ->
  add_certs cert_lookup_tree_new certs = Some lt ->
  hostname <> [] -> ~ In STAR hostname -> hostname_fits hostname ->
  exists lt',
    cert_lookup_tree_add_cert lt ctx hostname = Some lt'
    /\ forall query,
        hostname_fits query ->
        cert_lookup_tree_lookup lt' query
        = if util.strieq hostname query
          then first_wins (cert_lookup_tree_lookup lt query) ctx
          else cert_lookup_tree_lookup lt query.
Proof.
  intros F A Ne Sf Fit.
  destruct (add_certs_invariants certs _ _ tree_ok_new new_wild_nonnull F A)
    as [T W].
  destruct (add_cert_returns lt ctx hostname T Fit) as (lt' & E & _).
  exists lt'. split; [exact E|]. intros query FitQ.
  exact (add_cert_lookup lt ctx hostname lt' query T W Ne Sf Fit FitQ E).
Qed.

Lemma lookup_new query :
  hostname_fits query -> cert_lookup_tree_lookup cert_lookup_tree_new query = None.
Proof.
  intro Fit. rewrite lookup_from_root; [|reflexivity|reflexivity|exact Fit].
  destruct (Z.of_nat (length query) - 1 =? -1); reflexivity.
Qed.

Lemma add_certs_lookup certs :
  forall lt lt' query,
    tree_ok lt -> wild_nonnull (root lt) ->
    Forall (fun p => fst p <> [] /\ ~ In STAR (fst p) /\ hostname_fits (fst p))
           certs ->
    hostname_fits query ->
    add_certs lt certs = Some lt' ->
    cert_lookup_tree_lookup lt' query
    = first_wins (cert_lookup_tree_lookup lt query)
                 (first_registered certs query).
Proof.
  induction certs as [|[hostname ctx] rest IH]; intros lt lt' query T W F FitQ;
    cbn [add_certs].
  - intro H. injection H as <-. unfold first_registered. cbn [find].
    destruct (cert_lookup_tree_lookup lt query); reflexivity.
  - inversion F as [|p l (Ne & Sf & Fit) Fr]; subst. cbn [fst] in Ne, Sf, Fit.
    destruct (add_cert_returns lt ctx hostname T Fit) as (lt1 & E1 & T1).
    rewrite E1. intro H.
    rewrite (IH lt1 lt' query T1
                (add_cert_wild_nonnull lt ctx hostname lt1 Fit W
                   ltac:(intro; contradiction) E1) Fr FitQ H).
    rewrite (add_cert_lookup lt ctx hostname lt1 query T W Ne Sf Fit FitQ E1).
    unfold first_registered. cbn [find fst snd].
    destruct (util.strieq hostname query); cbn [andb];
      destruct ctx as [c|]; destruct (cert_lookup_tree_lookup lt query);
      reflexivity.
Qed.

(** X9.  Registrations of names that hold no wildcard make the tree a map
    from names to contexts, read without regard to case: the registrations
    return a tree, and a lookup in it yields the context of the first
    registration made for the query, up to case, with a context that is not
    null, and a null pointer if there is none. *)
Theorem X9_exact_names_first_registered
        (certs : list (list ascii * option SSL_CTX)) :
  Forall (fun p => fst p <> [] /\ ~ In STAR (fst p) /\ hostname_fits (fst p))
         certs ->
  exists lt,
    add_certs cert_lookup_tree_new certs = Some lt
    /\ forall query,
        hostname_fits query ->
        cert_lookup_tree_lookup lt query = first_registered certs query.
Proof.
  intro F.
  destruct (add_certs_returns certs cert_lookup_tree_new tree_ok_new)
    as (lt & E & _).
  { apply Forall_impl with (2 := F). intros p (_ & _ & Fit). exact Fit. }
  exists lt. split; [exact E|]. intros query FitQ.
  rewrite (add_certs_lookup certs cert_lookup_tree_new lt query tree_ok_new
             new_wild_nonnull F FitQ E).
  rewrite (lookup_new query FitQ). reflexivity.
Qed.
Lemma X8_add_cert_then_lookup_witness :
  registrations_ok example_certs
  /\ add_certs cert_lookup_tree_new example_certs = Some example_tree
  /\ ~ In STAR (s "mail.example.com")
  /\ hostname_fits (s "mail.example.com")
  /\ exists lt',
      cert_lookup_tree_add_cert example_tree (Some 7%nat) (s "mail.example.com")
      = Some lt'
      /\ cert_lookup_tree_lookup lt' (s "Mail.Example.com")
         = cert_lookup_tree_lookup example_tree (s "Mail.Example.com")
      /\ cert_lookup_tree_lookup example_tree (s "Mail.Example.com")
         = Some 4%nat.
Proof.
  assert (F : registrations_ok example_certs).
  { unfold registrations_ok, example_certs.
    repeat (constructor;
            [split; [unfold hostname_fits, INT_MAX; simpl; lia
                    |intros _; discriminate]|]).
    constructor. }
  assert (A : add_certs cert_lookup_tree_new example_certs = Some example_tree)
    by reflexivity.
  assert (Sf : ~ In STAR (s "mail.example.com")).
  { intro I. cbn in I.
    repeat (destruct I as [I|I]; [discriminate I|]). exact I. }
  assert (Fit : hostname_fits (s "mail.example.com")).
  { unfold hostname_fits, INT_MAX. simpl. lia. }
  split; [exact F|]. split; [exact A|]. split; [exact Sf|]. split; [exact Fit|].
  destruct (X8_add_cert_then_lookup example_certs example_tree
              (s "mail.example.com") (Some 7%nat) F A ltac:(discriminate)
              Sf Fit) as (lt' & E & L).
  exists lt'. split; [exact E|]. split; [|reflexivity].
  rewrite L; [reflexivity|]. unfold hostname_fits, INT_MAX. simpl. lia.
Defined.

Lemma X9_exact_names_first_registered_witness :
  exists lt,
    add_certs cert_lookup_tree_new
              [(s "foo.co.uk", Some 1%nat); (s "FOO.co.uk", Some 2%nat);
               (s "food.co.uk", None); (s "food.co.uk", Some 3%nat)]
    = Some lt
    /\ cert_lookup_tree_lookup lt (s "Foo.Co.Uk") = Some 1%nat
    /\ cert_lookup_tree_lookup lt (s "FOOD.co.uk") = Some 3%nat
    /\ cert_lookup_tree_lookup lt (s "fo.co.uk") = None.
Proof.
  destruct (X9_exact_names_first_registered
              [(s "foo.co.uk", Some 1%nat); (s "FOO.co.uk", Some 2%nat);
               (s "food.co.uk", None); (s "food.co.uk", Some 3%nat)])
    as (lt & E & L).
  { repeat (constructor;
            [split; [discriminate|];
             split; [|unfold hostname_fits, INT_MAX; simpl; lia];
             intro I; cbn in I;
             repeat (destruct I as [I|I]; [discriminate I|]); exact I|]).
    constructor. }
  exists lt. split; [exact E|].
  split; [|split]; (rewrite L; [reflexivity|]);
    unfold hostname_fits, INT_MAX; simpl; lia.
Defined.
(** ** Soundness of the lookup *)

Lemma agree_refl a p : agree a p a p.
Proof. split; reflexivity. Qed.

Lemma agree_sym a p b q : agree a p b q -> agree b q a p.
Proof. intros [L C]. split; [lia|]. intros t T. symmetry. apply C. exact T. Qed.

Lemma agree_trans a p b q c r :
  agree a p b q -> agree b q c r -> agree a p c r.
Proof.
  intros [L1 C1] [L2 C2]. split; [lia|].
  intros t T. rewrite (C1 t T). apply C2. exact T.
Qed.

Lemma agree_extend a p b q k :
  0 <= k -> agree a p b q ->
  (forall t, 0 <= t < k -> char_at a (p - t) = char_at b (q - t)) ->
  agree a (p - k) b (q - k).
Proof.
  intros K [L C] E. split; [lia|]. intros t T.
  destruct (Z_le_gt_dec t k) as [Le|Gt].
  - replace (p - k + t) with (p - (k - t)) by lia.
    replace (q - k + t) with (q - (k - t)) by lia. apply E. lia.
  - replace (p - k + t) with (p + (t - k)) by lia.
    replace (q - k + t) with (q + (t - k)) by lia. apply C. lia.
Qed.

Lemma agree_whole a b : agree a (-1) b (-1) -> a = b.
Proof.
  intros [L C]. apply (nth_ext _ _ NUL NUL); [lia|].
  intros n _. pose proof (C (Z.of_nat n + 1) ltac:(lia)) as E.
  replace (-1 + (Z.of_nat n + 1)) with (Z.of_nat n) in E by lia.
  unfold char_at in E.
  destruct (Z.ltb_spec (Z.of_nat n) 0) as [N|_]; [lia|].
  rewrite Nat2Z.id in E. exact E.
Qed.

Lemma agree_top h : agree h (Z.of_nat (length h) - 1) [] (-1).
Proof.
  split; [cbn [length]; lia|]. intros t T. unfold char_at.
  destruct (Z.ltb_spec (Z.of_nat (length h) - 1 + t) 0) as [N|_]; [lia|].
  destruct (Z.ltb_spec (-1 + t) 0) as [N|_]; [lia|].
  rewrite nth_overflow by lia. destruct (Z.to_nat (-1 + t)); reflexivity.
Qed.

Lemma sound_inv certs a p cn :
  sound certs a p cn ->
  agree a p (str cn) (first cn)
  /\ (forall c, ssl_ctx cn = Some c ->
                exists hostname,
                  In (hostname, Some c) certs
                  /\ agree (map util.lowcase hostname) (-1) (str cn) (last cn))
  /\ sound_below certs (str cn) (last cn) cn.
Proof. intro H. inversion H. unfold sound_below. auto. Qed.

Lemma match_wildcard_certs_In ws query w :
  match_wildcard_certs ws query = Some w ->
  exists pattern,
    In (pattern, w) ws
    /\ tls_hostname_match (c_str pattern) (c_str query) = true.
Proof.
  induction ws as [|[pattern w'] rest IH]; cbn [match_wildcard_certs fst snd];
    [discriminate|].
  destruct (tls_hostname_match (c_str pattern) (c_str query)) eqn:M.
  - intro E. injection E as <-. exists pattern. split; [left; reflexivity|].
    exact M.
  - intro E. destruct (IH E) as (pt & I & Mt). exists pt.
    split; [right; exact I|exact Mt].
Qed.

(** A lookup that starts at a sound node, the query read so far being what
    leads to the node, yields registered contexts only. *)
Lemma lookup_node_sound certs :
  forall cn a p query j c,
    sound certs a p cn ->
    agree (map util.lowcase query) j a p ->
    cert_lookup_tree_lookup_node cn query j = Some c ->
    registered_for certs query c.
Proof.
  induction cn as [ctx nstr nfirst nlast ws nodes IH] using CertNode_ind.
  intros a p query j c S A L.
  destruct (sound_inv _ _ _ _ S) as (Af & Sc & Sw & Sn).
  cbn [str first last ssl_ctx wildcard_certs next] in Af, Sc, Sw, Sn.
  rewrite lookup_node_unfold in L.
  cbn [str first last ssl_ctx] in L.
  destruct (walk util.lowcase (loop_fuel j) nstr query nlast nfirst j)
    as [i' j'] eqn:Wq.
  destruct (walk_spec _ _ _ _ _ _ _ _ _ (loop_fuel_enough _) Wq)
    as (k & K & -> & -> & Aq & _).
  assert (Ae : agree (map util.lowcase query) (j - k) nstr (nfirst - k)).
  { apply agree_extend; [exact K|exact (agree_trans _ _ _ _ _ _ A Af)|].
    intros t T. destruct (Aq t T) as (_ & _ & E).
    rewrite <- char_at_lowcase. symmetry. exact E. }
  destruct (Z.eqb_spec (nfirst - k) nlast) as [Ei|Ei]; [|discriminate L].
  cbn [negb] in L. rewrite Ei in Ae.
  destruct (Z.eqb_spec (j - k) (-1)) as [Ej|Ej].
  - destruct (Sc c L) as (hostname & I & Ah). exists hostname.
    split; [exact I|]. left. rewrite Ej in Ae. unfold case_equal.
    apply agree_whole.
    exact (agree_trans _ _ _ _ _ _ Ah (agree_sym _ _ _ _ Ae)).
  - unfold lookup_below in L. cbn [wildcard_certs next] in L.
    destruct (match_wildcard_certs ws query) as [w|] eqn:MW.
    + subst w. destruct (match_wildcard_certs_In _ _ _ MW) as (pt & I & M).
      destruct (proj1 (Forall_forall _ _) Sw _ I) as (hostname & Ih & St & Ep).
      cbn [fst snd] in Ih, Ep. subst pt. exists hostname.
      split; [exact Ih|]. right. split; [exact St|exact M].
    + destruct (nth_error nodes
                  (find_next nodes (util.lowcase (char_at query (j - k)))))
        as [x|] eqn:Fx; [|discriminate L].
      apply nth_error_In in Fx.
      apply (proj1 (Forall_forall _ _) IH x Fx (nstr) nlast query (j - k) c);
        [|exact Ae|exact L].
      exact (proj1 (Forall_forall _ _) Sn x Fx).
Qed.
Lemma add_node_ssl_ctx fuel node ctx h o node' :
  cert_lookup_tree_add_cert_node fuel node ctx h o = Some node' ->
  ssl_ctx node' = ssl_ctx node.
Proof.
  destruct fuel as [|fuel]; [discriminate|].
  cbn [cert_lookup_tree_add_cert_node].
  destruct (cert_lookup_tree_add_cert_body node ctx h o) as [n|i cn j] eqn:B.
  - intro H. injection H as <-. revert B.
    add_body_cases node h o; intro B; try discriminate B;
      injection B as <-; reflexivity.
  - destruct (cert_lookup_tree_add_cert_node fuel cn ctx h j); [|discriminate].
    intro H. injection H as <-. reflexivity.
Qed.

Lemma sound_below_set_next certs b q node i cn' :
  sound_below certs b q node -> sound certs b q cn' ->
  sound_below certs b q (with_next node (set_next (next node) i cn')).
Proof.
  intros [Sw Sn] S. split; cbn [with_next wildcard_certs next]; [exact Sw|].
  apply set_next_Forall; assumption.
Qed.

Lemma split_lower_sound certs cn i' b q :
  sound certs b q cn -> sound certs (str cn) i' (split_lower cn i').
Proof.
  intro S. destruct (sound_inv _ _ _ _ S) as (_ & Sc & Sw & Sn).
  constructor; cbn [split_lower str first last ssl_ctx wildcard_certs next];
    [apply agree_refl|exact Sc|exact Sw|exact Sn].
Qed.

Lemma split_upper_sound certs hostname cn i' ctx1 b q :
  sound certs b q cn ->
  (forall c, ctx1 = Some c ->
             In (hostname, Some c) certs
             /\ agree (map util.lowcase hostname) (-1) (str cn) i') ->
  sound certs b q (split_upper cn i' ctx1).
Proof.
  intros S C. destruct (sound_inv _ _ _ _ S) as (Af & _).
  constructor; cbn [split_upper str first last ssl_ctx wildcard_certs next].
  - exact Af.
  - intros c E. exists hostname. exact (C c E).
  - constructor.
  - constructor; [|constructor]. exact (split_lower_sound certs cn i' b q S).
Qed.

(** Insertion keeps the tree sound for the registrations of [certs], the
    one it performs being among them. *)
Lemma add_node_sound certs hostname ctx :
  In (hostname, ctx) certs ->
  forall fuel node b q o node',
    sound_below certs b q node ->
    agree (map util.lowcase hostname) o b q ->
    0 <= o < Z.of_nat (length hostname) ->
    cert_lookup_tree_add_cert_node fuel node ctx (map util.lowcase hostname) o
    = Some node' ->
    sound_below certs b q node'.
Proof.
  intro Hin. set (h := map util.lowcase hostname).
  assert (Star : forall t, 0 <= t < Z.of_nat (length hostname) ->
                           char_at h t = STAR -> In STAR hostname).
  { intros t T E. apply In_STAR_lowcase. fold h. rewrite <- E.
    apply char_at_In. unfold h. rewrite length_map. exact T. }
  induction fuel as [|fuel IH]; intros node b q o node' SB A O H;
    [discriminate H|].
  cbn [cert_lookup_tree_add_cert_node] in H. destruct SB as [Sw Sn].
  revert H. add_body_cases node h o; intro H;
    try (destruct (find_next_found _ _ _ Hfind) as [_ I];
         pose proof (proj1 (Forall_forall _ _) Sn _ I) as Scn;
         destruct (sound_inv _ _ _ _ Scn) as (Af & Sc & SBc);
         pose proof (walk_offset_bounds _ _ _ _ _ _ _ _ Hwalk ltac:(lia))
           as Bj;
         destruct (walk_spec _ _ _ _ _ _ _ _ _ (loop_fuel_enough _) Hwalk)
           as (k & K & Ei & Ej & Aw & _);
         assert (Ae : agree h j (str cn) i')
           by (rewrite Ei, Ej; apply agree_extend;
               [exact K|exact (agree_trans _ _ _ _ _ _ A Af)|];
               intros t T; destruct (Aw t T) as (_ & _ & E);
               symmetry; exact E)).
  - injection H as <-. split; assumption.
  - injection H as <-. apply Z.eqb_eq in Hi, Hj. subst i' j.
    apply sound_below_set_next; [split; assumption|].
    destruct SBc as [Swc Snc].
    constructor; cbn [with_ssl_ctx str first last ssl_ctx wildcard_certs next];
      [exact Af| |exact Swc|exact Snc].
    intros c E. exists hostname. rewrite <- E. split; [exact Hin|exact Ae].
  - apply Z.eqb_eq in Hi. apply Z.eqb_neq in Hj. subst i'.
    destruct (cert_lookup_tree_add_cert_node fuel cn ctx h j) as [cn'|] eqn:Hrec;
      [|discriminate H].
    injection H as <-.
    destruct (add_node_header _ _ _ _ _ _ Hrec) as (Es & Ef & El).
    pose proof (add_node_ssl_ctx _ _ _ _ _ _ Hrec) as Ec.
    destruct (IH cn (str cn) (last cn) j cn' SBc Ae ltac:(lia) Hrec)
      as [Sw' Sn'].
    apply sound_below_set_next; [split; assumption|].
    constructor; rewrite ?Es, ?Ef, ?El, ?Ec; assumption.
  - injection H as <-. apply Z.eqb_eq in Hj. subst j.
    apply sound_below_set_next; [split; assumption|].
    apply (split_upper_sound certs hostname cn i' ctx b q Scn).
    intros c E. rewrite <- E. split; [exact Hin|exact Ae].
  - apply Z.eqb_neq in Hj.
    change (match cert_lookup_tree_add_cert_node fuel
                    (split_upper cn i' None) ctx h j with
            | Some cn' =>
                Some (with_next node
                        (set_next (next node)
                           (find_next (next node) (char_at h o)) cn'))
            | None => None
            end = Some node') in H.
    destruct (cert_lookup_tree_add_cert_node fuel (split_upper cn i' None)
                ctx h j) as [cn'|] eqn:Hrec; [|discriminate H].
    injection H as <-.
    destruct (add_node_header _ _ _ _ _ _ Hrec) as (Es & Ef & El).
    pose proof (add_node_ssl_ctx _ _ _ _ _ _ Hrec) as Ec.
    cbn [split_upper str first last ssl_ctx] in Es, Ef, El, Ec.
    assert (SBu : sound_below certs (str cn) i' (split_upper cn i' None)).
    { split; cbn [split_upper wildcard_certs next]; [constructor|].
      constructor; [|constructor].
      exact (split_lower_sound certs cn i' b q Scn). }
    destruct (IH (split_upper cn i' None) (str cn) i' j cn' SBu Ae
                 ltac:(lia) Hrec) as [Sw' Sn'].
    apply sound_below_set_next; [split; assumption|].
    constructor; rewrite ?Es, ?Ef, ?El, ?Ec;
      [exact Af|discriminate|exact Sw'|exact Sn'].
  - injection H as <-. apply Ascii.eqb_eq in Hstar.
    split; cbn [push_wildcard wildcard_certs next]; [|exact Sn].
    apply Forall_app. split; [exact Sw|]. constructor; [|constructor].
    exists hostname. cbn [fst snd].
    split; [exact Hin|]. split; [exact (Star o O Hstar)|reflexivity].
  - injection H as <-. split; cbn [with_next wildcard_certs next]; [exact Sw|].
    apply Forall_app. split; [exact Sn|]. constructor; [|constructor].
    destruct (scan_wildcard_spec h _ o _ (loop_fuel_enough o) eq_refl)
      as (S1 & S2 & _ & S4).
    constructor; cbn [str first last ssl_ctx wildcard_certs next].
    + exact (agree_sym _ _ _ _ A).
    + intros c E.
      destruct (Z.eqb_spec (scan_wildcard (loop_fuel o) h o) (-1)) as [Ej|Ej];
        [|discriminate E].
      exists hostname. rewrite <- E, Ej. split; [exact Hin|apply agree_refl].
    + destruct (Z.eqb_spec (scan_wildcard (loop_fuel o) h o) (-1)) as [Ej|Ej];
        [constructor|].
      constructor; [|constructor]. exists hostname. cbn [fst snd].
      split; [exact Hin|]. split; [|reflexivity].
      apply (Star (scan_wildcard (loop_fuel o) h o)); [lia|]. apply S4. lia.
    + constructor.
Qed.

Lemma add_cert_sound certs lt ctx hostname lt' :
  In (hostname, ctx) certs -> hostname_fits hostname ->
  root_sound certs (root lt) ->
  cert_lookup_tree_add_cert lt ctx hostname = Some lt' ->
  root_sound certs (root lt').
Proof.
  intros Hin Fit [Rc SB]. unfold cert_lookup_tree_add_cert.
  destruct (Z.eqb_spec (Z.of_nat (length hostname)) 0) as [E|E].
  - intro H. injection H as <-. split; assumption.
  - rewrite (top_offset _ Fit).
    destruct (cert_lookup_tree_add_cert_node
                (loop_fuel (Z.of_nat (length hostname) - 1)) (root lt) ctx
                (map util.lowcase hostname) (Z.of_nat (length hostname) - 1))
      as [r|] eqn:Ha; [|discriminate].
    intro H. injection H as <-. cbn [root]. split.
    + rewrite (add_node_ssl_ctx _ _ _ _ _ _ Ha). exact Rc.
    + apply (add_node_sound certs hostname ctx Hin _ _ _ _ _ _ SB) in Ha;
        [exact Ha| |lia].
      rewrite <- (length_map util.lowcase hostname). apply agree_top.
Qed.

Lemma add_certs_sound all certs :
  forall lt lt',
    incl certs all -> Forall (fun p => hostname_fits (fst p)) certs ->
    tree_ok lt -> root_sound all (root lt) ->
    add_certs lt certs = Some lt' ->
    root_sound all (root lt').
Proof.
  induction certs as [|[hostname ctx] rest IH]; intros lt lt' In F T S;
    cbn [add_certs].
  - intro H. injection H as <-. exact S.
  - inversion F as [|p l Fh Fr]; subst. cbn [fst] in Fh.
    destruct (add_cert_returns lt ctx hostname T Fh) as (lt1 & E1 & T1).
    rewrite E1. apply IH; [|exact Fr|exact T1|].
    + intros x Hx. apply In. right. exact Hx.
    + apply (add_cert_sound all lt ctx hostname lt1); [|exact Fh|exact S|exact E1].
      apply In. left. reflexivity.
Qed.

(** A lookup in a tree built by registrations yields registered contexts
    only. *)
Lemma add_certs_lookup_sound certs lt query c :
  Forall (fun p => hostname_fits (fst p)) certs ->
  add_certs cert_lookup_tree_new certs = Some lt ->
  hostname_fits query ->
  cert_lookup_tree_lookup lt query = Some c ->
  query <> [] /\ registered_for certs query c.
Proof.
  intros F A FitQ L.
  destruct (add_certs_returns certs cert_lookup_tree_new tree_ok_new F)
    as (lt0 & E0 & (_ & Rf & Rl)).
  rewrite A in E0. injection E0 as <-.
  assert (S : root_sound certs (root lt)).
  { apply (add_certs_sound certs certs cert_lookup_tree_new lt);
      [apply incl_refl|exact F|exact tree_ok_new| |exact A].
    split; [reflexivity|]. split; constructor. }
  destruct S as [Rc [Sw Sn]].
  rewrite (lookup_from_root lt query Rf Rl FitQ) in L.
  destruct (Z.eqb_spec (Z.of_nat (length query) - 1) (-1)) as [Eq|Eq];
    [congruence|].
  split; [intros ->; apply Eq; reflexivity|].
  unfold lookup_below in L.
  destruct (match_wildcard_certs (wildcard_certs (root lt)) query) as [w|] eqn:MW.
  - subst w. destruct (match_wildcard_certs_In _ _ _ MW) as (pt & I & M).
    destruct (proj1 (Forall_forall _ _) Sw _ I) as (hostname & Ih & St & Ep).
    cbn [fst snd] in Ih, Ep. subst pt. exists hostname.
    split; [exact Ih|]. right. split; [exact St|exact M].
  - destruct (nth_error (next (root lt))
                (find_next (next (root lt))
                   (util.lowcase
                      (char_at query (Z.of_nat (length query) - 1)))))
      as [x|] eqn:Fx; [|discriminate L].
    apply nth_error_In in Fx.
    apply (lookup_node_sound certs x [] (-1) query
             (Z.of_nat (length query) - 1) c);
      [exact (proj1 (Forall_forall _ _) Sn x Fx)| |exact L].
    rewrite <- (length_map util.lowcase query). apply agree_top.
Qed.

Lemma registered_for_nonempty certs query c :
  query <> [] -> registered_for certs query c ->
  exists hostname,
    hostname <> [] /\ In (hostname, Some c) certs
    /\ (case_equal hostname query
        \/ (In STAR hostname
            /\ tls_hostname_match (c_str (map util.lowcase hostname))
                                  (c_str query) = true)).
Proof.
  intros Nq (hostname & I & M). exists hostname. split; [|split; assumption].
  intros ->. destruct M as [C|[[] _]].
  apply case_equal_length in C. destruct query; [contradiction|discriminate C].
Qed.

(** X10.  A lookup in a tree built by registrations never yields a context
    but one that was registered for the query: under a name that the query
    is up to case, or under a name with a wildcard whose lower-case copy
    [tls_hostname_match] accepts as a pattern for the query.  The name is
    not empty; an empty query is never answered. *)
Theorem X10_lookup_yields_registered
        (certs : list (list ascii * option SSL_CTX)) (lt : CertLookupTree)
        (query : list ascii) (c : SSL_CTX) :
  Forall (fun p => hostname_fits (fst p)) certs ->
  add_certs cert_lookup_tree_new certs = Some lt ->
  hostname_fits query ->
  cert_lookup_tree_lookup lt query = Some c ->
  query <> []
  /\ exists hostname,
      hostname <> [] /\ In (hostname, Some c) certs
      /\ (case_equal hostname query
          \/ (In STAR hostname
              /\ tls_hostname_match (c_str (map util.lowcase hostname))
                                    (c_str query) = true)).
Proof.
  intros F A FitQ L.
  destruct (add_certs_lookup_sound certs lt query c F A FitQ L) as [Nq R].
  split; [exact Nq|]. exact (registered_for_nonempty certs query c Nq R).
Qed.

Lemma X10_lookup_yields_registered_witness :
  add_certs cert_lookup_tree_new example_certs = Some example_tree
  /\ cert_lookup_tree_lookup example_tree (s "WWW.example.com") = Some 4%nat
  /\ exists hostname,
      hostname <> [] /\ In (hostname, Some 4%nat) example_certs
      /\ (case_equal hostname (s "WWW.example.com")
          \/ (In STAR hostname
              /\ tls_hostname_match (c_str (map util.lowcase hostname))
                                    (c_str (s "WWW.example.com")) = true)).
Proof.
  assert (A : add_certs cert_lookup_tree_new example_certs = Some example_tree)
    by reflexivity.
  assert (L : cert_lookup_tree_lookup example_tree (s "WWW.example.com")
              = Some 4%nat) by reflexivity.
  split; [exact A|]. split; [exact L|].
  apply (X10_lookup_yields_registered example_certs example_tree
           (s "WWW.example.com") 4%nat); [|exact A| |exact L].
  - unfold example_certs.
    repeat (constructor; [unfold hostname_fits, INT_MAX; simpl; lia|]).
    constructor.
  - unfold hostname_fits, INT_MAX. simpl. lia.
Defined.
(** ** What a registration can change *)

Lemma match_wildcard_certs_app ws1 ws2 query :
  match_wildcard_certs (ws1 ++ ws2) query
  = match match_wildcard_certs ws1 query with
    | Some w => Some w
    | None => match_wildcard_certs ws2 query
    end.
Proof.
  induction ws1 as [|w rest IH]; cbn [app match_wildcard_certs];
    [reflexivity|].
  destruct (tls_hostname_match (c_str (fst w)) (c_str query));
    [reflexivity|exact IH].
Qed.

Lemma frame_with_ssl_ctx cn ctx query j :
  cert_lookup_tree_lookup_node (with_ssl_ctx cn ctx) query j
  = cert_lookup_tree_lookup_node cn query j
  \/ cert_lookup_tree_lookup_node (with_ssl_ctx cn ctx) query j = ctx.
Proof.
  rewrite !lookup_node_unfold. cbn [with_ssl_ctx str first last ssl_ctx].
  destruct (walk util.lowcase (loop_fuel j) (str cn) query (last cn)
                 (first cn) j) as [iq jq].
  destruct (negb (iq =? last cn)); [left; reflexivity|].
  destruct (jq =? -1); [right; reflexivity|left; reflexivity].
Qed.

Lemma frame_rec cn cn' ctx :
  str cn' = str cn -> first cn' = first cn -> last cn' = last cn ->
  ssl_ctx cn' = ssl_ctx cn ->
  (forall query j,
      0 <= j ->
      lookup_below cn' query j = lookup_below cn query j
      \/ lookup_below cn' query j = ctx) ->
  forall query j,
    0 <= j ->
    cert_lookup_tree_lookup_node cn' query j
    = cert_lookup_tree_lookup_node cn query j
    \/ cert_lookup_tree_lookup_node cn' query j = ctx.
Proof.
  intros Es Ef El Ec R query j J.
  rewrite !lookup_node_unfold, Es, Ef, El, Ec.
  destruct (walk util.lowcase (loop_fuel j) (str cn) query (last cn)
                 (first cn) j) as [iq jq] eqn:Wq.
  pose proof (walk_offset_bounds _ _ _ _ _ _ _ _ Wq ltac:(lia)) as Bq.
  destruct (negb (iq =? last cn)); [left; reflexivity|].
  destruct (Z.eqb_spec jq (-1)) as [E|E]; [left; reflexivity|].
  apply R. lia.
Qed.

Lemma frame_split cn i' ctx1 :
  last cn < i' < first cn ->
  forall query j,
    0 <= j ->
    cert_lookup_tree_lookup_node (split_upper cn i' ctx1) query j
    = cert_lookup_tree_lookup_node cn query j
    \/ cert_lookup_tree_lookup_node (split_upper cn i' ctx1) query j = ctx1.
Proof.
  intros B query j J.
  rewrite <- (lookup_split cn i' B query j J).
  exact (frame_with_ssl_ctx (split_upper cn i' None) ctx1 query j).
Qed.

Lemma frame_set_next node cn cn' ctx c0 :
  nth_error (next node) (find_next (next node) c0) = Some cn ->
  first_char cn' = first_char cn ->
  (forall query j,
      0 <= j ->
      cert_lookup_tree_lookup_node cn' query j
      = cert_lookup_tree_lookup_node cn query j
      \/ cert_lookup_tree_lookup_node cn' query j = ctx) ->
  forall query j,
    0 <= j ->
    let node' :=
      with_next node (set_next (next node) (find_next (next node) c0) cn') in
    lookup_below node' query j = lookup_below node query j
    \/ lookup_below node' query j = ctx.
Proof.
  intros Hf Fc R query j J. cbv zeta. unfold lookup_below.
  cbn [with_next wildcard_certs next].
  destruct (match_wildcard_certs (wildcard_certs node) query);
    [left; reflexivity|].
  rewrite (find_next_set_next _ _ cn cn' _ Hf Fc).
  destruct (Nat.eq_dec
              (find_next (next node) (util.lowcase (char_at query j)))
              (find_next (next node) c0)) as [E|D].
  - rewrite E, (set_next_nth _ _ _ _ Hf), Hf. apply R. exact J.
  - rewrite (set_next_other _ _ _ _ D). left. reflexivity.
Qed.

Lemma frame_push_wildcard node h ctx query j :
  lookup_below (push_wildcard node h ctx) query j = lookup_below node query j
  \/ lookup_below (push_wildcard node h ctx) query j = ctx.
Proof.
  unfold lookup_below. cbn [push_wildcard wildcard_certs next].
  rewrite match_wildcard_certs_app.
  destruct (match_wildcard_certs (wildcard_certs node) query);
    [left; reflexivity|].
  cbn [match_wildcard_certs fst snd].
  destruct (tls_hostname_match (c_str h) (c_str query));
    [right; reflexivity|left; reflexivity].
Qed.

Lemma lookup_new_leaf_range ctx h o query j :
  cert_lookup_tree_lookup_node (new_leaf ctx h o) query j = None
  \/ cert_lookup_tree_lookup_node (new_leaf ctx h o) query j = ctx.
Proof.
  rewrite lookup_node_unfold. unfold lookup_below, new_leaf.
  cbn [str first last ssl_ctx wildcard_certs next].
  destruct (walk util.lowcase (loop_fuel j) h query
                 (scan_wildcard (loop_fuel o) h o) o j) as [iq jq].
  destruct (negb (iq =? scan_wildcard (loop_fuel o) h o)); [left; reflexivity|].
  destruct (scan_wildcard (loop_fuel o) h o =? -1).
  - destruct (jq =? -1); [right; reflexivity|]. left.
    cbn [match_wildcard_certs find_next nth_error].
    reflexivity.
  - destruct (jq =? -1); [left; reflexivity|].
    cbn [match_wildcard_certs fst snd].
    destruct (tls_hostname_match (c_str h) (c_str query));
      [right; reflexivity|left; reflexivity].
Qed.

Lemma frame_new_leaf node ctx h o :
  nth_error (next node) (find_next (next node) (char_at h o)) = None ->
  forall query j,
    let node' := with_next node (next node ++ [new_leaf ctx h o]) in
    lookup_below node' query j = lookup_below node query j
    \/ lookup_below node' query j = ctx.
Proof.
  intros Hf query j. cbv zeta. unfold lookup_below.
  cbn [with_next wildcard_certs next].
  destruct (match_wildcard_certs (wildcard_certs node) query);
    [left; reflexivity|].
  destruct (nth_error (next node)
              (find_next (next node) (util.lowcase (char_at query j))))
    as [x|] eqn:Fx.
  - destruct (find_next_app_found _ (new_leaf ctx h o) _ _ Fx) as [-> ->].
    left. reflexivity.
  - destruct (ascii_dec (first_char (new_leaf ctx h o))
                        (util.lowcase (char_at query j))) as [E|E].
    + rewrite (find_next_app_new _ (new_leaf ctx h o) _ Fx E),
        nth_error_app_new.
      apply lookup_new_leaf_range.
    + rewrite (find_next_app_none _ _ _ Fx E). left. reflexivity.
Qed.

(** Below a node, a registration leaves the lookup of a query as it was or
    makes it the registered context. *)
Lemma add_node_frame fuel :
  forall node ctx h o node',
    nonempty_edges node -> 0 <= o ->
    cert_lookup_tree_add_cert_node fuel node ctx h o = Some node' ->
    forall query j,
      0 <= j ->
      lookup_below node' query j = lookup_below node query j
      \/ lookup_below node' query j = ctx.
Proof.
  induction fuel as [|fuel IH]; intros node ctx h o node' N O H;
    [discriminate H|].
  cbn [cert_lookup_tree_add_cert_node] in H.
  revert H. add_body_cases node h o; intro H;
    try (destruct (find_next_found _ _ _ Hfind) as [Hc I];
         destruct (nonempty_edges_child _ _ N I) as [Lc Nc];
         destruct (walk_bounds _ _ _ _ _ _ _ _ Hwalk) as (Bi & Bj & _);
         [lia|lia|];
         destruct (walk_progress _ _ _ _ _ _ _ _ Hwalk Lc O Hc) as [Pi Pj]).
  - injection H as <-. intros query j0 J0. left. reflexivity.
  - injection H as <-. intros query j0 J0.
    apply (frame_set_next node cn (with_ssl_ctx cn ctx) ctx _ Hfind eq_refl);
      [|exact J0].
    intros q k _. apply frame_with_ssl_ctx.
  - apply Z.eqb_neq in Hj.
    destruct (cert_lookup_tree_add_cert_node fuel cn ctx h j) as [cn'|] eqn:Hrec;
      [|discriminate H].
    injection H as <-.
    destruct (add_node_header _ _ _ _ _ _ Hrec) as (Es & Ef & El).
    pose proof (add_node_ssl_ctx _ _ _ _ _ _ Hrec) as Ec.
    assert (Oj : 0 <= j) by lia.
    pose proof (IH cn ctx h j cn' Nc Oj Hrec) as R.
    intros query j0 J0.
    apply (frame_set_next node cn cn' ctx _ Hfind); [| |exact J0].
    + unfold first_char. rewrite Es, Ef. reflexivity.
    + exact (frame_rec cn cn' ctx Es Ef El Ec R).
  - injection H as <-. apply Z.eqb_neq in Hi. intros query j0 J0.
    apply (frame_set_next node cn (split_upper cn i' ctx) ctx _ Hfind eq_refl);
      [|exact J0].
    apply frame_split. lia.
  - apply Z.eqb_neq in Hi. apply Z.eqb_neq in Hj.
    change (match cert_lookup_tree_add_cert_node fuel
                    (split_upper cn i' None) ctx h j with
            | Some cn' =>
                Some (with_next node
                        (set_next (next node)
                           (find_next (next node) (char_at h o)) cn'))
            | None => None
            end = Some node') in H.
    destruct (cert_lookup_tree_add_cert_node fuel (split_upper cn i' None)
                ctx h j) as [cn'|] eqn:Hrec; [|discriminate H].
    injection H as <-.
    destruct (add_node_header _ _ _ _ _ _ Hrec) as (Es & Ef & El).
    pose proof (add_node_ssl_ctx _ _ _ _ _ _ Hrec) as Ec.
    assert (Oj : 0 <= j) by lia.
    assert (Li : last cn < i') by lia.
    pose proof (IH (split_upper cn i' None) ctx h j cn'
                   (split_upper_nonempty cn i' None Li Nc) Oj Hrec) as R.
    intros query j0 J0.
    apply (frame_set_next node cn cn' ctx _ Hfind);
      [unfold first_char; rewrite Es, Ef; reflexivity| |exact J0].
    intros q k K.
    destruct (frame_rec (split_upper cn i' None) cn' ctx Es Ef El Ec R q k K)
      as [E|E]; [|right; exact E].
    left. rewrite E. apply lookup_split; lia.
  - injection H as <-. intros query j0 _. apply frame_push_wildcard.
  - injection H as <-. intros query j0 _.
    exact (frame_new_leaf node ctx h o Hfind query j0).
Qed.

Lemma add_cert_frame lt ctx hostname lt' query :
  tree_ok lt -> hostname_fits hostname -> hostname_fits query ->
  cert_lookup_tree_add_cert lt ctx hostname = Some lt' ->
  cert_lookup_tree_lookup lt' query = cert_lookup_tree_lookup lt query
  \/ cert_lookup_tree_lookup lt' query = ctx.
Proof.
  intros (N & Rf & Rl) Fit FitQ. unfold cert_lookup_tree_add_cert.
  destruct (Z.eqb_spec (Z.of_nat (length hostname)) 0) as [E|E].
  - intro H. injection H as <-. left. reflexivity.
  - rewrite (top_offset _ Fit).
    destruct (cert_lookup_tree_add_cert_node
                (loop_fuel (Z.of_nat (length hostname) - 1)) (root lt) ctx
                (map util.lowcase hostname) (Z.of_nat (length hostname) - 1))
      as [r|] eqn:Ha; [|discriminate].
    intro H. injection H as <-.
    destruct (add_node_header _ _ _ _ _ _ Ha) as (_ & Ef & El).
    pose proof (add_node_ssl_ctx _ _ _ _ _ _ Ha) as Ec.
    assert (O : 0 <= Z.of_nat (length hostname) - 1) by lia.
    pose proof (add_node_frame _ _ _ _ _ _ N O Ha) as R.
    rewrite !lookup_from_root; cbn [root]; try assumption; try lia.
    rewrite Ec.
    destruct (Z.eqb_spec (Z.of_nat (length query) - 1) (-1)) as [Eq|Eq];
      [left; reflexivity|].
    apply R. lia.
Qed.

(** X11.  Whatever the hostname, with or without wildcard, registering it
    in a tree built by registrations returns, and it leaves the lookup of
    every query as it was or makes it the context just registered: no query
    is moved to any other context, and none that was answered loses its
    answer but to the new context. *)
Theorem X11_add_cert_frame
        (certs : list (list ascii * option SSL_CTX)) (lt : CertLookupTree)
        (hostname : list ascii) (ctx : option SSL_CTX) :
  Forall (fun p => hostname_fits (fst p)) certs ->
  add_certs cert_lookup_tree_new certs = Some lt ->
  hostname_fits hostname ->
  exists lt',
    cert_lookup_tree_add_cert lt ctx hostname = Some lt'
    /\ forall query,
        hostname_fits query ->
        cert_lookup_tree_lookup lt' query = cert_lookup_tree_lookup lt query
        \/ cert_lookup_tree_lookup lt' query = ctx.
Proof.
  intros F A Fit.
  destruct (add_certs_returns certs cert_lookup_tree_new tree_ok_new F)
    as (lt0 & E0 & T).
  rewrite A in E0. injection E0 as <-.
  destruct (add_cert_returns lt ctx hostname T Fit) as (lt' & E & _).
  exists lt'. split; [exact E|]. intros query FitQ.
  exact (add_cert_frame lt ctx hostname lt' query T Fit FitQ E).
Qed.

Lemma X11_add_cert_frame_witness :
  add_certs cert_lookup_tree_new example_certs = Some example_tree
  /\ hostname_fits (s "*.co.uk")
  /\ exists lt',
      cert_lookup_tree_add_cert example_tree (Some 9%nat) (s "*.co.uk")
      = Some lt'
      /\ cert_lookup_tree_lookup example_tree (s "foo.co.uk") = Some 1%nat
      /\ cert_lookup_tree_lookup lt' (s "foo.co.uk") = Some 9%nat
      /\ (cert_lookup_tree_lookup lt' (s "baz.co.jp")
          = cert_lookup_tree_lookup example_tree (s "baz.co.jp")
          \/ cert_lookup_tree_lookup lt' (s "baz.co.jp") = Some 9%nat).
Proof.
  assert (A : add_certs cert_lookup_tree_new example_certs = Some example_tree)
    by reflexivity.
  assert (Fit : hostname_fits (s "*.co.uk")).
  { unfold hostname_fits, INT_MAX. simpl. lia. }
  split; [exact A|]. split; [exact Fit|].
  destruct (X11_add_cert_frame example_certs example_tree (s "*.co.uk")
              (Some 9%nat)) as (lt' & E & L); [|exact A|exact Fit|].
  { unfold example_certs.
    repeat (constructor; [unfold hostname_fits, INT_MAX; simpl; lia|]).
    constructor. }
  exists lt'. split; [exact E|]. split; [reflexivity|].
  split; [|apply L; unfold hostname_fits, INT_MAX; simpl; lia].
  vm_compute in E. injection E as <-. reflexivity.
Defined.
(** ** Session tickets: issue, then accept *)

Lemma memcmp_eq_firstn n a rest :
  (n <= length a)%nat -> memcmp_eq n a (firstn n a ++ rest) = true.
Proof.
  revert a. induction n as [|n IH]; intros a L; [reflexivity|].
  destruct a as [|x a]; [cbn [length] in L; lia|].
  cbn [memcmp_eq firstn app]. rewrite (Byte.byte_dec_lb (eq_refl x)). cbn [andb].
  apply IH. cbn [length] in L. lia.
Qed.

(** X12.  A ticket that [ticket_key_cb] issues is accepted by the same key
    ring: the key name the encrypting call writes makes the decrypting call
    return 1, with the key and the initialisation vector of the encrypting
    call, whatever the other keys of the ring are. *)
Theorem X12_ticket_issue_then_accept
        (key0 : TicketKey) (rest : list TicketKey)
        (rand_iv key_name iv : list Byte.byte)
        (rand' : option (list Byte.byte)) :
  length (name key0) = 16%nat ->
  exists key_name',
    ticket_key_cb (Some (key0 :: rest)) (Some rand_iv) key_name iv true
    = Some (1, EncryptInit key0 rand_iv)
    /\ ticket_key_cb_written (Some (key0 :: rest)) (Some rand_iv) key_name true
       = Some (key_name', rand_iv)
    /\ firstn 16 key_name' = name key0
    /\ ticket_key_cb (Some (key0 :: rest)) rand' key_name' rand_iv false
       = Some (1, DecryptInit key0 rand_iv).
Proof.
  intro L. exists (firstn 16 (name key0) ++ skipn 16 key_name).
  split; [reflexivity|]. split; [reflexivity|]. split.
  - assert (E : firstn 16 (name key0) = name key0)
      by (apply firstn_all2; lia).
    rewrite E, firstn_app, E, L, Nat.sub_diag, firstn_O. apply app_nil_r.
  - rewrite ticket_key_cb_decrypt.
    rewrite memcmp_eq_firstn by lia. reflexivity.
Qed.

Lemma X12_ticket_issue_then_accept_witness :
  length (name primary_key) = 16%nat
  /\ ticket_key_cb (Some [primary_key; older_key]) None
                   (name primary_key) (bytes16 Byte.x05) false
     = Some (1, DecryptInit primary_key (bytes16 Byte.x05)).
Proof.
  assert (L : length (name primary_key) = 16%nat) by reflexivity.
  split; [exact L|].
  destruct (X12_ticket_issue_then_accept primary_key [older_key]
              (bytes16 Byte.x05) (bytes16 Byte.x00) (bytes16 Byte.x00) None L)
    as (kn & _ & W & _ & D).
  vm_compute in W. injection W as <-. exact D.
Defined.
(** ** The names of a certificate *)

Lemma has_nul_spec buf : has_nul buf = true <-> In NUL buf.
Proof.
  unfold has_nul. rewrite existsb_exists. split.
  - intros (x & I & E). apply Ascii.eqb_eq in E. subst x. exact I.
  - intro I. exists NUL. split; [exact I|apply Ascii.eqb_refl].
Qed.

Lemma has_nul_false buf : has_nul buf = false <-> ~ In NUL buf.
Proof.
  rewrite <- has_nul_spec. destruct (has_nul buf); split; congruence.
Qed.

Lemma c_str_no_nul buf : ~ In NUL buf -> c_str buf = buf.
Proof.
  intro N. rewrite <- (app_nil_r buf) at 2.
  induction buf as [|c buf IH]; [reflexivity|]. cbn [c_str app].
  destruct (Ascii.eqb_spec c NUL) as [E|E]; [exfalso; apply N; left; exact E|].
  f_equal. apply IH. intro I. apply N. right. exact I.
Qed.

Lemma altnames_loop_spec altnames :
  forall dns_names ip_addrs dns_names' ip_addrs',
    altnames_loop altnames dns_names ip_addrs = (dns_names', ip_addrs') ->
    (forall name,
        In name dns_names'
        <-> In name dns_names
            \/ (In (GEN_DNS (Some name)) altnames /\ ~ In NUL name))
    /\ (forall addr,
           In addr ip_addrs'
           <-> In addr ip_addrs \/ In (GEN_IPADD (Some addr)) altnames).
Proof.
  induction altnames as [|g rest IH]; intros d i d' i' H.
  - cbn [altnames_loop] in H. injection H as <- <-.
    split; intro x; cbn [In]; tauto.
  - cbn [altnames_loop] in H.
    destruct g as [[name|]|[addr|]|].
    + destruct (has_nul name) eqn:N.
      * destruct (IH _ _ _ _ H) as [D I]. split; intro x.
        -- rewrite D. cbn [In]. split; [tauto|].
           intros [Hx|[[E|Hx] Nx]]; [tauto| |tauto].
           injection E as <-. apply has_nul_spec in N. contradiction.
        -- rewrite I. cbn [In]. split; [tauto|].
           intros [Hx|[E|Hx]]; [tauto|discriminate E|tauto].
      * destruct (IH _ _ _ _ H) as [D I]. apply has_nul_false in N.
        split; intro x.
        -- rewrite D, in_app_iff. cbn [In]. split.
           ++ intros [[Hx|[<-|[]]]|[Hx Nx]]; [tauto| |tauto].
              right. split; [left; reflexivity|exact N].
           ++ intros [Hx|[[E|Hx] Nx]]; [tauto| |tauto].
              injection E as <-. tauto.
        -- rewrite I. cbn [In]. split; [tauto|].
           intros [Hx|[E|Hx]]; [tauto|discriminate E|tauto].
    + destruct (IH _ _ _ _ H) as [D I]. split; intro x.
      * rewrite D. cbn [In]. split; [tauto|].
        intros [Hx|[[E|Hx] Nx]]; [tauto|discriminate E|tauto].
      * rewrite I. cbn [In]. split; [tauto|].
        intros [Hx|[E|Hx]]; [tauto|discriminate E|tauto].
    + destruct (IH _ _ _ _ H) as [D I]. split; intro x.
      * rewrite D. cbn [In]. split; [tauto|].
        intros [Hx|[[E|Hx] Nx]]; [tauto|discriminate E|tauto].
      * rewrite I, in_app_iff. cbn [In]. split.
        -- intros [[Hx|[<-|[]]]|Hx]; tauto.
        -- intros [Hx|[E|Hx]]; [tauto| |tauto]. injection E as <-. tauto.
    + destruct (IH _ _ _ _ H) as [D I]. split; intro x.
      * rewrite D. cbn [In]. split; [tauto|].
        intros [Hx|[[E|Hx] Nx]]; [tauto|discriminate E|tauto].
      * rewrite I. cbn [In]. split; [tauto|].
        intros [Hx|[E|Hx]]; [tauto|discriminate E|tauto].
    + destruct (IH _ _ _ _ H) as [D I]. split; intro x.
      * rewrite D. cbn [In]. split; [tauto|].
        intros [Hx|[[E|Hx] Nx]]; [tauto|discriminate E|tauto].
      * rewrite I. cbn [In]. split; [tauto|].
        intros [Hx|[E|Hx]]; [tauto|discriminate E|tauto].
Qed.

(** The common name the loop leaves: the first one of the subject that
    converts and holds no NUL, and the string as it was if there is
    none. *)
Lemma common_name_loop_spec entries common_name :
  (common_name_loop entries common_name = common_name
   /\ forall entry name,
       In entry entries -> is_commonName entry = true ->
       to_UTF8 entry = Some name -> In NUL name)
  \/ exists before entry after,
      entries = before ++ entry :: after
      /\ is_commonName entry = true
      /\ to_UTF8 entry = Some (common_name_loop entries common_name)
      /\ ~ In NUL (common_name_loop entries common_name)
      /\ forall e name,
          In e before -> is_commonName e = true ->
          to_UTF8 e = Some name -> In NUL name.
Proof.
  induction entries as [|entry rest IH]; cbn [common_name_loop].
  - left. split; [reflexivity|]. intros e n [].
  - assert (Skip : (is_commonName entry = false
                    \/ to_UTF8 entry = None
                    \/ exists out, to_UTF8 entry = Some out /\ In NUL out) ->
                   (common_name_loop rest common_name = common_name
                    /\ forall e name,
                        In e (entry :: rest) -> is_commonName e = true ->
                        to_UTF8 e = Some name -> In NUL name)
                   \/ exists before e0 after,
                       entry :: rest = before ++ e0 :: after
                       /\ is_commonName e0 = true
                       /\ to_UTF8 e0 = Some (common_name_loop rest common_name)
                       /\ ~ In NUL (common_name_loop rest common_name)
                       /\ forall e name,
                           In e before -> is_commonName e = true ->
                           to_UTF8 e = Some name -> In NUL name).
    { intro Bad.
      assert (B : forall name, is_commonName entry = true ->
                               to_UTF8 entry = Some name -> In NUL name).
      { intros name C U.
        destruct Bad as [F|[F|(out & F & N)]]; [congruence|congruence|].
        rewrite U in F. injection F as <-. exact N. }
      destruct IH as [[E A]|(before & e0 & after & E & C & U & N & A)].
      - left. split; [exact E|].
        intros e name [<-|I]; [apply B|apply A; exact I].
      - right. exists (entry :: before), e0, after.
        split; [rewrite E; reflexivity|]. split; [exact C|].
        split; [exact U|]. split; [exact N|].
        intros e name [<-|I]; [apply B|apply A; exact I]. }
    destruct (is_commonName entry) eqn:C; [|apply Skip; left; reflexivity].
    destruct (to_UTF8 entry) as [out|] eqn:U;
      [|apply Skip; right; left; reflexivity].
    destruct (has_nul out) eqn:N.
    + apply Skip. right. right. exists out. split; [reflexivity|].
      apply has_nul_spec. exact N.
    + right. exists [], entry, rest. split; [reflexivity|].
      split; [exact C|]. split; [exact U|].
      split; [apply has_nul_false; exact N|]. intros e name [].
Qed.

Lemma get_altnames_spec cert dns_names ip_addrs common_name :
  let '(dns_names', ip_addrs', common_name') :=
    get_altnames cert dns_names ip_addrs common_name in
  (forall name,
      In name dns_names' <-> In name dns_names \/ dns_name_of cert name)
  /\ (forall addr,
         In addr ip_addrs' <-> In addr ip_addrs \/ ip_addr_of cert addr)
  /\ ((common_name' = common_name
       /\ forall name, ~ common_name_of cert name)
      \/ common_name_of cert common_name').
Proof.
  unfold get_altnames, dns_name_of, ip_addr_of, common_name_of.
  destruct cert as [san subj]. cbn [subject_alt_name subject_name].
  assert (A : let '(d, i) :=
                match san with
                | Some altnames => altnames_loop altnames dns_names ip_addrs
                | None => (dns_names, ip_addrs)
                end in
              (forall name,
                  In name d
                  <-> In name dns_names
                      \/ exists altnames,
                        san = Some altnames
                        /\ In (GEN_DNS (Some name)) altnames /\ ~ In NUL name)
              /\ (forall addr,
                     In addr i
                     <-> In addr ip_addrs
                         \/ exists altnames,
                           san = Some altnames
                           /\ In (GEN_IPADD (Some addr)) altnames)).
  { destruct san as [altnames|].
    - destruct (altnames_loop altnames dns_names ip_addrs) as [d i] eqn:L.
      destruct (altnames_loop_spec _ _ _ _ _ L) as [D I]. split; intro x.
      + rewrite D. split; [|intros [Hx|(a & E & Hx)]; [tauto|]].
        * intros [Hx|Hx]; [tauto|]. right. exists altnames. tauto.
        * injection E as <-. tauto.
      + rewrite I. split; [|intros [Hx|(a & E & Hx)]; [tauto|]].
        * intros [Hx|Hx]; [tauto|]. right. exists altnames. tauto.
        * injection E as <-. tauto.
    - split; intro x; (split; [tauto|]);
        intros [Hx|(a & E & _)]; [tauto|discriminate E|tauto|discriminate E]. }
  destruct (match san with
            | Some altnames => altnames_loop altnames dns_names ip_addrs
            | None => (dns_names, ip_addrs)
            end) as [d i].
  destruct A as [D I].
  destruct subj as [entries|].
  - split; [exact D|]. split; [exact I|].
    destruct (common_name_loop_spec entries common_name)
      as [[E A]|(before & e0 & after & E & C & U & N & A0)].
    + left. split; [exact E|].
      intros name (b & e & a & Es & Ce & Ue & Ne & _). injection Es as ->.
      apply Ne. apply (A e name); [apply in_elt|exact Ce|exact Ue].
    + right. exists before, e0, after.
      split; [rewrite E; reflexivity|]. split; [exact C|]. split; [exact U|].
      split; [exact N|exact A0].
  - split; [exact D|]. split; [exact I|]. left. split; [reflexivity|].
    intros name (b & e & a & Es & _). discriminate Es.
Qed.

Lemma common_name_of_unique cert n1 n2 :
  common_name_of cert n1 -> common_name_of cert n2 -> n1 = n2.
Proof.
  intros (b1 & e1 & a1 & E1 & C1 & U1 & N1 & A1)
         (b2 & e2 & a2 & E2 & C2 & U2 & N2 & A2).
  rewrite E1 in E2. injection E2 as E. clear E1.
  revert b2 E A1 A2. induction b1 as [|x b1 IH]; intros b2 E A1 A2.
  - destruct b2 as [|y b2]; cbn [app] in E.
    + injection E as <- _. congruence.
    + injection E as <- _. exfalso. apply N1.
      apply (A2 e1 n1); [left; reflexivity|exact C1|exact U1].
  - destruct b2 as [|y b2]; cbn [app] in E.
    + injection E as -> _. exfalso. apply N2.
      apply (A1 e2 n2); [left; reflexivity|exact C2|exact U2].
    + injection E as -> E. apply (IH b2 E).
      * intros e o I. apply A1. right. exact I.
      * intros e o I. apply A2. right. exact I.
Qed.

(** X14.  For a hostname that is not numeric, [check_cert] accepts, with
    0, exactly when the peer has sent a certificate, its verification has
    passed, and either a DNS name of the certificate that holds no NUL
    matches the hostname or, the certificate having no such DNS name, its
    first common name without NUL matches, an absent common name counting
    as the empty one; otherwise it returns -1.  A name with a NUL in it is
    never matched, not even by the part before the NUL. *)
Theorem X14_check_cert_dns (numeric_host : cstring -> bool)
        (peer : option X509) (verify_res : Z) (hostname : cstring)
        (su : sockaddr_union) (salen : nat) :
  numeric_host hostname = false ->
  let result := check_cert numeric_host peer verify_res hostname su salen in
  (result = 0
   <-> exists cert,
       peer = Some cert /\ verify_res = X509_V_OK
       /\ ((exists name,
               dns_name_of cert name
               /\ tls_hostname_match name hostname = true)
           \/ ((forall name, ~ dns_name_of cert name)
               /\ ((exists name,
                       common_name_of cert name
                       /\ tls_hostname_match name hostname = true)
                   \/ ((forall name, ~ common_name_of cert name)
                       /\ hostname = [])))))
  /\ (result = 0 \/ result = -1).
Proof.
  intros Nh. cbv zeta. unfold check_cert.
  destruct peer as [cert|].
  2: { split; [|right; reflexivity]. split; [discriminate|].
       intros (c & E & _). discriminate E. }
  destruct (Z.eqb_spec verify_res X509_V_OK) as [V|V]; cbn [negb].
  2: { split; [|right; reflexivity]. split; [discriminate|].
       intros (c & _ & E & _). contradiction. }
  pose proof (get_altnames_spec cert [] [] []) as S.
  destruct (get_altnames cert [] [] []) as [[dns ip] cn].
  destruct S as (D & _ & C).
  assert (D' : forall name, In name dns <-> dns_name_of cert name).
  { intro name. rewrite D. cbn [In]. tauto. }
  assert (Cs : forall name, In name dns -> c_str name = name).
  { intros name I. apply D' in I. destruct I as (a & _ & _ & N).
    apply c_str_no_nul. exact N. }
  unfold verify_hostname. rewrite Nh.
  destruct dns as [|n0 rest].
  - assert (NoD : forall name, ~ dns_name_of cert name).
    { intros name H. apply D' in H. exact H. }
    assert (M : tls_hostname_match (c_str cn) hostname = true
                <-> (exists name,
                        common_name_of cert name
                        /\ tls_hostname_match name hostname = true)
                    \/ ((forall name, ~ common_name_of cert name)
                        /\ hostname = [])).
    { destruct C as [[-> NoC]|Cn].
      - cbn [c_str]. split.
        + intro T. right. split; [exact NoC|].
          destruct hostname; [reflexivity|discriminate T].
        + intros [(name & Hn & _)|[_ ->]]; [|reflexivity].
          exfalso. exact (NoC name Hn).
      - assert (Ec : c_str cn = cn).
        { destruct Cn as (b & e & a & _ & _ & _ & N & _).
          apply c_str_no_nul. exact N. }
        rewrite Ec. split.
        + intro T. left. exists cn. split; assumption.
        + intros [(name & Hn & T)|[NoC _]].
          * rewrite (common_name_of_unique cert cn name Cn Hn). exact T.
          * exfalso. exact (NoC cn Cn). }
    destruct (tls_hostname_match (c_str cn) hostname); cbn.
    + split; [|left; reflexivity]. split; [|reflexivity].
      intros _. exists cert. split; [reflexivity|]. split; [exact V|].
      right. split; [exact NoD|]. apply M. reflexivity.
    + split; [|right; reflexivity]. split; [discriminate|].
      intros (c & E & _ & [(name & Hn & _)|[_ H]]); injection E as <-.
      * exfalso. exact (NoD name Hn).
      * apply M in H. discriminate H.
  - destruct (verify_dns_names_spec hostname (n0 :: rest)) as [V1 V2].
    destruct (Z.eqb_spec (verify_dns_names hostname (n0 :: rest)) 0) as [E|E];
      cbn [negb].
    + split; [|left; reflexivity]. split; [|reflexivity].
      intros _. exists cert. split; [reflexivity|]. split; [exact V|].
      left. apply V1 in E. destruct E as (name & I & T). exists name.
      split; [apply D'; exact I|]. rewrite <- (Cs name I). exact T.
    + split; [|right; reflexivity]. split; [discriminate|].
      intros (c & Ec & _ & [(name & Hn & T)|[NoD _]]); injection Ec as <-.
      * exfalso. apply E. apply V1. exists name. apply D' in Hn.
        split; [exact Hn|]. rewrite (Cs name Hn). exact T.
      * exfalso. apply (NoD n0). apply D'. left. reflexivity.
Qed.

Lemma X14_check_cert_dns_witness :
  check_cert (fun _ => false)
             (Some (mkX509 (Some [GEN_DNS (Some (s "example.org" ++ NUL
                                                   :: s ".example.com"));
                                  GEN_DNS (Some (s "*.example.com"))])
                           None))
             X509_V_OK (s "example.org")
             (mk_sockaddr_union AF_OTHER [] []) 0 = -1.
Proof.
  destruct (proj2 (X14_check_cert_dns (fun _ => false)
             (Some (mkX509 (Some [GEN_DNS (Some (s "example.org" ++ NUL
                                                   :: s ".example.com"));
                                  GEN_DNS (Some (s "*.example.com"))])
                           None))
             X509_V_OK (s "example.org")
             (mk_sockaddr_union AF_OTHER [] []) 0 eq_refl)) as [E|E];
    [|exact E].
  exfalso. vm_compute in E. discriminate E.
Defined.
(** ** Certificates from files *)

Lemma add_certs_app a :
  forall lt b,
    add_certs lt (a ++ b)
    = match add_certs lt a with
      | Some lt1 => add_certs lt1 b
      | None => None
      end.
Proof.
  induction a as [|[hostname ctx] a IH]; intros lt b; cbn [app add_certs];
    [reflexivity|].
  destruct (cert_lookup_tree_add_cert lt ctx hostname); [apply IH|reflexivity].
Qed.

Lemma hostname_fits_nil : hostname_fits [].
Proof. unfold hostname_fits, INT_MAX. cbn [length]. lia. Qed.

(** The names a certificate is registered under: its names, and the empty
    name in place of a common name it does not have. *)
Lemma cert_registrations_In ctx cert name c' :
  In (name, c') (cert_registrations ctx cert) ->
  c' = ctx /\ (cert_name_of cert name \/ name = []).
Proof.
  unfold cert_registrations, cert_name_of.
  pose proof (get_altnames_spec cert [] [] []) as S.
  destruct (get_altnames cert [] [] []) as [[dns ip] cn].
  destruct S as (D & _ & C). intro I. apply in_map_iff in I.
  destruct I as (n & E & I). injection E as -> ->. split; [reflexivity|].
  apply in_app_iff in I. destruct I as [I|[<-|[]]].
  - left. left. apply D in I. destruct I as [[]|I]. exact I.
  - destruct C as [[-> _]|C]; [right; reflexivity|left; right; exact C].
Qed.

Lemma cert_registrations_name ctx cert name :
  cert_name_of cert name -> In (name, ctx) (cert_registrations ctx cert).
Proof.
  unfold cert_registrations, cert_name_of.
  pose proof (get_altnames_spec cert [] [] []) as S.
  destruct (get_altnames cert [] [] []) as [[dns ip] cn].
  destruct S as (D & _ & C). intro H.
  apply (in_map (fun dns_name => (dns_name, ctx))). apply in_app_iff.
  destruct H as [H|H].
  - left. apply D. right. exact H.
  - right. left. destruct C as [[_ NoC]|C]; [exfalso; exact (NoC name H)|].
    exact (common_name_of_unique cert cn name C H).
Qed.

Lemma add_cert_from_file_cases lt ctx certfile :
  (cert_lookup_tree_add_cert_from_file lt ctx certfile = Some (-1, lt)
   /\ (BIO_new_ok certfile = false \/ BIO_read_filename_ok certfile = false
       \/ PEM_read_bio_X509 certfile = None))
  \/ exists cert,
      BIO_new_ok certfile = true /\ BIO_read_filename_ok certfile = true
      /\ PEM_read_bio_X509 certfile = Some cert
      /\ cert_lookup_tree_add_cert_from_file lt ctx certfile
         = match add_certs lt (cert_registrations ctx cert) with
           | Some lt' => Some (0, lt')
           | None => None
           end.
Proof.
  unfold cert_lookup_tree_add_cert_from_file, cert_registrations.
  destruct (BIO_new_ok certfile); cbn [negb]; [|left; auto].
  destruct (BIO_read_filename_ok certfile); cbn [negb]; [|left; auto].
  destruct (PEM_read_bio_X509 certfile) as [cert|]; [|left; auto].
  right. exists cert. split; [reflexivity|]. split; [reflexivity|].
  split; [reflexivity|].
  destruct (get_altnames cert [] [] []) as [[dns ip] cn].
  rewrite map_app, add_certs_app. cbn [map add_certs].
  destruct (add_certs lt (map (fun dns_name => (dns_name, ctx)) dns))
    as [lt1|]; [|reflexivity].
  destruct (cert_lookup_tree_add_cert lt1 ctx cn); reflexivity.
Qed.

(** Registrations with one context [c]: a lookup stays as it was or becomes
    [c], and every name without wildcard among them is answered. *)
Lemma add_certs_same_ctx c regs :
  forall lt lt',
    tree_ok lt -> wild_nonnull (root lt) ->
    Forall (fun p => hostname_fits (fst p) /\ snd p = Some c) regs ->
    add_certs lt regs = Some lt' ->
    forall query,
      hostname_fits query ->
      (cert_lookup_tree_lookup lt' query = cert_lookup_tree_lookup lt query
       \/ cert_lookup_tree_lookup lt' query = Some c)
      /\ forall name,
          In (name, Some c) regs -> name <> [] -> ~ In STAR name ->
          case_equal name query ->
          cert_lookup_tree_lookup lt' query <> None
          /\ (cert_lookup_tree_lookup lt query = None ->
              cert_lookup_tree_lookup lt' query = Some c).
Proof.
  induction regs as [|[hostname ctx] rest IH]; intros lt lt' T W F;
    cbn [add_certs].
  - intro H. injection H as <-. intros query FitQ.
    split; [left; reflexivity|]. intros name [].
  - inversion F as [|p l [Fh Fc] Fr]; subst. cbn [fst snd] in Fh, Fc. subst ctx.
    destruct (add_cert_returns lt (Some c) hostname T Fh) as (lt1 & E1 & T1).
    rewrite E1. intro H.
    assert (W1 : wild_nonnull (root lt1)).
    { apply (add_cert_wild_nonnull lt (Some c) hostname lt1 Fh W); [|exact E1].
      discriminate. }
    intros query FitQ.
    destruct (IH lt1 lt' T1 W1 Fr H query FitQ) as [Fr1 Sv1].
    pose proof (add_cert_frame lt (Some c) hostname lt1 query T Fh FitQ E1)
      as Fr0.
    split.
    + destruct Fr1 as [Ea|Ea]; [|right; exact Ea].
      rewrite Ea. exact Fr0.
    + intros name [E|I] Ne Sf Ce.
      * injection E as ->.
        pose proof (add_cert_lookup lt (Some c) name lt1 query T W Ne Sf Fh
                      FitQ E1) as L.
        rewrite (proj2 (strieq_case_equal name query) Ce) in L.
        destruct Fr1 as [Ea|Ea]; rewrite Ea; [|split; [discriminate|auto]].
        rewrite L. destruct (cert_lookup_tree_lookup lt query);
          cbn [first_wins]; split; try discriminate; auto.
      * destruct (Sv1 name I Ne Sf Ce) as [S1 S2]. split; [exact S1|].
        intro N. destruct Fr0 as [Ea|Ea]; [apply S2; congruence|].
        destruct Fr1 as [Eb|Eb]; congruence.
Qed.

(** X15.  [cert_lookup_tree_add_cert_from_file] on a tree built by
    registrations: when the file cannot be opened, read or parsed it
    returns -1 and leaves the tree as it was; otherwise it returns 0, and
    then every query is answered as before or with the context given, and
    every name of the certificate without wildcard, a DNS name or the
    common name, is answered, in whatever case it is asked for: with the
    context given if it was not answered before. *)
Theorem X15_add_cert_from_file
        (certs : list (list ascii * option SSL_CTX)) (lt : CertLookupTree)
        (c : SSL_CTX) (certfile : cert_file) :
  registrations_ok certs ->
  add_certs cert_lookup_tree_new certs = Some lt ->
  (forall cert name,
      PEM_read_bio_X509 certfile = Some cert -> cert_name_of cert name ->
      hostname_fits name) ->
  (cert_lookup_tree_add_cert_from_file lt (Some c) certfile = Some (-1, lt)
   /\ (BIO_new_ok certfile = false \/ BIO_read_filename_ok certfile = false
       \/ PEM_read_bio_X509 certfile = None))
  \/ exists cert lt',
      BIO_new_ok certfile = true /\ BIO_read_filename_ok certfile = true
      /\ PEM_read_bio_X509 certfile = Some cert
      /\ cert_lookup_tree_add_cert_from_file lt (Some c) certfile
         = Some (0, lt')
      /\ forall query,
          hostname_fits query ->
          (cert_lookup_tree_lookup lt' query = cert_lookup_tree_lookup lt query
           \/ cert_lookup_tree_lookup lt' query = Some c)
          /\ forall name,
              cert_name_of cert name -> name <> [] -> ~ In STAR name ->
              case_equal name query ->
              cert_lookup_tree_lookup lt' query <> None
              /\ (cert_lookup_tree_lookup lt query = None ->
                  cert_lookup_tree_lookup lt' query = Some c).
Proof.
  intros F A Fit.
  destruct (add_certs_invariants certs _ _ tree_ok_new new_wild_nonnull F A)
    as [T W].
  destruct (add_cert_from_file_cases lt (Some c) certfile)
    as [Fail|(cert & B1 & B2 & P & E)]; [left; exact Fail|].
  right.
  assert (Fr : Forall (fun p => hostname_fits (fst p) /\ snd p = Some c)
                      (cert_registrations (Some c) cert)).
  { apply Forall_forall. intros [name c'] I. cbn [fst snd].
    destruct (cert_registrations_In _ _ _ _ I) as [-> [N | ->]].
    - split; [exact (Fit cert name P N)|reflexivity].
    - split; [exact hostname_fits_nil|reflexivity]. }
  destruct (add_certs_returns (cert_registrations (Some c) cert) lt T)
    as (lt' & E' & _).
  { apply Forall_impl with (2 := Fr). intros p [H _]. exact H. }
  rewrite E' in E. exists cert, lt'.
  split; [exact B1|]. split; [exact B2|]. split; [exact P|].
  split; [exact E|]. intros query FitQ.
  destruct (add_certs_same_ctx c _ lt lt' T W Fr E' query FitQ) as [S1 S2].
  split; [exact S1|]. intros name N. apply S2.
  apply cert_registrations_name. exact N.
Qed.
Lemma X15_add_cert_from_file_witness :
  registrations_ok example_certs
  /\ add_certs cert_lookup_tree_new example_certs = Some example_tree
  /\ exists lt',
      cert_lookup_tree_add_cert_from_file
        example_tree (Some 8%nat)
        (mkcert_file true true
           (Some (mkX509 (Some [GEN_DNS (Some (s "www.example.net"))]) None)))
      = Some (0, lt')
      /\ cert_lookup_tree_lookup lt' (s "WWW.Example.NET") = Some 8%nat.
Proof.
  assert (F : registrations_ok example_certs).
  { unfold registrations_ok, example_certs.
    repeat (constructor;
            [split; [unfold hostname_fits, INT_MAX; simpl; lia
                    |intros _; discriminate]|]).
    constructor. }
  assert (A : add_certs cert_lookup_tree_new example_certs = Some example_tree)
    by reflexivity.
  split; [exact F|]. split; [exact A|].
  destruct (X15_add_cert_from_file example_certs example_tree 8%nat
              (mkcert_file true true
                 (Some (mkX509 (Some [GEN_DNS (Some (s "www.example.net"))])
                               None))) F A)
    as [[_ [B|[B|B]]]|(cert & lt' & _ & _ & P & E & L)];
    try discriminate B.
  - intros cert name P N. cbn in P. injection P as <-.
    destruct N as [(a & E & I & _)|(b & e & a & E & _)];
      [|discriminate E].
    cbn in E. injection E as <-. destruct I as [I|[]]. injection I as <-.
    unfold hostname_fits, INT_MAX. simpl. lia.
  - exists lt'. split; [exact E|].
    cbn in P. injection P as <-.
    assert (FitQ : hostname_fits (s "WWW.Example.NET")).
    { unfold hostname_fits, INT_MAX. simpl. lia. }
    destruct (L (s "WWW.Example.NET") FitQ) as [_ S].
    apply (S (s "www.example.net")).
    + left. exists [GEN_DNS (Some (s "www.example.net"))].
      split; [reflexivity|]. split; [left; reflexivity|].
      intro I. cbn in I.
      repeat (destruct I as [I|I]; [discriminate I|]). exact I.
    + discriminate.
    + intro I. cbn in I.
      repeat (destruct I as [I|I]; [discriminate I|]). exact I.
    + reflexivity.
    + reflexivity.
Defined.
(** ** The context chosen for a server name *)

Lemma add_cert_from_file_ok lt ctx certfile r lt' :
  cert_lookup_tree_add_cert_from_file lt ctx certfile = Some (r, lt') ->
  (r =? -1) = false ->
  add_certs lt match PEM_read_bio_X509 certfile with
               | Some cert => cert_registrations ctx cert
               | None => []
               end = Some lt'.
Proof.
  intros E R.
  destruct (add_cert_from_file_cases lt ctx certfile)
    as [[Ef _]|(cert & _ & _ & P & Es)].
  - rewrite Ef in E. injection E as <- _. discriminate R.
  - rewrite P. rewrite Es in E.
    destruct (add_certs lt (cert_registrations ctx cert)); [|discriminate E].
    injection E as _ <-. reflexivity.
Qed.

Lemma add_subcerts_registrations subcerts :
  forall lt lt',
    add_subcerts lt subcerts = Some lt' ->
    add_certs lt
      (flat_map (fun keycert =>
                   match PEM_read_bio_X509 (snd keycert) with
                   | Some cert => cert_registrations (Some (fst keycert)) cert
                   | None => []
                   end) subcerts) = Some lt'.
Proof.
  induction subcerts as [|[ctx certfile] rest IH]; intros lt lt';
    cbn [add_subcerts flat_map fst snd].
  - intro H. exact H.
  - destruct (cert_lookup_tree_add_cert_from_file lt (Some ctx) certfile)
      as [[r lt1]|] eqn:E; [|discriminate].
    destruct (r =? -1) eqn:R; [discriminate|]. intro H.
    rewrite add_certs_app, (add_cert_from_file_ok _ _ _ _ _ E R).
    exact (IH lt1 lt' H).
Qed.

Lemma setup_server_registrations upstream_no_tls ssl_ctx certfile subcerts
      res lt :
  setup_server_ssl_context upstream_no_tls ssl_ctx certfile subcerts
  = Some (res, Some lt) ->
  add_certs cert_lookup_tree_new
            (setup_registrations ssl_ctx certfile subcerts) = Some lt.
Proof.
  unfold setup_server_ssl_context, setup_registrations.
  destruct upstream_no_tls; [discriminate|].
  destruct subcerts as [|keycert rest]; [discriminate|].
  destruct (add_subcerts cert_lookup_tree_new (keycert :: rest))
    as [lt1|] eqn:A; [|discriminate].
  destruct (cert_lookup_tree_add_cert_from_file lt1 (Some ssl_ctx) certfile)
    as [[r lt2]|] eqn:E; [|discriminate].
  destruct (r =? -1) eqn:R; [discriminate|]. intro H. injection H as _ <-.
  rewrite flat_map_app, add_certs_app, (add_subcerts_registrations _ _ _ A).
  cbn [flat_map fst snd]. rewrite app_nil_r.
  exact (add_cert_from_file_ok _ _ _ _ _ E R).
Qed.

Lemma setup_registrations_fit ssl_ctx certfile subcerts :
  (forall keycert cert name,
      In keycert (subcerts ++ [(ssl_ctx, certfile)]) ->
      PEM_read_bio_X509 (snd keycert) = Some cert ->
      cert_name_of cert name -> hostname_fits name) ->
  Forall (fun p => hostname_fits (fst p))
         (setup_registrations ssl_ctx certfile subcerts).
Proof.
  intro Fit. apply Forall_forall. intros [name c'] I. cbn [fst].
  unfold setup_registrations in I. apply in_flat_map in I.
  destruct I as (keycert & Ik & I).
  destruct (PEM_read_bio_X509 (snd keycert)) as [cert|] eqn:P; [|destruct I].
  destruct (cert_registrations_In _ _ _ _ I) as [_ [N | ->]].
  - exact (Fit keycert cert name Ik P N).
  - exact hostname_fits_nil.
Qed.

(** A context found in the tree that [setup_server_ssl_context] builds is
    the context of a certificate that names the host. *)
Lemma setup_lookup_sound upstream_no_tls ssl_ctx certfile subcerts res lt
      hostname c :
  (forall keycert cert name,
      In keycert (subcerts ++ [(ssl_ctx, certfile)]) ->
      PEM_read_bio_X509 (snd keycert) = Some cert ->
      cert_name_of cert name -> hostname_fits name) ->
  hostname_fits hostname ->
  setup_server_ssl_context upstream_no_tls ssl_ctx certfile subcerts
  = Some (res, Some lt) ->
  cert_lookup_tree_lookup lt hostname = Some c ->
  exists file cert name,
    In (c, file) (subcerts ++ [(ssl_ctx, certfile)])
    /\ PEM_read_bio_X509 file = Some cert
    /\ cert_name_of cert name
    /\ (case_equal name hostname
        \/ (In STAR name
            /\ tls_hostname_match (c_str (map util.lowcase name))
                                  (c_str hostname) = true)).
Proof.
  intros Fit FitQ S L.
  pose proof (setup_server_registrations _ _ _ _ _ _ S) as A.
  pose proof (setup_registrations_fit _ _ _ Fit) as F.
  destruct (add_certs_lookup_sound _ _ _ _ F A FitQ L) as [Nq R].
  destruct (registered_for_nonempty _ _ _ Nq R) as (name & Nn & I & M).
  unfold setup_registrations in I. apply in_flat_map in I.
  destruct I as ([c0 file] & Ik & I). cbn [fst snd] in I.
  destruct (PEM_read_bio_X509 file) as [cert|] eqn:P; [|destruct I].
  destruct (cert_registrations_In _ _ _ _ I) as [Ec [N|E]];
    [|contradiction].
  injection Ec as ->.
  exists file, cert, name. split; [exact Ik|].
  split; [exact P|]. split; [exact N|exact M].
Qed.

(** X16.  After [setup_server_ssl_context], [servername_callback] always
    returns [SSL_TLSEXT_ERR_OK], and the context it leaves is the one the
    connection had or the context of a certificate, a sub certificate or
    the default one, that names the requested host: by a DNS name or its
    common name, one that holds no NUL and that the host is up to case,
    or that holds a wildcard and is accepted by [tls_hostname_match] as a
    pattern for the host. *)
Theorem X16_servername_selects_named_cert
        (upstream_no_tls : bool) (ssl_ctx : SSL_CTX) (certfile : cert_file)
        (subcerts : list (SSL_CTX * cert_file))
        (res : option SSL_CTX) (cert_tree : option CertLookupTree)
        (hostname : cstring) (current : option SSL_CTX) :
  (forall keycert cert name,
      In keycert (subcerts ++ [(ssl_ctx, certfile)]) ->
      PEM_read_bio_X509 (snd keycert) = Some cert ->
      cert_name_of cert name -> hostname_fits name) ->
  hostname_fits hostname ->
  setup_server_ssl_context upstream_no_tls ssl_ctx certfile subcerts
  = Some (res, cert_tree) ->
  exists selected,
    servername_callback cert_tree (Some hostname) current
    = (SSL_TLSEXT_ERR_OK, selected)
    /\ (selected = current
        \/ exists c file cert name,
            selected = Some c
            /\ In (c, file) (subcerts ++ [(ssl_ctx, certfile)])
            /\ PEM_read_bio_X509 file = Some cert
            /\ cert_name_of cert name
            /\ (case_equal name hostname
                \/ (In STAR name
                    /\ tls_hostname_match (c_str (map util.lowcase name))
                                          (c_str hostname) = true))).
Proof.
  intros Fit FitQ S. unfold servername_callback.
  destruct cert_tree as [lt|];
    [|exists current; split; [reflexivity|left; reflexivity]].
  destruct (cert_lookup_tree_lookup lt hostname) as [c|] eqn:L;
    [|exists current; split; [reflexivity|left; reflexivity]].
  exists (Some c). split; [reflexivity|]. right.
  destruct (setup_lookup_sound _ _ _ _ _ _ _ _ Fit FitQ S L)
    as (file & cert & name & Ik & P & N & M).
  exists c, file, cert, name. split; [reflexivity|]. split; [exact Ik|].
  split; [exact P|]. split; [exact N|exact M].
Qed.
Lemma X16_servername_selects_named_cert_witness :
  hostname_fits (s "www.example.net")
  /\ exists res cert_tree,
      setup_server_ssl_context
        false 1%nat
        (mkcert_file true true
           (Some (mkX509 (Some [GEN_DNS (Some (s "example.org"))]) None)))
        [(2%nat,
          mkcert_file true true
            (Some (mkX509 (Some [GEN_DNS (Some (s "*.example.net"))]) None)))]
      = Some (res, cert_tree)
      /\ servername_callback cert_tree (Some (s "www.example.net"))
                             (Some 1%nat)
         = (SSL_TLSEXT_ERR_OK, Some 2%nat).
Proof.
  set (certfile := mkcert_file true true
         (Some (mkX509 (Some [GEN_DNS (Some (s "example.org"))]) None))).
  set (subcerts := [(2%nat,
         mkcert_file true true
           (Some (mkX509 (Some [GEN_DNS (Some (s "*.example.net"))]) None)))]).
  assert (FitQ : hostname_fits (s "www.example.net")).
  { unfold hostname_fits, INT_MAX. simpl. lia. }
  assert (Fit : forall keycert cert name,
             In keycert (subcerts ++ [(1%nat, certfile)]) ->
             PEM_read_bio_X509 (snd keycert) = Some cert ->
             cert_name_of cert name -> hostname_fits name).
  { intros keycert cert name [<-|[<-|[]]] P
           [(a & E & I & _)|(b & e & a & E & _)];
      cbn in P; injection P as <-; try discriminate E;
      cbn in E; injection E as <-; destruct I as [I|[]];
      injection I as <-; unfold hostname_fits, INT_MAX; simpl; lia. }
  split; [exact FitQ|].
  destruct (setup_server_ssl_context false 1%nat certfile subcerts)
    as [[res cert_tree]|] eqn:S; [|vm_compute in S; discriminate S].
  exists res, cert_tree. split; [reflexivity|].
  destruct (X16_servername_selects_named_cert
              false 1%nat certfile subcerts res cert_tree
              (s "www.example.net") (Some 1%nat) Fit FitQ S)
    as (selected & E & _).
  rewrite E. vm_compute in S. injection S as <- <-. vm_compute in E.
  injection E as <-. reflexivity.
Defined.
(** ** Wildcard patterns are served *)

Lemma strieq_nth a b :
  util.strieq a b = true ->
  length a = length b
  /\ forall i, util.lowcase (nth i a NUL) = util.lowcase (nth i b NUL).
Proof.
  intro E. apply strieq_case_equal in E. split; [exact (case_equal_length _ _ E)|].
  intro i.
  rewrite <- (map_nth util.lowcase a NUL i), <- (map_nth util.lowcase b NUL i).
  unfold case_equal in E. rewrite E. reflexivity.
Qed.

Lemma equal_CaseCmp_nth r2 :
  forall r1,
    util.equal_CaseCmp r2 r1 = true ->
    (length r2 <= length r1)%nat
    /\ forall i, (i < length r2)%nat ->
                 util.lowcase (nth i r2 NUL) = util.lowcase (nth i r1 NUL).
Proof.
  induction r2 as [|y r2 IH]; intros r1 E; cbn [util.equal_CaseCmp] in E.
  - split; [cbn [length]; lia|]. intros i Hi. cbn [length] in Hi. lia.
  - destruct r1 as [|x r1]; [discriminate E|].
    apply andb_prop in E. destruct E as [C E]. unfold util.CaseCmp in C.
    apply Ascii.eqb_eq in C. destruct (IH r1 E) as [L N].
    split; [cbn [length]; lia|]. intros [|i] Hi; cbn [nth]; [exact C|].
    apply N. cbn [length] in Hi. lia.
Qed.

Lemma strchr_lt str0 c k : strchr str0 c = Some k -> (k < length str0)%nat.
Proof.
  intro E. destruct (strchr_Some _ _ _ E) as (_ & Sk & _).
  assert (L : length (skipn k str0) = (length str0 - k)%nat)
    by apply length_skipn.
  rewrite Sk in L. cbn [length] in L. lia.
Qed.

Lemma strchr_nth str0 c k : strchr str0 c = Some k -> nth k str0 NUL = c.
Proof.
  intro E. destruct (strchr_Some _ _ _ E) as (_ & Sk & _).
  rewrite <- (Nat.add_0_r k), <- nth_skipn, Sk. reflexivity.
Qed.

Lemma strchr_first str0 c k i :
  strchr str0 c = Some k -> nth i str0 NUL = c -> (i < length str0)%nat ->
  (k <= i)%nat.
Proof.
  intros E Ni Li. destruct (strchr_Some _ _ _ E) as (Nf & _ & _).
  destruct (Nat.le_gt_cases k i) as [L|G]; [exact L|].
  exfalso. apply Nf. rewrite <- Ni.
  assert (En : nth i (firstn k str0) NUL = nth i str0 NUL).
  { rewrite nth_firstn. destruct (Nat.ltb_spec i k) as [_|B]; [reflexivity|lia]. }
  rewrite <- En. apply nth_In. rewrite length_firstn. lia.
Qed.

(** What [tls_hostname_match] accepts for a pattern with a wildcard ends as
    the pattern does after its first wildcard, up to case, and is not
    shorter than the pattern. *)
Lemma tls_hostname_match_suffix pattern hostname w :
  tls_hostname_match pattern hostname = true ->
  strchr pattern STAR = Some w ->
  (length pattern <= length hostname)%nat
  /\ forall i,
      (w < i < length pattern)%nat ->
      util.lowcase (nth (i + (length hostname - length pattern)) hostname NUL)
      = util.lowcase (nth i pattern NUL).
Proof.
  intros M Sw. unfold tls_hostname_match in M. rewrite Sw in M.
  assert (Eq : util.strieq pattern hostname = true ->
               (length pattern <= length hostname)%nat
               /\ forall i,
                   (w < i < length pattern)%nat ->
                   util.lowcase
                     (nth (i + (length hostname - length pattern)) hostname NUL)
                   = util.lowcase (nth i pattern NUL)).
  { intro E. destruct (strieq_nth _ _ E) as [L N]. split; [lia|].
    intros i _. rewrite L, Nat.sub_diag, Nat.add_0_r. symmetry. apply N. }
  destruct (strchr pattern DOT) as [l|] eqn:Sl; [|exact (Eq M)].
  destruct (is_null (strchr (skipn (l + 1) pattern) DOT)
            || (l <? w)%nat || util.istartsWith pattern (s "xn--")) eqn:C;
    cbn [negb] in M; [exact (Eq M)|].
  destruct (strchr hostname DOT) as [hnl|] eqn:Sh; [|discriminate M].
  destruct (util.strieq (skipn l pattern) (skipn hnl hostname)) eqn:R;
    cbn [negb] in M; [|discriminate M].
  destruct (Nat.ltb_spec hnl l) as [Lt|Ge]; [discriminate M|].
  apply andb_prop in M. destruct M as [_ Me].
  apply orb_false_elim in C. destruct C as [C _].
  apply orb_false_elim in C. destruct C as [_ C].
  apply Nat.ltb_ge in C.
  pose proof (strchr_lt _ _ _ Sl) as Ll.
  pose proof (strchr_lt _ _ _ Sh) as Lh.
  destruct (strieq_nth _ _ R) as [Lr Nr]. rewrite !length_skipn in Lr.
  unfold util.iendsWith_range in Me.
  rewrite !length_firstn, !length_skipn, !length_firstn in Me.
  rewrite (Nat.min_l hnl) in Me by lia. rewrite (Nat.min_l l) in Me by lia.
  destruct (Nat.ltb_spec hnl (l - (w + 1))) as [B|B]; [discriminate Me|].
  destruct (equal_CaseCmp_nth _ _ Me) as [_ Ne].
  rewrite length_skipn, length_firstn, (Nat.min_l l) in Ne by lia.
  split; [lia|]. intros i [Hw Hi].
  destruct (Nat.le_gt_cases l i) as [Li|Li].
  - pose proof (Nr (i - l)%nat) as E. rewrite !nth_skipn in E.
    replace (l + (i - l))%nat with i in E by lia.
    replace (i + (length hostname - length pattern))%nat
      with (hnl + (i - l))%nat by lia.
    symmetry. exact E.
  - pose proof (Ne (i - (w + 1))%nat ltac:(lia)) as E.
    rewrite !nth_skipn, !nth_firstn in E.
    replace (w + 1 + (i - (w + 1)))%nat with i in E by lia.
    destruct (Nat.ltb_spec i l) as [_|B1]; [|lia].
    destruct (Nat.ltb_spec (hnl - (l - (w + 1)) + (i - (w + 1))) hnl)
      as [_|B2]; [|lia].
    replace (i + (length hostname - length pattern))%nat
      with (hnl - (l - (w + 1)) + (i - (w + 1)))%nat by lia.
    symmetry. exact E.
Qed.
Lemma star_free_edges_inv node :
  star_free_edges node ->
  Forall (fun cn => forall t, last cn < t <= first cn ->
                              char_at (str cn) t <> STAR) (next node)
  /\ Forall star_free_edges (next node).
Proof. intro H. inversion H. auto. Qed.

Lemma star_free_edges_child node cn :
  star_free_edges node -> In cn (next node) ->
  (forall t, last cn < t <= first cn -> char_at (str cn) t <> STAR)
  /\ star_free_edges cn.
Proof.
  intros H I. destruct (star_free_edges_inv _ H) as [F1 F2]. split.
  - exact (proj1 (Forall_forall _ _) F1 cn I).
  - exact (proj1 (Forall_forall _ _) F2 cn I).
Qed.

Lemma split_upper_star_free cn i' ctx1 :
  last cn <= i' <= first cn ->
  (forall t, last cn < t <= first cn -> char_at (str cn) t <> STAR) ->
  star_free_edges cn ->
  star_free_edges (split_upper cn i' ctx1).
Proof.
  intros B E S. destruct (star_free_edges_inv _ S) as [F1 F2].
  constructor; cbn [split_upper next].
  - constructor; [|constructor]. cbn [split_lower str first last].
    intros t T. apply E. lia.
  - constructor; [|constructor]. constructor; assumption.
Qed.

Lemma star_free_edges_set_next node i cn' :
  star_free_edges node ->
  (forall t, last cn' < t <= first cn' -> char_at (str cn') t <> STAR) ->
  star_free_edges cn' ->
  star_free_edges (with_next node (set_next (next node) i cn')).
Proof.
  intros S E Sc. destruct (star_free_edges_inv _ S) as [F1 F2].
  constructor; cbn [with_next next]; apply set_next_Forall; assumption.
Qed.

(** Insertion puts no wildcard among the characters of a node. *)
Lemma add_node_star_free fuel :
  forall node ctx h o node',
    nonempty_edges node -> star_free_edges node -> 0 <= o ->
    cert_lookup_tree_add_cert_node fuel node ctx h o = Some node' ->
    star_free_edges node'.
Proof.
  induction fuel as [|fuel IH]; intros node ctx h o node' N S O H;
    [discriminate H|].
  cbn [cert_lookup_tree_add_cert_node] in H.
  revert H. add_body_cases node h o; intro H;
    try (destruct (find_next_found _ _ _ Hfind) as [Hc I];
         destruct (nonempty_edges_child _ _ N I) as [Lc Nc];
         destruct (star_free_edges_child _ _ S I) as [Ec Sc];
         destruct (walk_bounds _ _ _ _ _ _ _ _ Hwalk) as (Bi & Bj & _);
         [lia|lia|]).
  - injection H as <-. exact S.
  - injection H as <-. apply star_free_edges_set_next; [exact S|exact Ec|].
    destruct (star_free_edges_inv _ Sc) as [G1 G2]. constructor; assumption.
  - apply Z.eqb_neq in Hj.
    destruct (cert_lookup_tree_add_cert_node fuel cn ctx h j) as [cn'|] eqn:Hrec;
      [|discriminate H].
    injection H as <-.
    destruct (add_node_header _ _ _ _ _ _ Hrec) as (Es & Ef & El).
    apply star_free_edges_set_next; [exact S| |].
    + rewrite Es, Ef, El. exact Ec.
    + apply (IH cn ctx h j cn' Nc Sc); [lia|exact Hrec].
  - injection H as <-.
    apply star_free_edges_set_next; [exact S| |].
    + cbn [str first last]. intros t T. apply Ec. lia.
    + apply (split_upper_star_free cn i' ctx); [lia|exact Ec|exact Sc].
  - apply Z.eqb_neq in Hi. apply Z.eqb_neq in Hj.
    change (match cert_lookup_tree_add_cert_node fuel
                    (split_upper cn i' None) ctx h j with
            | Some cn' =>
                Some (with_next node
                        (set_next (next node)
                           (find_next (next node) (char_at h o)) cn'))
            | None => None
            end = Some node') in H.
    destruct (cert_lookup_tree_add_cert_node fuel (split_upper cn i' None)
                ctx h j) as [cn'|] eqn:Hrec; [|discriminate H].
    injection H as <-.
    destruct (add_node_header _ _ _ _ _ _ Hrec) as (Es & Ef & El).
    cbn [split_upper str first last] in Es, Ef, El.
    assert (Li : last cn < i') by lia.
    apply star_free_edges_set_next; [exact S| |].
    + rewrite Es, Ef, El. intros t T. apply Ec. lia.
    + apply (IH (split_upper cn i' None) ctx h j cn'
                (split_upper_nonempty cn i' None Li Nc));
        [|lia|exact Hrec].
      apply split_upper_star_free; [lia|exact Ec|exact Sc].
  - injection H as <-. destruct (star_free_edges_inv _ S) as [F1 F2].
    constructor; assumption.
  - injection H as <-. destruct (star_free_edges_inv _ S) as [F1 F2].
    destruct (scan_wildcard_spec h _ o _ (loop_fuel_enough o) eq_refl)
      as (_ & _ & S3 & _).
    constructor; cbn [with_next next]; apply Forall_app; split;
      try assumption; (constructor; [|constructor]).
    + cbn [str first last]. exact S3.
    + constructor; constructor.
Qed.

Lemma add_cert_star_free lt ctx hostname lt' :
  tree_ok lt -> hostname_fits hostname -> star_free_edges (root lt) ->
  cert_lookup_tree_add_cert lt ctx hostname = Some lt' ->
  star_free_edges (root lt').
Proof.
  intros (N & _) Fit S. unfold cert_lookup_tree_add_cert.
  destruct (Z.eqb_spec (Z.of_nat (length hostname)) 0) as [E|E].
  - intro H. injection H as <-. exact S.
  - rewrite (top_offset _ Fit).
    destruct (cert_lookup_tree_add_cert_node
                (loop_fuel (Z.of_nat (length hostname) - 1)) (root lt) ctx
                (map util.lowcase hostname) (Z.of_nat (length hostname) - 1))
      as [r|] eqn:Ha; [|discriminate].
    intro H. injection H as <-. cbn [root].
    apply (add_node_star_free _ _ _ _ _ _ N S) in Ha; [exact Ha|lia].
Qed.

Lemma add_certs_star_free certs :
  forall lt lt',
    tree_ok lt -> star_free_edges (root lt) ->
    Forall (fun p => hostname_fits (fst p)) certs ->
    add_certs lt certs = Some lt' ->
    star_free_edges (root lt').
Proof.
  induction certs as [|[hostname ctx] rest IH]; intros lt lt' T S F;
    cbn [add_certs].
  - intro H. injection H as <-. exact S.
  - inversion F as [|p l Fh Fr]; subst. cbn [fst] in Fh.
    destruct (add_cert_returns lt ctx hostname T Fh) as (lt1 & E1 & T1).
    rewrite E1. apply IH; [exact T1| |exact Fr].
    exact (add_cert_star_free lt ctx hostname lt1 T Fh S E1).
Qed.
Lemma scan_wildcard_at_star h o k :
  0 <= k <= o -> char_at h k = STAR ->
  (forall t, k < t <= o -> char_at h t <> STAR) ->
  scan_wildcard (loop_fuel o) h o = k.
Proof.
  intros K Hk Sf.
  destruct (scan_wildcard_spec h _ o _ (loop_fuel_enough o) eq_refl)
    as (S1 & S2 & S3 & S4).
  set (r := scan_wildcard (loop_fuel o) h o) in *.
  destruct (Z.lt_trichotomy r k) as [L|[E|G]]; [|exact E|].
  - exfalso. apply (S3 k); [lia|exact Hk].
  - exfalso. apply (Sf r); [lia|]. apply S4. lia.
Qed.

(** A query that goes with the pattern reads the characters of a node that
    the pattern reads, and goes on below it. *)
Lemma served_edge x cn' h o k jh query j :
  walk (fun c => c) (loop_fuel o) (str x) h (last x) (first x) o
  = (last x, jh) ->
  k <= jh ->
  str cn' = str x -> first cn' = first x -> last cn' = last x ->
  wild_query h k o query j ->
  lookup_below cn' query (j - (o - jh)) <> None ->
  cert_lookup_tree_lookup_node cn' query j <> None.
Proof.
  intros Wh Kj Es Ef El [Q0 Qc] Lb.
  destruct (walk_spec _ _ _ _ _ _ _ _ _ (loop_fuel_enough _) Wh)
    as (n & Hn & Ei & Ej & A & _).
  assert (En : n = o - jh) by lia. subst n.
  rewrite lookup_node_unfold, Es, Ef, El.
  rewrite (walk_intro util.lowcase (str x) query (last x) (first x) j
                      (o - jh) Hn).
  - replace (first x - (o - jh)) with (last x) by lia.
    rewrite Z.eqb_refl. cbn [negb].
    destruct (Z.eqb_spec (j - (o - jh)) (-1)) as [E|_]; [lia|]. exact Lb.
  - intros t T. destruct (A t T) as (A1 & A2 & A3).
    split; [exact A1|]. split; [lia|]. rewrite A3. symmetry. apply Qc. lia.
  - lia.
Qed.

Lemma served_set_next node cn cn' h o query j :
  Forall (fun w => snd w <> None) (wildcard_certs node) ->
  nth_error (next node) (find_next (next node) (char_at h o)) = Some cn ->
  first_char cn' = first_char cn ->
  util.lowcase (char_at query j) = char_at h o ->
  cert_lookup_tree_lookup_node cn' query j <> None ->
  lookup_below
    (with_next node
       (set_next (next node) (find_next (next node) (char_at h o)) cn'))
    query j <> None.
Proof.
  intros Wn Hf Fc Qc L. unfold lookup_below.
  cbn [with_next wildcard_certs next].
  destruct (match_wildcard_certs (wildcard_certs node) query) as [w|] eqn:MW.
  - destruct (match_wildcard_certs_nonnull _ _ _ Wn MW) as [c ->].
    discriminate.
  - rewrite (find_next_set_next _ _ cn cn' _ Hf Fc), Qc,
      (set_next_nth _ _ _ _ Hf).
    exact L.
Qed.

Lemma wild_query_below h k o jh query j :
  k <= jh <= o -> wild_query h k o query j ->
  wild_query h k jh query (j - (o - jh)).
Proof.
  intros B [Q0 Qc]. split; [lia|]. intros t T.
  replace (j - (o - jh) - t) with (j - (o - jh + t)) by lia.
  replace (jh - t) with (o - (o - jh + t)) by lia. apply Qc. lia.
Qed.

(** Registering a pattern with a wildcard below [node]: afterwards the
    queries that the pattern matches, and that go with it down to its
    wildcard, are answered. *)
Lemma add_node_wild_served fuel :
  forall node c h o k node',
    nonempty_edges node -> star_free_edges node -> wild_nonnull node ->
    0 <= k <= o -> char_at h k = STAR ->
    (forall t, k < t <= o -> char_at h t <> STAR) ->
    cert_lookup_tree_add_cert_node fuel node (Some c) h o = Some node' ->
    forall query j,
      tls_hostname_match (c_str h) (c_str query) = true ->
      wild_query h k o query j ->
      lookup_below node' query j <> None.
Proof.
  induction fuel as [|fuel IH]; intros node c h o k node' N S W K Hk Sf H;
    [discriminate H|].
  cbn [cert_lookup_tree_add_cert_node] in H.
  destruct (wild_nonnull_inv _ W) as [Wn Wc].
  assert (O : 0 <= o) by lia.
  revert H. add_body_cases node h o; intro H;
    try (destruct (find_next_found _ _ _ Hfind) as [Hc I];
         destruct (nonempty_edges_child _ _ N I) as [Lc Nc];
         destruct (star_free_edges_child _ _ S I) as [Ec Sc];
         pose proof (proj1 (Forall_forall _ _) Wc _ I) as Wcn;
         destruct (walk_bounds _ _ _ _ _ _ _ _ Hwalk) as (Bi & Bj & Bd);
         [lia|lia|];
         destruct (walk_spec _ _ _ _ _ _ _ _ _ (loop_fuel_enough _) Hwalk)
           as (n & Hn & Ei & Ej & A & _);
         assert (Kj : k <= j)
           by (destruct (Z_le_gt_dec k j) as [L|G]; [exact L|];
               exfalso; destruct (A (o - k)) as (A1 & _ & A3); [lia|];
               apply (Ec (first cn - (o - k))); [lia|];
               rewrite A3; replace (o - (o - k)) with k by lia; exact Hk);
         assert (Ko : k < o)
           by (destruct (Z.eq_dec k o) as [E|E]; [|lia];
               exfalso; apply (Ec (first cn)); [lia|];
               unfold first_char in Hc; rewrite Hc, <- E; exact Hk)).
  - apply Z.eqb_eq in Hj. lia.
  - apply Z.eqb_eq in Hj. lia.
  - apply Z.eqb_eq in Hi. subst i'.
    destruct (cert_lookup_tree_add_cert_node fuel cn (Some c) h j)
      as [cn'|] eqn:Hrec; [|discriminate H].
    injection H as <-.
    destruct (add_node_header _ _ _ _ _ _ Hrec) as (Es & Ef & El).
    assert (Kj' : 0 <= k <= j) by lia.
    assert (Sf' : forall t, k < t <= j -> char_at h t <> STAR)
      by (intros t T; apply Sf; lia).
    pose proof (IH cn c h j k cn' Nc Sc Wcn Kj' Hk Sf' Hrec) as R.
    intros query j0 M Q.
    apply (served_set_next node cn cn' h o query j0 Wn Hfind).
    + unfold first_char. rewrite Es, Ef. reflexivity.
    + destruct Q as [_ Qc]. rewrite <- (Z.sub_0_r j0), <- (Z.sub_0_r o).
      apply Qc. lia.
    + apply (served_edge cn cn' h o k j query j0 Hwalk Kj Es Ef El Q).
      apply R; [exact M|]. apply wild_query_below; [lia|exact Q].
  - apply Z.eqb_eq in Hj. lia.
  - apply Z.eqb_neq in Hi.
    change (match cert_lookup_tree_add_cert_node fuel
                    (split_upper cn i' None) (Some c) h j with
            | Some cn' =>
                Some (with_next node
                        (set_next (next node)
                           (find_next (next node) (char_at h o)) cn'))
            | None => None
            end = Some node') in H.
    destruct (cert_lookup_tree_add_cert_node fuel (split_upper cn i' None)
                (Some c) h j) as [cn'|] eqn:Hrec; [|discriminate H].
    injection H as <-.
    destruct (add_node_header _ _ _ _ _ _ Hrec) as (Es & Ef & El).
    assert (Li : last cn < i') by lia.
    assert (Kj' : 0 <= k <= j) by lia.
    assert (Sf' : forall t, k < t <= j -> char_at h t <> STAR)
      by (intros t T; apply Sf; lia).
    assert (Bs : last cn <= i' <= first cn) by lia.
    pose proof (IH (split_upper cn i' None) c h j k cn'
                   (split_upper_nonempty cn i' None Li Nc)
                   (split_upper_star_free cn i' None Bs Ec Sc)
                   (split_upper_wild_nonnull cn i' None Wcn)
                   Kj' Hk Sf' Hrec) as R.
    pose proof (walk_restart _ _ _ _ _ _ _ _ Hwalk) as Wh.
    intros query j0 M Q.
    apply (served_set_next node cn cn' h o query j0 Wn Hfind).
    + unfold first_char. rewrite Es, Ef. reflexivity.
    + destruct Q as [_ Qc]. rewrite <- (Z.sub_0_r j0), <- (Z.sub_0_r o).
      apply Qc. lia.
    + apply (served_edge (split_upper cn i' None) cn' h o k j query j0 Wh Kj
                         Es Ef El Q).
      apply R; [exact M|]. apply wild_query_below; [lia|exact Q].
  - injection H as <-. intros query j0 M _. unfold lookup_below.
    cbn [push_wildcard wildcard_certs next].
    rewrite match_wildcard_certs_app.
    destruct (match_wildcard_certs (wildcard_certs node) query) as [w|] eqn:MW.
    + destruct (match_wildcard_certs_nonnull _ _ _ Wn MW) as [c0 ->].
      discriminate.
    + cbn [match_wildcard_certs fst snd]. rewrite M. discriminate.
  - injection H as <-. apply Ascii.eqb_neq in Hstar.
    assert (Ko : k < o).
    { destruct (Z.eq_dec k o) as [E|E]; [|lia]. exfalso. apply Hstar.
      rewrite <- E. exact Hk. }
    pose proof (scan_wildcard_at_star h o k K Hk Sf) as Es.
    intros query j0 M Q. unfold lookup_below.
    cbn [with_next wildcard_certs next].
    destruct (match_wildcard_certs (wildcard_certs node) query) as [w|] eqn:MW.
    + destruct (match_wildcard_certs_nonnull _ _ _ Wn MW) as [c0 ->].
      discriminate.
    + assert (Qc : util.lowcase (char_at query j0) = char_at h o).
      { destruct Q as [_ Qc]. rewrite <- (Z.sub_0_r j0), <- (Z.sub_0_r o).
        apply Qc. lia. }
      rewrite Qc.
      fold (new_leaf (Some c) h o).
      rewrite (find_next_app_new _ (new_leaf (Some c) h o) _ Hfind eq_refl),
        nth_error_app_new.
      assert (Wl : walk (fun c0 => c0) (loop_fuel o)
                        (str (new_leaf (Some c) h o)) h
                        (last (new_leaf (Some c) h o))
                        (first (new_leaf (Some c) h o)) o
                   = (last (new_leaf (Some c) h o), k)).
      { unfold new_leaf. cbn [str first last]. rewrite Es.
        apply (walk_all_equal (fun c0 => c0) h h k o); [lia|]. reflexivity. }
      apply (served_edge (new_leaf (Some c) h o) (new_leaf (Some c) h o)
                         h o k k query j0 Wl (Z.le_refl k) eq_refl eq_refl
                         eq_refl Q).
      unfold lookup_below, new_leaf. cbn [wildcard_certs]. rewrite Es.
      destruct (Z.eqb_spec k (-1)) as [E|_]; [lia|].
      cbn [match_wildcard_certs fst snd]. rewrite M. discriminate.
Qed.
Lemma char_at_nth buf i :
  0 <= i -> char_at buf i = nth (Z.to_nat i) buf NUL.
Proof.
  intro I. unfold char_at. destruct (Z.ltb_spec i 0) as [L|_]; [lia|].
  reflexivity.
Qed.

Lemma In_char_at buf c :
  In c buf -> exists i, 0 <= i < Z.of_nat (length buf) /\ char_at buf i = c.
Proof.
  intro I. destruct (In_nth buf c NUL I) as (n & Ln & En).
  exists (Z.of_nat n). split; [lia|].
  rewrite char_at_nth by lia. rewrite Nat2Z.id. exact En.
Qed.

Lemma lowcase_no_nul h : ~ In NUL h -> ~ In NUL (map util.lowcase h).
Proof.
  intros N I. apply in_map_iff in I. destruct I as (x & E & I).
  apply (proj1 (lowcase_is_NUL x)) in E. subst x. exact (N I).
Qed.

Lemma In_STAR_map_lowcase h : In STAR h -> In STAR (map util.lowcase h).
Proof.
  intro I. apply in_map_iff. exists STAR. split; [reflexivity|exact I].
Qed.

Lemma nth_map_lowcase l i :
  nth i (map util.lowcase l) NUL = util.lowcase (nth i l NUL).
Proof. exact (map_nth util.lowcase l NUL i). Qed.

(** The queries that a pattern with a wildcard matches go with the copy of
    the pattern down to its last wildcard. *)
Lemma match_wild_query hostname query k :
  let h := map util.lowcase hostname in
  let o := Z.of_nat (length hostname) - 1 in
  tls_hostname_match h query = true ->
  0 <= k <= o -> char_at h k = STAR ->
  wild_query h k o query (Z.of_nat (length query) - 1).
Proof.
  intros h o M K Hk.
  assert (Lh : length h = length hostname) by apply length_map.
  destruct (strchr h STAR) as [w|] eqn:Sw.
  2: { exfalso. apply strchr_None in Sw. apply Sw. rewrite <- Hk.
       apply char_at_In. lia. }
  destruct (tls_hostname_match_suffix h query w M Sw) as [L N].
  assert (Wk : (w <= Z.to_nat k)%nat).
  { apply (strchr_first h STAR w (Z.to_nat k) Sw); [|lia].
    rewrite <- char_at_nth by lia. exact Hk. }
  split; [lia|]. intros t T.
  pose proof (N (Z.to_nat (o - t)) ltac:(lia)) as E.
  rewrite !char_at_nth by lia.
  replace (Z.to_nat (Z.of_nat (length query) - 1 - t))
    with (Z.to_nat (o - t) + (length query - length h))%nat by lia.
  rewrite E. unfold h. rewrite !nth_map_lowcase, lowcase_idem. reflexivity.
Qed.

Lemma add_cert_wild_served lt c hostname lt' query :
  tree_ok lt -> star_free_edges (root lt) -> wild_nonnull (root lt) ->
  In STAR hostname -> ~ In NUL hostname -> hostname_fits hostname ->
  hostname_fits query -> ~ In NUL query ->
  cert_lookup_tree_add_cert lt (Some c) hostname = Some lt' ->
  tls_hostname_match (map util.lowcase hostname) query = true ->
  cert_lookup_tree_lookup lt' query <> None.
Proof.
  intros (N & Rf & Rl) S W St Nh Fit FitQ Nq. unfold cert_lookup_tree_add_cert.
  assert (Len : 0 < Z.of_nat (length hostname)).
  { destruct hostname; [destruct St|]. cbn [length]. lia. }
  destruct (Z.eqb_spec (Z.of_nat (length hostname)) 0) as [E|_]; [lia|].
  rewrite (top_offset _ Fit).
  set (h := map util.lowcase hostname).
  set (o := Z.of_nat (length hostname) - 1).
  destruct (cert_lookup_tree_add_cert_node (loop_fuel o) (root lt) (Some c) h o)
    as [r|] eqn:Ha; [|discriminate].
  intros H M. injection H as <-.
  destruct (add_node_header _ _ _ _ _ _ Ha) as (_ & Ef & El).
  assert (Lh : length h = length hostname) by apply length_map.
  destruct (scan_wildcard_spec h _ o _ (loop_fuel_enough o) eq_refl)
    as (S1 & S2 & S3 & S4).
  set (k := scan_wildcard (loop_fuel o) h o) in *.
  assert (K : 0 <= k).
  { destruct (Z_lt_ge_dec k 0) as [L|G]; [|lia]. exfalso.
    destruct (In_char_at h STAR (In_STAR_map_lowcase _ St)) as (i & Bi & Ei).
    apply (S3 i); [lia|exact Ei]. }
  assert (Ko : 0 <= k <= o) by lia.
  pose proof (match_wild_query hostname query k M Ko (S4 K)) as Q.
  fold h o in Q.
  assert (Lq : 0 <= Z.of_nat (length query) - 1) by (destruct Q; lia).
  rewrite lookup_from_root; cbn [root]; [|lia|lia|exact FitQ].
  destruct (Z.eqb_spec (Z.of_nat (length query) - 1) (-1)) as [E|_]; [lia|].
  apply (add_node_wild_served _ _ _ _ _ k _ N S W Ko (S4 K) S3 Ha);
    [|exact Q].
  rewrite (c_str_no_nul h (lowcase_no_nul _ Nh)), (c_str_no_nul query Nq).
  exact M.
Qed.

Lemma new_star_free : star_free_edges (root cert_lookup_tree_new).
Proof. constructor; constructor. Qed.

(** X17.  A pattern with a wildcard that is registered, with a context
    that is not null, in a tree built by registrations serves the hosts it
    matches: afterwards the lookup of every host that [tls_hostname_match]
    accepts for the lower-case copy of the pattern yields a context, and
    the registered one if the host had none before. *)
Theorem X17_wildcard_pattern_served
        (certs : list (list ascii * option SSL_CTX)) (lt : CertLookupTree)
        (hostname : list ascii) (c : SSL_CTX) :
  registrations_ok certs ->
  add_certs cert_lookup_tree_new certs = Some lt ->
  In STAR hostname -> ~ In NUL hostname -> hostname_fits hostname ->
  exists lt',
    cert_lookup_tree_add_cert lt (Some c) hostname = Some lt'
    /\ forall query,
        hostname_fits query -> ~ In NUL query ->
        tls_hostname_match (map util.lowcase hostname) query = true ->
        cert_lookup_tree_lookup lt' query <> None
        /\ (cert_lookup_tree_lookup lt query = None ->
            cert_lookup_tree_lookup lt' query = Some c).
Proof.
  intros F A St Nh Fit.
  destruct (add_certs_invariants certs _ _ tree_ok_new new_wild_nonnull F A)
    as [T W].
  assert (Ff : Forall (fun p => hostname_fits (fst p)) certs).
  { apply Forall_impl with (2 := F). intros p [H _]. exact H. }
  pose proof (add_certs_star_free certs _ _ tree_ok_new new_star_free Ff A)
    as S.
  destruct (add_cert_returns lt (Some c) hostname T Fit) as (lt' & E & _).
  exists lt'. split; [exact E|]. intros query FitQ Nq M.
  pose proof (add_cert_wild_served lt c hostname lt' query T S W St Nh Fit
                FitQ Nq E M) as Sv.
  split; [exact Sv|]. intro Nb.
  destruct (add_cert_frame lt (Some c) hostname lt' query T Fit FitQ E)
    as [Eq|Eq]; [|exact Eq].
  exfalso. apply Sv. rewrite Eq. exact Nb.
Qed.

Lemma X17_wildcard_pattern_served_witness :
  registrations_ok example_certs
  /\ add_certs cert_lookup_tree_new example_certs = Some example_tree
  /\ exists lt',
      cert_lookup_tree_add_cert example_tree (Some 9%nat) (s "*.CO.jp")
      = Some lt'
      /\ tls_hostname_match (map util.lowcase (s "*.CO.jp")) (s "Shop.co.JP")
         = true
      /\ cert_lookup_tree_lookup example_tree (s "Shop.co.JP") = None
      /\ cert_lookup_tree_lookup lt' (s "Shop.co.JP") = Some 9%nat.
Proof.
  assert (F : registrations_ok example_certs).
  { unfold registrations_ok, example_certs.
    repeat (constructor;
            [split; [unfold hostname_fits, INT_MAX; simpl; lia
                    |intros _; discriminate]|]).
    constructor. }
  assert (A : add_certs cert_lookup_tree_new example_certs = Some example_tree)
    by reflexivity.
  split; [exact F|]. split; [exact A|].
  destruct (X17_wildcard_pattern_served example_certs example_tree
              (s "*.CO.jp") 9%nat F A) as (lt' & E & L).
  - left. reflexivity.
  - intro I. cbn in I.
    repeat (destruct I as [I|I]; [discriminate I|]). exact I.
  - unfold hostname_fits, INT_MAX. simpl. lia.
  - exists lt'. split; [exact E|]. split; [reflexivity|].
    split; [reflexivity|].
    apply L; [| |reflexivity|reflexivity].
    + unfold hostname_fits, INT_MAX. simpl. lia.
    + intro I. cbn in I.
      repeat (destruct I as [I|I]; [discriminate I|]). exact I.
Defined.
Lemma match_star_free_strieq hostname query :
  ~ In STAR hostname ->
  tls_hostname_match (map util.lowcase hostname) query = true ->
  util.strieq hostname query = true.
Proof.
  intros Sf M. unfold tls_hostname_match in M.
  destruct (strchr (map util.lowcase hostname) STAR) as [w|] eqn:Sw.
  - exfalso. apply Sf. apply In_STAR_lowcase.
    rewrite <- (strchr_nth _ _ _ Sw). apply nth_In.
    exact (strchr_lt _ _ _ Sw).
  - apply strieq_case_equal. apply strieq_case_equal in M.
    unfold case_equal in *. rewrite <- M, map_map.
    apply map_ext. intro a. symmetry. apply lowcase_idem.
Qed.

(** Registrations with contexts that are not null: a query that is
    answered stays answered, and every host that a registered name matches
    is answered in the end. *)
Lemma add_certs_served certs :
  forall lt lt',
    tree_ok lt -> star_free_edges (root lt) -> wild_nonnull (root lt) ->
    Forall (fun p => hostname_fits (fst p) /\ ~ In NUL (fst p)
                     /\ snd p <> None) certs ->
    add_certs lt certs = Some lt' ->
    forall query,
      hostname_fits query -> ~ In NUL query ->
      (cert_lookup_tree_lookup lt query <> None ->
       cert_lookup_tree_lookup lt' query <> None)
      /\ forall hostname ctx,
          In (hostname, ctx) certs -> hostname <> [] ->
          tls_hostname_match (map util.lowcase hostname) query = true ->
          cert_lookup_tree_lookup lt' query <> None.
Proof.
  induction certs as [|[hostname0 ctx0] rest IH]; intros lt lt' T S W F;
    cbn [add_certs].
  - intro H. injection H as <-. intros query FitQ Nq.
    split; [auto|]. intros hostname ctx [].
  - inversion F as [|p l (Fh & Nh & Fc) Fr]; subst. cbn [fst snd] in Fh, Nh, Fc.
    destruct ctx0 as [c0|]; [|contradiction].
    destruct (add_cert_returns lt (Some c0) hostname0 T Fh) as (lt1 & E1 & T1).
    rewrite E1. intro H.
    assert (W1 : wild_nonnull (root lt1)).
    { apply (add_cert_wild_nonnull lt (Some c0) hostname0 lt1 Fh W);
        [discriminate|exact E1]. }
    pose proof (add_cert_star_free lt (Some c0) hostname0 lt1 T Fh S E1) as S1.
    intros query FitQ Nq.
    destruct (IH lt1 lt' T1 S1 W1 Fr H query FitQ Nq) as [P1 Sv1].
    pose proof (add_cert_frame lt (Some c0) hostname0 lt1 query T Fh FitQ E1)
      as Fr0.
    split.
    + intro Nb. apply P1. destruct Fr0 as [E|E]; rewrite E;
        [exact Nb|discriminate].
    + intros hostname ctx [E|I] Ne M; [|exact (Sv1 hostname ctx I Ne M)].
      injection E as <- <-. apply P1.
      destruct (in_dec ascii_dec STAR hostname0) as [St|Sf].
      * exact (add_cert_wild_served lt c0 hostname0 lt1 query T S W St Nh Fh
                 FitQ Nq E1 M).
      * rewrite (add_cert_lookup lt (Some c0) hostname0 lt1 query T W Ne Sf Fh
                   FitQ E1).
        rewrite (match_star_free_strieq hostname0 query Sf M).
        destruct (cert_lookup_tree_lookup lt query); discriminate.
Qed.

(** X18.  Registrations of hostnames without NUL, with contexts that are
    not null, return a tree in which every host that [tls_hostname_match]
    accepts for the lower-case copy of a registered name that is not empty
    is answered: the names themselves in any case, and for a name with a
    wildcard the hosts the pattern matches. *)
Theorem X18_every_registration_served
        (certs : list (list ascii * option SSL_CTX)) :
  Forall (fun p => hostname_fits (fst p) /\ ~ In NUL (fst p) /\ snd p <> None)
         certs ->
  exists lt,
    add_certs cert_lookup_tree_new certs = Some lt
    /\ forall hostname ctx query,
        In (hostname, ctx) certs -> hostname <> [] ->
        hostname_fits query -> ~ In NUL query ->
        tls_hostname_match (map util.lowcase hostname) query = true ->
        cert_lookup_tree_lookup lt query <> None.
Proof.
  intro F.
  destruct (add_certs_returns certs cert_lookup_tree_new tree_ok_new)
    as (lt & E & _).
  { apply Forall_impl with (2 := F). intros p (H & _). exact H. }
  exists lt. split; [exact E|]. intros hostname ctx query I Ne FitQ Nq M.
  destruct (add_certs_served certs cert_lookup_tree_new lt tree_ok_new
              new_star_free new_wild_nonnull F E query FitQ Nq) as [_ Sv].
  exact (Sv hostname ctx I Ne M).
Qed.

Lemma X18_every_registration_served_witness :
  exists lt,
    add_certs cert_lookup_tree_new example_certs = Some lt
    /\ tls_hostname_match (map util.lowcase (s "*.Example.com"))
                          (s "ftp.EXAMPLE.com") = true
    /\ cert_lookup_tree_lookup lt (s "ftp.EXAMPLE.com") <> None.
Proof.
  destruct (X18_every_registration_served example_certs) as (lt & E & L).
  { unfold example_certs.
    repeat (constructor;
            [split; [unfold hostname_fits, INT_MAX; simpl; lia|];
             split; [|discriminate];
             intro I; cbn in I;
             repeat (destruct I as [I|I]; [discriminate I|]); exact I|]).
    constructor. }
  exists lt. split; [exact E|]. split; [reflexivity|].
  apply (L (s "*.Example.com") (Some 4%nat)).
  - right. right. right. left. reflexivity.
  - discriminate.
  - unfold hostname_fits, INT_MAX. simpl. lia.
  - intro I. cbn in I.
    repeat (destruct I as [I|I]; [discriminate I|]). exact I.
  - reflexivity.
Defined.
Lemma setup_registrations_In ssl_ctx certfile subcerts c file cert name :
  In (c, file) (subcerts ++ [(ssl_ctx, certfile)]) ->
  PEM_read_bio_X509 file = Some cert -> cert_name_of cert name ->
  In (name, Some c) (setup_registrations ssl_ctx certfile subcerts).
Proof.
  intros Ik P N. unfold setup_registrations. apply in_flat_map.
  exists (c, file). split; [exact Ik|]. cbn [fst snd]. rewrite P.
  apply cert_registrations_name. exact N.
Qed.

Lemma cert_name_of_no_nul cert name : cert_name_of cert name -> ~ In NUL name.
Proof.
  intros [(a & _ & _ & N)|(b & e & a & _ & _ & _ & N & _)]; exact N.
Qed.

(** X19.  After [setup_server_ssl_context] with sub certificates, a host
    that a name of one of the configured certificates matches is never
    left with the context it had: [servername_callback] gives it the
    context of a configured certificate that names it. *)
Theorem X19_servername_named_host_served
        (upstream_no_tls : bool) (ssl_ctx : SSL_CTX) (certfile : cert_file)
        (subcerts : list (SSL_CTX * cert_file))
        (res : option SSL_CTX) (lt : CertLookupTree)
        (hostname : cstring) (current : option SSL_CTX)
        (c0 : SSL_CTX) (file0 : cert_file) (cert0 : X509)
        (name0 : list ascii) :
  (forall keycert cert name,
      In keycert (subcerts ++ [(ssl_ctx, certfile)]) ->
      PEM_read_bio_X509 (snd keycert) = Some cert ->
      cert_name_of cert name -> hostname_fits name) ->
  hostname_fits hostname -> ~ In NUL hostname ->
  setup_server_ssl_context upstream_no_tls ssl_ctx certfile subcerts
  = Some (res, Some lt) ->
  In (c0, file0) (subcerts ++ [(ssl_ctx, certfile)]) ->
  PEM_read_bio_X509 file0 = Some cert0 -> cert_name_of cert0 name0 ->
  name0 <> [] ->
  tls_hostname_match (map util.lowcase name0) hostname = true ->
  exists c file cert name,
    servername_callback (Some lt) (Some hostname) current
    = (SSL_TLSEXT_ERR_OK, Some c)
    /\ In (c, file) (subcerts ++ [(ssl_ctx, certfile)])
    /\ PEM_read_bio_X509 file = Some cert
    /\ cert_name_of cert name
    /\ (case_equal name hostname
        \/ (In STAR name
            /\ tls_hostname_match (c_str (map util.lowcase name))
                                  (c_str hostname) = true)).
Proof.
  intros Fit FitQ Nq S Ik P N Ne M.
  pose proof (setup_server_registrations _ _ _ _ _ _ S) as A.
  assert (F : Forall (fun p => hostname_fits (fst p) /\ ~ In NUL (fst p)
                               /\ snd p <> None)
                     (setup_registrations ssl_ctx certfile subcerts)).
  { apply Forall_forall. intros [name c'] I. cbn [fst snd].
    unfold setup_registrations in I. apply in_flat_map in I.
    destruct I as (keycert & Ik' & I).
    destruct (PEM_read_bio_X509 (snd keycert)) as [cert|] eqn:P';
      [|destruct I].
    destruct (cert_registrations_In _ _ _ _ I) as [-> [N' | ->]].
    - split; [exact (Fit keycert cert name Ik' P' N')|].
      split; [exact (cert_name_of_no_nul cert name N')|discriminate].
    - split; [exact hostname_fits_nil|]. split; [intros []|discriminate]. }
  destruct (add_certs_served _ _ _ tree_ok_new new_star_free new_wild_nonnull
              F A hostname FitQ Nq) as [_ Sv].
  pose proof (Sv name0 (Some c0)
                (setup_registrations_In _ _ _ _ _ _ _ Ik P N) Ne M) as L.
  destruct (cert_lookup_tree_lookup lt hostname) as [c|] eqn:El;
    [|contradiction].
  destruct (setup_lookup_sound _ _ _ _ _ _ _ _ Fit FitQ S El)
    as (file & cert & name & Ik1 & P1 & N1 & M1).
  exists c, file, cert, name. unfold servername_callback. rewrite El.
  split; [reflexivity|]. split; [exact Ik1|]. split; [exact P1|].
  split; [exact N1|exact M1].
Qed.

Lemma X19_servername_named_host_served_witness :
  hostname_fits (s "www.example.net")
  /\ exists res lt,
      setup_server_ssl_context
        false 1%nat
        (mkcert_file true true
           (Some (mkX509 (Some [GEN_DNS (Some (s "example.org"))]) None)))
        [(2%nat,
          mkcert_file true true
            (Some (mkX509 (Some [GEN_DNS (Some (s "*.example.net"))]) None)))]
      = Some (res, Some lt)
      /\ exists c,
          servername_callback (Some lt) (Some (s "www.example.net")) None
          = (SSL_TLSEXT_ERR_OK, Some c).
Proof.
  set (certfile := mkcert_file true true
         (Some (mkX509 (Some [GEN_DNS (Some (s "example.org"))]) None))).
  set (cert1 := mkX509 (Some [GEN_DNS (Some (s "*.example.net"))]) None).
  set (subcerts := [(2%nat, mkcert_file true true (Some cert1))]).
  assert (FitQ : hostname_fits (s "www.example.net")).
  { unfold hostname_fits, INT_MAX. simpl. lia. }
  assert (Nq : ~ In NUL (s "www.example.net")).
  { intro I. cbn in I.
    repeat (destruct I as [I|I]; [discriminate I|]). exact I. }
  assert (Fit : forall keycert cert name,
             In keycert (subcerts ++ [(1%nat, certfile)]) ->
             PEM_read_bio_X509 (snd keycert) = Some cert ->
             cert_name_of cert name -> hostname_fits name).
  { intros keycert cert name [<-|[<-|[]]] P
           [(a & E & I & _)|(b & e & a & E & _)];
      cbn in P; injection P as <-; try discriminate E;
      cbn in E; injection E as <-; destruct I as [I|[]];
      injection I as <-; unfold hostname_fits, INT_MAX; simpl; lia. }
  assert (N1 : cert_name_of cert1 (s "*.example.net")).
  { left. exists [GEN_DNS (Some (s "*.example.net"))].
    split; [reflexivity|]. split; [left; reflexivity|].
    intro I. cbn in I.
    repeat (destruct I as [I|I]; [discriminate I|]). exact I. }
  split; [exact FitQ|].
  destruct (setup_server_ssl_context false 1%nat certfile subcerts)
    as [[res [lt|]]|] eqn:S;
    [|vm_compute in S; discriminate S|vm_compute in S; discriminate S].
  exists res, lt. split; [reflexivity|].
  destruct (X19_servername_named_host_served
              false 1%nat certfile subcerts res lt (s "www.example.net") None
              2%nat (mkcert_file true true (Some cert1)) cert1
              (s "*.example.net") Fit FitQ Nq S)
    as (c & _ & _ & _ & E & _);
    [left; reflexivity|reflexivity|exact N1|discriminate|reflexivity|].
  exists c. exact E.
Defined.
